(** * Verification of the Wristband JWT validation SDK

    A shallow embedding of [src/utils/crypto.ts], [src/utils/cache.ts],
    [src/jwks-client.ts] and [src/validator.ts], with the properties of the
    natural-language specification proved (or refuted) over it.

    Conventions of the embedding:
    - a JavaScript string is a [string]: a sequence of code units, here the
      code units below 256 (Latin-1);
    - a [Uint8Array] is a [list Z] of values in [0, 256);
    - [Date.now()] is an argument [now : Z] of every operation that reads the
      clock;
    - code that can throw returns [Exc A]; [try]/[catch] is [try_catch];
    - objects shared by reference (the nodes of the cache's linked list) live
      in an explicit store indexed by pointers;
    - [validate] is embedded twice: on headers and payloads of the declared
      types [JWTHeader] and [JWTPayload] ([Validator]), and on whatever
      [JSON.parse] returns ([ValidateJson]). *)

From Stdlib Require Import ZArith Lia Bool Ascii String List.
From stdpp Require Import base option list gmap strings pretty.

Local Open Scope string_scope.
Local Open Scope list_scope.
Local Open Scope Z_scope.

(** ** JavaScript values used by the code *)

Module Js.

(** What a [throw] carries: an instance of [Error] (with its [message]) or
    any other value. [error instanceof Error] tells them apart. *)
Inductive thrown : Type :=
  | ErrorObject (message : string)
  | NonError (value : string).

Inductive Exc (A : Type) : Type :=
  | Ok (a : A)
  | Throw (e : thrown).
Arguments Ok {A} a.
Arguments Throw {A} e.

Definition bind {A B} (m : Exc A) (k : A -> Exc B) : Exc B :=
  match m with
  | Ok a => k a
  | Throw e => Throw e
  end.

(** [try { body } catch (error) { handler(error) }] *)
Definition try_catch {A} (body : Exc A) (handler : thrown -> Exc A) : Exc A :=
  match body with
  | Ok a => Ok a
  | Throw e => handler e
  end.

(** [throw new Error(msg)] *)
Definition throw_error {A} (msg : string) : Exc A := Throw (ErrorObject msg).

(** [error instanceof Error ? error.message : fallback] *)
Definition message_or (e : thrown) (fallback : string) : string :=
  match e with
  | ErrorObject m => m
  | NonError _ => fallback
  end.

(** Code unit of a character. *)
Definition code (c : ascii) : Z := Z.of_N (N_of_ascii c).
Definition of_code (z : Z) : ascii := ascii_of_N (Z.to_N z).

(** [String.prototype.toLowerCase] on code units below 256: [A-Z] and the
    Latin-1 capitals U+00C0..U+00DE (without the multiplication sign U+00D7)
    move up by 32; everything else is unchanged. *)
Definition lower_char (c : ascii) : ascii :=
  let n := code c in
  if ((65 <=? n) && (n <=? 90))
     || ((192 <=? n) && (n <=? 222) && negb (n =? 215))
  then of_code (n + 32) else c.

Fixpoint toLowerCase (s : string) : string :=
  match s with
  | EmptyString => EmptyString
  | String c s' => String (lower_char c) (toLowerCase s')
  end.

(** [String.prototype.toUpperCase] on the same code units; U+00B5 and U+00FF
    have capitals outside Latin-1 and U+00DF expands to two letters, none of
    which occurs in the strings compared below, so they are left alone. *)
Definition upper_char (c : ascii) : ascii :=
  let n := code c in
  if ((97 <=? n) && (n <=? 122))
     || ((224 <=? n) && (n <=? 254) && negb (n =? 247))
  then of_code (n - 32) else c.

Fixpoint toUpperCase (s : string) : string :=
  match s with
  | EmptyString => EmptyString
  | String c s' => String (upper_char c) (toUpperCase s')
  end.

(** White space and line terminators stripped by [String.prototype.trim]:
    TAB, LF, VT, FF, CR, SPACE and NBSP. *)
Definition is_space (c : ascii) : bool :=
  let n := code c in
  ((9 <=? n) && (n <=? 13)) || (n =? 32) || (n =? 160).

Fixpoint trim_start (s : string) : string :=
  match s with
  | EmptyString => EmptyString
  | String c s' => if is_space c then trim_start s' else s
  end.

(** Drops the trailing white space: the result of the recursive call is
    empty exactly when the rest is blank. *)
Fixpoint trim_end (s : string) : string :=
  match s with
  | EmptyString => EmptyString
  | String c s' =>
      match trim_end s' with
      | EmptyString => if is_space c then EmptyString else String c EmptyString
      | r => String c r
      end
  end.

Definition trim (s : string) : string := trim_end (trim_start s).

(** Truthiness of a string: [!s] holds for the empty string only. *)
Definition truthy (s : string) : bool :=
  match s with
  | EmptyString => false
  | String _ _ => true
  end.

(** [s.startsWith(p)] *)
Definition startsWith (s p : string) : bool := String.prefix p s.

(** [s.substring(n)] for [0 <= n] *)
Fixpoint substring_from (n : nat) (s : string) : string :=
  match n, s with
  | O, _ => s
  | S n', String _ s' => substring_from n' s'
  | S _, EmptyString => EmptyString
  end.

(** [s.split(sep)] for a one-character separator; always returns at least
    one part. *)
Fixpoint split (sep : ascii) (s : string) : list string :=
  match s with
  | EmptyString => [EmptyString]
  | String c s' =>
      if Ascii.eqb c sep then EmptyString :: split sep s'
      else match split sep s' with
           | p :: ps => String c p :: ps
           | [] => [String c EmptyString]
           end
  end.

(** The double quote, as a string. *)
Definition quote : string := String (ascii_of_nat 34) EmptyString.

(** [parts.join(sep)] *)
Fixpoint join (sep : string) (parts : list string) : string :=
  match parts with
  | [] => EmptyString
  | [p] => p
  | p :: ps => p +:+ sep +:+ join sep ps
  end.

End Js.

Export Js.

Notation "'let!' x ':=' m 'in' k" := (Js.bind m (fun x => k))
  (at level 10, x name, m at level 100, k at level 200).

(** ** [src/utils/crypto.ts]: the algorithm allowlist *)

(** [validateAlgorithm(algorithm, allowedAlgorithms)]. The header's [alg] is
    [None] when it is not a string ([typeof algorithm !== 'string']); the
    allowlist is an array of strings, so [Array.isArray] holds. *)
Definition validateAlgorithm (algorithm : option string)
    (allowedAlgorithms : list string) : bool :=
  match algorithm with
  | None => false
  | Some algorithm =>
      if negb (truthy (trim algorithm)) then false
      else
        let normalizedAlg := toLowerCase algorithm in
        let normalizedAllowed :=
          List.map toLowerCase
            (List.filter (fun alg => truthy (trim alg)) allowedAlgorithms) in
        if String.eqb normalizedAlg "none" then false
        else existsb (String.eqb normalizedAlg) normalizedAllowed
  end.


(** ** JavaScript numbers, as far as the cache looks at them *)

(** A [number] is an integer, a finite non-integer (known by the integer
    just below it: the value lies strictly between [below] and
    [below + 1]), [NaN] or an infinity. *)
Inductive number : Type :=
  | Int (z : Z)
  | Fractional (below : Z)
  | NaN
  | Infinity (negative : bool).

(** [!x] is true for [0] and [NaN]. *)
Definition number_truthy (x : number) : bool :=
  match x with
  | Int z => negb (z =? 0)
  | NaN => false
  | _ => true
  end.

(** [Number.isInteger(x)] *)
Definition isInteger (x : number) : bool :=
  match x with
  | Int _ => true
  | _ => false
  end.

(** [x <= 0] *)
Definition number_le0 (x : number) : bool :=
  match x with
  | Int z => z <=? 0
  | Fractional below => below <? 0
  | NaN => false
  | Infinity negative => negative
  end.

(** [z > x] for an integer [z] *)
Definition Z_gt_number (z : Z) (x : number) : bool :=
  match x with
  | Int y => y <? z
  | Fractional below => below <? z
  | NaN => false
  | Infinity negative => negative
  end.

(** [CacheOptions] of [src/types/index.ts]; [ttl] is [None] when the field
    is absent ([undefined], or [null] before [?? undefined]). *)
Record CacheOptions : Type := mkCacheOptions {
  opt_maxSize : number;
  opt_ttl : option number
}.

(** [this.ttl && Date.now() - lastAccessed > this.ttl] *)
Definition ttl_exceeded (ttl : option number) (now lastAccessed : Z) : bool :=
  match ttl with
  | None => false
  | Some t => number_truthy t && Z_gt_number (now - lastAccessed) t
  end.

(** ** [src/utils/cache.ts], first class: hash map and doubly linked list *)

Module LRUCache.

Definition ptr : Type := nat.

(** [LRUNode]: the links are references to other nodes, or [null]. *)
Record LRUNode : Type := mkNode {
  key : string;
  value : string;
  lastAccessed : Z;
  prev : option ptr;
  next : option ptr
}.

Definition set_prev (v : option ptr) (n : LRUNode) : LRUNode :=
  mkNode (key n) (value n) (lastAccessed n) v (next n).
Definition set_next (v : option ptr) (n : LRUNode) : LRUNode :=
  mkNode (key n) (value n) (lastAccessed n) (prev n) v.
Definition set_lastAccessed (t : Z) (n : LRUNode) : LRUNode :=
  mkNode (key n) (value n) t (prev n) (next n).

(** The object store: every node the cache ever created, by reference. *)
Abbreviation store := (gmap ptr LRUNode).

(** The fields of the class, and the store its references point into. *)
Record t : Type := mkCache {
  cache : gmap string ptr;
  maxSize : Z;
  ttl : option number;
  head : ptr;
  tail : ptr;
  heap : store
}.

Definition with_heap (c : t) (h : store) : t :=
  mkCache (cache c) (maxSize c) (ttl c) (head c) (tail c) h.
Definition with_cache (c : t) (m : gmap string ptr) : t :=
  mkCache m (maxSize c) (ttl c) (head c) (tail c) (heap c).

(** Field reads through a reference; a dangling reference reads [None]. *)
Definition next_of (h : store) (p : ptr) : option ptr := h !! p ≫= next.
Definition prev_of (h : store) (p : ptr) : option ptr := h !! p ≫= prev.

(** The constructor. After the two guards [maxSize] is a positive integer,
    kept as such; [ttl] is kept as given. *)
Definition constructor (options : CacheOptions) : Exc t :=
  if negb (number_truthy (opt_maxSize options))
     || negb (isInteger (opt_maxSize options))
     || number_le0 (opt_maxSize options)
  then throw_error "maxSize must be a positive integer"
  else if match opt_ttl options with
          | Some ttl =>
              number_truthy ttl && (negb (isInteger ttl) || number_le0 ttl)
          | None => false
          end
  then throw_error "ttl must be a positive integer (if specified)"
  else
    match opt_maxSize options with
    | Int maxSize =>
        let head := 0%nat in
        let tail := 1%nat in
        let h : store :=
          <[tail := mkNode "" "" 0 (Some head) None]>
            (<[head := mkNode "" "" 0 None (Some tail)]> ∅) in
        Ok (mkCache ∅ maxSize (opt_ttl options) head tail h)
    | _ => throw_error "maxSize must be a positive integer"
    end.

(** [removeNode(node)] *)
Definition removeNode (h : store) (node : ptr) : store :=
  let h1 :=
    match prev_of h node with
    | Some p => alter (set_next (next_of h node)) p h
    | None => h
    end in
  match next_of h1 node with
  | Some q => alter (set_prev (prev_of h1 node)) q h1
  | None => h1
  end.

(** [addToFront(node)] *)
Definition addToFront (head : ptr) (h : store) (node : ptr) : store :=
  let h1 := alter (set_prev (Some head)) node h in
  let h2 := alter (set_next (next_of h1 head)) node h1 in
  let h3 :=
    match next_of h2 head with
    | Some q => alter (set_prev (Some node)) q h2
    | None => h2
    end in
  alter (set_next (Some node)) head h3.

(** [moveToFront(node)] *)
Definition moveToFront (head : ptr) (h : store) (node : ptr) : store :=
  addToFront head (removeNode h node) node.

(** [evictLeastRecentlyUsed()] *)
Definition evictLeastRecentlyUsed (c : t) : t :=
  match prev_of (heap c) (tail c) with
  | Some lru =>
      if decide (lru = head c) then c
      else
        let h := removeNode (heap c) lru in
        match h !! lru with
        | Some n => mkCache (delete (key n) (cache c)) (maxSize c) (ttl c)
                      (head c) (tail c) h
        | None => with_heap c h
        end
  | None => c
  end.

(** [get(key)]: the value, or [None] for [undefined], and the cache after
    the call. *)
Definition get (c : t) (k : string) (now : Z) : option string * t :=
  match cache c !! k with
  | None => (None, c)
  | Some node =>
      match heap c !! node with
      | None => (None, c)
      | Some n =>
          if ttl_exceeded (ttl c) now (lastAccessed n) then
            (None,
             mkCache (delete k (cache c)) (maxSize c) (ttl c) (head c) (tail c)
               (removeNode (heap c) node))
          else
            let h := alter (set_lastAccessed now) node (heap c) in
            (Some (value n), with_heap c (moveToFront (head c) h node))
      end
  end.

(** [set(key, value)] *)
Definition set (c : t) (k v : string) (now : Z) : t :=
  match cache c !! k with
  | Some existingNode =>
      let h := alter (set_lastAccessed now) existingNode (heap c) in
      with_heap c (moveToFront (head c) h existingNode)
  | None =>
      let newNode : ptr := fresh (dom (heap c)) in
      let h := <[newNode := mkNode k v now None None]> (heap c) in
      let c1 :=
        mkCache (<[k := newNode]> (cache c)) (maxSize c) (ttl c) (head c)
          (tail c) (addToFront (head c) h newNode) in
      if Z.of_nat (size (cache c1)) >? maxSize c1
      then evictLeastRecentlyUsed c1 else c1
  end.

(** [has(key)] *)
Definition has (c : t) (k : string) (now : Z) : bool * t :=
  match cache c !! k with
  | None => (false, c)
  | Some node =>
      match heap c !! node with
      | None => (false, c)
      | Some n =>
          if ttl_exceeded (ttl c) now (lastAccessed n) then
            (false,
             mkCache (delete k (cache c)) (maxSize c) (ttl c) (head c) (tail c)
               (removeNode (heap c) node))
          else (true, c)
      end
  end.

(** [delete(key)] *)
Definition delete_ (c : t) (k : string) : bool * t :=
  match cache c !! k with
  | None => (false, c)
  | Some node =>
      (true,
       mkCache (delete k (cache c)) (maxSize c) (ttl c) (head c) (tail c)
         (removeNode (heap c) node))
  end.

(** [clear()] *)
Definition clear (c : t) : t :=
  let h1 := alter (set_next (Some (tail c))) (head c) (heap c) in
  let h2 := alter (set_prev (Some (head c))) (tail c) h1 in
  mkCache ∅ (maxSize c) (ttl c) (head c) (tail c) h2.

(** [size()] *)
Definition size_ (c : t) : Z := Z.of_nat (size (cache c)).

(** [getStats()]: [size] and [maxSize]. *)
Definition getStats (c : t) : Z * Z := (size_ c, maxSize c).

End LRUCache.

(** ** [src/utils/cache.ts], second class: a [Map] of time-stamped entries *)

Module LRUCacheMap.

(** [CacheEntry] of [src/types/index.ts]. *)
Record CacheEntry : Type := mkEntry {
  value : string;
  lastAccessed : Z;
  created : Z
}.

(** A [Map] iterates in insertion order: an association list, oldest
    insertion first, one pair per key. This constructor checks nothing. *)
Record t : Type := mkCache {
  cache : list (string * CacheEntry);
  maxSize : number;
  ttl : option number
}.

Definition constructor (options : CacheOptions) : t :=
  mkCache [] (opt_maxSize options) (opt_ttl options).

Fixpoint map_get (m : list (string * CacheEntry)) (k : string)
    : option CacheEntry :=
  match m with
  | [] => None
  | (k', e) :: m' => if String.eqb k' k then Some e else map_get m' k
  end.

Fixpoint map_delete (m : list (string * CacheEntry)) (k : string)
    : list (string * CacheEntry) :=
  match m with
  | [] => []
  | (k', e) :: m' =>
      if String.eqb k' k then map_delete m' k else (k', e) :: map_delete m' k
  end.

(** Assignment to the fields of the entry object stored under [k]. *)
Fixpoint map_update (m : list (string * CacheEntry)) (k : string)
    (f : CacheEntry -> CacheEntry) : list (string * CacheEntry) :=
  match m with
  | [] => []
  | (k', e) :: m' =>
      if String.eqb k' k then (k', f e) :: m'
      else (k', e) :: map_update m' k f
  end.

Definition get (c : t) (k : string) (now : Z) : option string * t :=
  match map_get (cache c) k with
  | None => (None, c)
  | Some entry =>
      if ttl_exceeded (ttl c) now (created entry) then
        (None, mkCache (map_delete (cache c) k) (maxSize c) (ttl c))
      else
        (Some (value entry),
         mkCache
           (map_update (cache c) k
              (fun e => mkEntry (value e) now (created e)))
           (maxSize c) (ttl c))
  end.

(** The scan of [evictLeastRecentlyUsed]: [oldestTime] starts at [Infinity]
    ([None]) and [oldestKey] at the empty string. *)
Fixpoint oldest (m : list (string * CacheEntry)) (oldestKey : string)
    (oldestTime : option Z) : string :=
  match m with
  | [] => oldestKey
  | (k, e) :: m' =>
      if match oldestTime with
         | None => true
         | Some t => lastAccessed e <? t
         end
      then oldest m' k (Some (lastAccessed e))
      else oldest m' oldestKey oldestTime
  end.

Definition evictLeastRecentlyUsed (c : t) : t :=
  let oldestKey := oldest (cache c) "" None in
  if truthy oldestKey
  then mkCache (map_delete (cache c) oldestKey) (maxSize c) (ttl c)
  else c.

Definition set (c : t) (k v : string) (now : Z) : t :=
  match map_get (cache c) k with
  | Some _ =>
      mkCache (map_update (cache c) k (fun _ => mkEntry v now now))
        (maxSize c) (ttl c)
  | None =>
      let c1 :=
        mkCache (cache c ++ [(k, mkEntry v now now)]) (maxSize c) (ttl c) in
      if Z_gt_number (Z.of_nat (length (cache c1))) (maxSize c1)
      then evictLeastRecentlyUsed c1 else c1
  end.

Definition has (c : t) (k : string) (now : Z) : bool * t :=
  match map_get (cache c) k with
  | None => (false, c)
  | Some entry =>
      if ttl_exceeded (ttl c) now (created entry) then
        (false, mkCache (map_delete (cache c) k) (maxSize c) (ttl c))
      else (true, c)
  end.

Definition size_ (c : t) : Z := Z.of_nat (length (cache c)).

End LRUCacheMap.

(** ** [src/utils/crypto.ts]: base64 *)

Module Base64.

Definition alphabet : string :=
  "ABCDEFGHIJKLMNOPQRSTUVWXYZabcdefghijklmnopqrstuvwxyz0123456789+/".

(** The six-bit value of a base64 character. *)
Definition sextet (c : ascii) : option Z :=
  let n := code c in
  if (65 <=? n) && (n <=? 90) then Some (n - 65)
  else if (97 <=? n) && (n <=? 122) then Some (n - 71)
  else if (48 <=? n) && (n <=? 57) then Some (n + 4)
  else if n =? 43 then Some 62
  else if n =? 47 then Some 63
  else None.

Definition digit (v : Z) : ascii :=
  match String.get (Z.to_nat v) alphabet with
  | Some c => c
  | None => "="%char
  end.

(** ASCII white space, removed by [atob] before decoding. *)
Definition is_ascii_whitespace (c : ascii) : bool :=
  let n := code c in
  (n =? 9) || (n =? 10) || (n =? 12) || (n =? 13) || (n =? 32).

Fixpoint remove_whitespace (s : string) : string :=
  match s with
  | EmptyString => EmptyString
  | String c s' =>
      if is_ascii_whitespace c then remove_whitespace s'
      else String c (remove_whitespace s')
  end.

(** Drops one or two trailing [=] of a string whose length is a multiple
    of four. *)
Definition strip_padding (s : string) : string :=
  if (Z.of_nat (String.length s) mod 4 =? 0) then
    match rev (list_ascii_of_string s) with
    | "="%char :: "="%char :: r => string_of_list_ascii (rev r)
    | "="%char :: r => string_of_list_ascii (rev r)
    | _ => s
    end
  else s.

Fixpoint sextets (s : string) : option (list Z) :=
  match s with
  | EmptyString => Some []
  | String c s' =>
      match sextet c, sextets s' with
      | Some v, Some vs => Some (v :: vs)
      | _, _ => None
      end
  end.

(** Four sextets give three bytes; two left over give one byte and three
    give two, the spare low bits being dropped. *)
Fixpoint decode_sextets (l : list Z) : list Z :=
  match l with
  | a :: b :: c :: d :: r =>
      (a * 4 + b / 16) :: ((b mod 16) * 16 + c / 4) :: ((c mod 4) * 64 + d)
        :: decode_sextets r
  | [a; b; c] => [a * 4 + b / 16; (b mod 16) * 16 + c / 4]
  | [a; b] => [a * 4 + b / 16]
  | _ => []
  end.

Definition not_correctly_encoded : string :=
  "The string to be decoded is not correctly encoded.".

(** [atob]: the decoded bytes, one per character of the binary string it
    returns. It throws a [DOMException], which is an [Error]. *)
Definition atob (s : string) : Exc (list Z) :=
  let s1 := strip_padding (remove_whitespace s) in
  if Z.of_nat (String.length s1) mod 4 =? 1
  then throw_error not_correctly_encoded
  else match sextets s1 with
       | None => throw_error not_correctly_encoded
       | Some vs => Ok (decode_sextets vs)
       end.

(** [btoa] of the binary string whose characters are the given bytes. *)
Fixpoint btoa (bytes : list Z) : string :=
  match bytes with
  | a :: b :: c :: r =>
      String (digit (a / 4))
        (String (digit ((a mod 4) * 16 + b / 16))
           (String (digit ((b mod 16) * 4 + c / 64))
              (String (digit (c mod 64)) (btoa r))))
  | [a; b] =>
      String (digit (a / 4))
        (String (digit ((a mod 4) * 16 + b / 16))
           (String (digit ((b mod 16) * 4)) "="))
  | [a] =>
      String (digit (a / 4)) (String (digit ((a mod 4) * 16)) "==")
  | [] => EmptyString
  end.

(** [str.replace(/-/g, '+').replace(/_/g, '/')] *)
Fixpoint url_to_standard (s : string) : string :=
  match s with
  | EmptyString => EmptyString
  | String c s' =>
      String (if Ascii.eqb c "-" then "+"%char
              else if Ascii.eqb c "_" then "/"%char else c)
        (url_to_standard s')
  end.

(** ['='.repeat((4 - (str.length % 4)) % 4)] *)
Definition padding (s : string) : string :=
  match (4 - Z.of_nat (String.length s) mod 4) mod 4 with
  | 1 => "="
  | 2 => "=="
  | 3 => "==="
  | _ => ""
  end.

(** [base64urlToArrayBuffer(base64url)] *)
Definition base64urlToArrayBuffer (base64url : string) : Exc (list Z) :=
  atob (url_to_standard base64url +:+ padding base64url).

(** [base64urlDecode(str)]: the binary string, one character per byte. *)
Definition base64urlDecode (str : string) : Exc string :=
  let! bytes := atob (url_to_standard str +:+ padding str) in
  Ok (string_of_list_ascii (List.map of_code bytes)).

(** [arrayBufferToBase64(buffer)] *)
Definition arrayBufferToBase64 (buffer : list Z) : string := btoa buffer.

End Base64.

(** ** [src/constants.ts] *)

(** Modelled from the spec: the constants module is not part of the sources
    at hand. The specification fixes three attempts, one hundred
    milliseconds apart; the PEM markers are those of the documentation of
    [jwkToPem] and of the tests. *)
Definition jwksMaxAttempts : nat := 3.
Definition jwksRetryDelayMs : Z := 100.
Definition pemHeader : string := "-----BEGIN PUBLIC KEY-----".
Definition pemFooter : string := "-----END PUBLIC KEY-----".

(** ** [src/jwks-client.ts] *)

Module JWKSClient.

Import Base64.

(** [ToInt32], applied by the bit operators to their operands. *)
Definition toInt32 (z : Z) : Z := (z + 2 ^ 31) mod 2 ^ 32 - 2 ^ 31.

(** Storing into a [Uint8Array] keeps the low eight bits. *)
Definition uint8 (z : Z) : Z := z mod 256.

(** The loop of [encodeLength]:
    [while (temp > 0) { bytes.unshift(temp & 0xff); temp >>= 8; }].
    After one turn [temp] is below [2 ^ 23], so four turns always reach the
    exit ([encodeLength_loop_fuel] below). *)
Fixpoint encodeLength_loop (fuel : nat) (temp : Z) (bytes : list Z) : list Z :=
  match fuel with
  | O => bytes
  | S fuel' =>
      if temp >? 0 then
        encodeLength_loop fuel' (Z.shiftr (toInt32 temp) 8)
          (Z.land (toInt32 temp) 255 :: bytes)
      else bytes
  end.

(** [encodeLength(length)] *)
Definition encodeLength (length : Z) : list Z :=
  if length <? 128 then [uint8 length]
  else
    let bytes := encodeLength_loop 4 length [] in
    uint8 (Z.lor 128 (Z.of_nat (List.length bytes))) :: bytes.

(** [bytes[0] >= 0x80]; reading past the end gives [undefined], for which
    the comparison is false. *)
Definition needsPadding (bytes : list Z) : bool :=
  match bytes with
  | b :: _ => 128 <=? b
  | [] => false
  end.

(** [encodeInteger(bytes)] *)
Definition encodeInteger (bytes : list Z) : list Z :=
  let paddedBytes := if needsPadding bytes then 0 :: bytes else bytes in
  let length := encodeLength (Z.of_nat (List.length paddedBytes)) in
  2 :: length ++ paddedBytes.

Definition rsaOID : list Z :=
  [48; 13; 6; 9; 42; 134; 72; 134; 247; 13; 1; 1; 1; 5; 0].

(** [createRSAPublicKeyDER(n, e)] *)
Definition createRSAPublicKeyDER (n e : list Z) : list Z :=
  let nInteger := encodeInteger n in
  let eInteger := encodeInteger e in
  let sequence := nInteger ++ eInteger in
  let sequenceLength := encodeLength (Z.of_nat (List.length sequence)) in
  let rsaSequence := 48 :: sequenceLength ++ sequence in
  let bitStringLength :=
    encodeLength (Z.of_nat (List.length rsaSequence) + 1) in
  let bitString := 3 :: bitStringLength ++ 0 :: rsaSequence in
  let finalSequence := rsaOID ++ bitString in
  let finalLength := encodeLength (Z.of_nat (List.length finalSequence)) in
  48 :: finalLength ++ finalSequence.

Definition newline : string := String (ascii_of_nat 10) EmptyString.

(** [s.match(/.{1,64}/g)?.join('\n')] on a string without line terminators:
    a line feed before every character that would be the 65th of its line.
    [room] counts the characters the current line can still take. *)
Fixpoint wrap_lines (room : nat) (s : string) : string :=
  match s with
  | EmptyString => EmptyString
  | String c s' =>
      match room with
      | O => String (ascii_of_nat 10) (String c (wrap_lines 63 s'))
      | S room' => String c (wrap_lines room' s')
      end
  end.

(** [JWKSKey] of [src/types/index.ts], the fields the client reads. *)
Record JWKSKey : Type := mkJWKSKey {
  kty : string;
  kid : string;
  n : option string;
  e : option string
}.

(** [!jwk.n]: absent or empty *)
Definition present (field : option string) : option string :=
  match field with
  | Some s => if truthy s then Some s else None
  | None => None
  end.

(** [jwkToPem(jwk)] *)
Definition jwkToPem (jwk : JWKSKey) : Exc string :=
  match present (n jwk), present (e jwk) with
  | Some jwk_n, Some jwk_e =>
      let! nBuffer := base64urlToArrayBuffer jwk_n in
      let keyBitLength := Z.of_nat (List.length nBuffer) * 8 in
      if keyBitLength <? 2048 then
        throw_error ("RSA key too weak: " +:+ pretty keyBitLength
                     +:+ " bits. 2048 bits minimum required.")
      else
        let! eBuffer := base64urlToArrayBuffer jwk_e in
        let derBytes := createRSAPublicKeyDER nBuffer eBuffer in
        let base64Der := arrayBufferToBase64 derBytes in
        if negb (truthy base64Der) then throw_error "Failed to format PEM body"
        else
          Ok (pemHeader +:+ newline +:+ wrap_lines 64 base64Der +:+ newline
              +:+ pemFooter)
  | _, _ => throw_error "Invalid JWK: missing n or e parameters"
  end.

(** What one call of [fetch(this.jwksUri)] does: it rejects, or resolves to
    a response whose [json()] gives the key set, [None] when the body has no
    [keys] array, or throws. *)
Inductive fetch_outcome : Type :=
  | Rejected (error : thrown)
  | Responded (ok : bool) (status : Z) (statusText : string)
      (json : Exc (option (list JWKSKey))).

(** The network: the outcome of the [i]-th call of [fetch] ever made. *)
Definition network : Type := nat -> fetch_outcome.

(** The body of the [try] block of one attempt. *)
Definition attempt_fetch (outcome : fetch_outcome)
    : Exc (option (list JWKSKey)) :=
  match outcome with
  | Rejected error => Throw error
  | Responded ok status statusText json =>
      if negb ok then
        throw_error ("HTTP " +:+ pretty status +:+ ": " +:+ statusText)
      else json
  end.

(** [fetchJwksWithRetry()], with [remaining] attempts to go and [calls]
    calls of [fetch] made so far; returns the new number of calls. *)
Fixpoint fetchJwksWithRetry_from (net : network) (remaining calls : nat)
    : Exc (option (list JWKSKey)) * nat :=
  match remaining with
  | O => (throw_error "Unexpected error in JWKS fetch retry logic", calls)
  | S remaining' =>
      match attempt_fetch (net calls) with
      | Ok jwks => (Ok jwks, S calls)
      | Throw error =>
          match remaining' with
          | O =>
              (throw_error
                 ("Failed to fetch JWKS after " +:+ pretty jwksMaxAttempts
                  +:+ " attempts: " +:+ message_or error "Unknown error"),
               S calls)
          | S _ => fetchJwksWithRetry_from net remaining' (S calls)
          end
      end
  end.

Definition fetchJwksWithRetry (net : network) (calls : nat)
    : Exc (option (list JWKSKey)) * nat :=
  fetchJwksWithRetry_from net jwksMaxAttempts calls.

(** [JWKSClientConfig] and the client: its cache, its endpoint. *)
Record JWKSClientConfig : Type := mkConfig {
  cfg_jwksUri : option string;
  cfg_cacheMaxSize : option number;
  cfg_cacheTtl : option number
}.

Record t : Type := mkClient {
  cache : LRUCache.t;
  jwksUri : string
}.

Definition constructor (config : JWKSClientConfig) : Exc t :=
  match cfg_jwksUri config with
  | Some uri =>
      if negb (truthy (trim uri)) then
        throw_error "A valid JWKS URI is required."
      else
        let! c := LRUCache.constructor
                    (mkCacheOptions
                       (match cfg_cacheMaxSize config with
                        | Some m => m
                        | None => Int 20
                        end)
                       (cfg_cacheTtl config)) in
        Ok (mkClient c uri)
  | None => throw_error "A valid JWKS URI is required."
  end.

(** The part of [getSigningKey] after the fetch: find, check, convert. *)
Definition selectKey (jwks : option (list JWKSKey)) (kid_ : string)
    : Exc string :=
  match jwks with
  | None =>
      throw_error "Cannot read properties of undefined (reading 'find')"
  | Some keys =>
      match List.find (fun k => String.eqb (kid k) kid_) keys with
      | None =>
          throw_error
            ("Unable to find a signing key that matches '" +:+ kid_ +:+ "'")
      | Some jwk =>
          if negb (String.eqb (kty jwk) "RSA")
          then throw_error "Only RSA keys are supported"
          else jwkToPem jwk
      end
  end.

(** [getSigningKey(kid)]. The clock is read at the cache lookup ([t_get])
    and, after the fetch, at the cache update ([t_set]). Returns the result,
    the client afterwards, and the number of [fetch] calls made so far. *)
Definition getSigningKey (net : network) (c : t) (calls : nat)
    (kid_ : string) (t_get t_set : Z) : Exc string * t * nat :=
  let (cachedKey, cache1) := LRUCache.get (cache c) kid_ t_get in
  let c1 := mkClient cache1 (jwksUri c) in
  match present cachedKey with
  | Some key => (Ok key, c1, calls)
  | None =>
      let (fetched, calls') := fetchJwksWithRetry net calls in
      match (let! jwks := fetched in selectKey jwks kid_) with
      | Throw error => (Throw error, c1, calls')
      | Ok publicKey =>
          (Ok publicKey,
           mkClient (LRUCache.set cache1 kid_ publicKey t_set) (jwksUri c),
           calls')
      end
  end.

(** [clear()] and [getCacheStats()] *)
Definition clear (c : t) : t := mkClient (LRUCache.clear (cache c)) (jwksUri c).
Definition getCacheStats (c : t) : Z * Z := LRUCache.getStats (cache c).

End JWKSClient.

(** ** [src/validator.ts] *)

Module Validator.

(** [JWTHeader] and [JWTPayload] of [src/types/index.ts]: the fields the
    validator reads, [None] for an absent one; [alg] is also [None] when it
    is not a string. The other claims travel along in [claims]. *)
Record JWTHeader : Type := mkHeader {
  alg : option string;
  kid : option string
}.

Record JWTPayload : Type := mkPayload {
  iss : option string;
  exp : option Z;
  nbf : option Z;
  claims : list (string * string)
}.

(** [JwtValidationResult]: [payload] and [errorMessage] are optional
    properties. *)
Record JwtValidationResult : Type := mkResult {
  isValid : bool;
  payload : option JWTPayload;
  errorMessage : option string
}.

(** The fields of [WristbandJwtValidatorImpl] that [validate] reads; the
    JWKS client is reached through [getSigningKey] below. *)
Record t : Type := mkValidator {
  issuer : string;
  algorithms : list string
}.

(** The constructor; [jwksClient] tells whether a client was passed. *)
Definition constructor (jwksClient : bool) (issuer_ : option string)
    (algorithms_ : list string) : Exc t :=
  if negb jwksClient then
    throw_error "JWKSClient must be provided to the validator."
  else
    match issuer_ with
    | None => throw_error "A valid issuer must be provided to the validator."
    | Some iss_ =>
        if negb (truthy (trim iss_)) then
          throw_error "A valid issuer must be provided to the validator."
        else
          match algorithms_ with
          | [a] =>
              if String.eqb (toUpperCase a) "RS256"
              then Ok (mkValidator iss_ algorithms_)
              else throw_error "Only the RS256 algorithm is supported."
          | _ => throw_error "Only the RS256 algorithm is supported."
          end
    end.

(** The argument of [extractBearerToken]: [null] or [undefined], one
    string, or an array of strings. *)
Inductive AuthorizationHeader : Type :=
  | Absent
  | Single (value : string)
  | Several (values : list string).

(** [extractBearerToken(authorizationHeader)] *)
Definition extractBearerToken (authorizationHeader : AuthorizationHeader)
    : Exc string :=
  let! headerValue :=
    match authorizationHeader with
    | Absent => throw_error "No authorization header provided"
    | Single value =>
        if negb (truthy value)
        then throw_error "No authorization header provided"
        else Ok value
    | Several [] => throw_error "No authorization header provided"
    | Several [value] => Ok value
    | Several (_ :: _ :: _) =>
        throw_error "Multiple authorization headers not allowed"
    end in
  if negb (truthy (trim headerValue)) then
    throw_error "No authorization header provided"
  else if negb (startsWith headerValue "Bearer ") then
    throw_error
      ("Authorization header must provide " +:+ quote +:+ "Bearer" +:+ quote
       +:+ " token")
  else
    let token := substring_from 7 headerValue in
    if negb (truthy token) then throw_error "No token provided"
    else Ok token.

(** [!header.kid]: absent or empty *)
Definition present_kid (header : JWTHeader) : option string :=
  match kid header with
  | Some s => if truthy s then Some s else None
  | None => None
  end.

Definition invalid (message : string) : JwtValidationResult :=
  mkResult false None (Some message).

(** [`${header.alg}`] *)
Definition show (field : option string) : string :=
  match field with
  | Some s => s
  | None => "undefined"
  end.

Section Validate.

(** The collaborators of [validate]. [JSON.parse] gives [None] for the JSON
    text [null], on which a property read throws a [TypeError]; any other
    value is read through its fields. *)
Variable JSON_parse_header : string -> Exc (option JWTHeader).
Variable JSON_parse_payload : string -> Exc (option JWTPayload).
Variable getSigningKey : string -> Exc string.
Variable verifyRS256Signature : string -> string -> string -> Exc bool.

(** [Date.now()] at the expiry check and at the not-before check. *)
Variable now_exp now_nbf : Z.

Definition read_of_null {A} (property : string) : Exc A :=
  throw_error
    ("Cannot read properties of null (reading '" +:+ property +:+ "')").

(** The body of the outer [try] block. *)
Definition validate_body (v : t) (token : string)
    : Exc JwtValidationResult :=
  if negb (truthy token) then Ok (invalid "No token provided")
  else
    match split "." token with
    | [headerB64; payloadB64; signatureB64] =>
        match
          (let! headerText := Base64.base64urlDecode headerB64 in
           let! header := JSON_parse_header headerText in
           let! payloadText := Base64.base64urlDecode payloadB64 in
           let! payload := JSON_parse_payload payloadText in
           Ok (header, payload))
        with
        | Throw _ => Ok (invalid "Invalid JWT encoding")
        | Ok (header, payload) =>
            let! header :=
              match header with
              | Some h => Ok h
              | None => read_of_null "alg"
              end in
            if negb (validateAlgorithm (alg header) (algorithms v)) then
              Ok (invalid
                    ("Algorithm " +:+ show (alg header)
                     +:+ " not allowed. Expected one of: "
                     +:+ join ", " (algorithms v)))
            else
              let! payload :=
                match payload with
                | Some p => Ok p
                | None => read_of_null "iss"
                end in
              if negb (bool_decide (iss payload = Some (issuer v))) then
                Ok (invalid
                      ("Invalid issuer. Expected " +:+ issuer v +:+ ", got "
                       +:+ show (iss payload)))
              else if
                match exp payload with
                | Some exp_ => negb (exp_ =? 0) && (exp_ * 1000 <=? now_exp)
                | None => false
                end
              then Ok (invalid "Token has expired")
              else if
                match nbf payload with
                | Some nbf_ => negb (nbf_ =? 0) && (now_nbf <? nbf_ * 1000)
                | None => false
                end
              then Ok (invalid "Token not yet valid")
              else
                match present_kid header with
                | None => Ok (invalid "Token header missing kid (key ID)")
                | Some kid_ =>
                    match getSigningKey kid_ with
                    | Throw error =>
                        Ok (invalid
                              ("Failed to get signing key: "
                               +:+ message_or error "Unknown error"))
                    | Ok publicKey =>
                        let! signatureValid :=
                          verifyRS256Signature
                            (headerB64 +:+ "." +:+ payloadB64) signatureB64
                            publicKey in
                        if negb signatureValid
                        then Ok (invalid "Invalid signature")
                        else Ok (mkResult true (Some payload) None)
                    end
                end
        end
    | _ => Ok (invalid "Invalid JWT format")
    end.

(** [validate(token)]: the body inside the outer [try], and its [catch]. *)
Definition validate (v : t) (token : string) : Exc JwtValidationResult :=
  try_catch (validate_body v token)
    (fun error => Ok (invalid (message_or error "Token validation failed"))).

End Validate.

End Validator.

(** * Definitions used to state the properties *)

(** A string of white space only: what [trim] empties. *)
Fixpoint all_space (s : string) : bool :=
  match s with
  | EmptyString => true
  | String c s' => is_space c && all_space s'
  end.

(** ** Words for the properties of the validator *)

Module ValidatorInv.

Import Validator.

(** The header value a well-shaped argument carries. *)
Definition carries (h : AuthorizationHeader) (s : string) : Prop :=
  h = Single s \/ h = Several [s].

(** What [extractBearerToken] does with the one header value. *)
Definition bearer_of (s : string) : Exc string :=
  if negb (truthy (trim s)) then
    throw_error "No authorization header provided"
  else if negb (startsWith s "Bearer ") then
    throw_error
      ("Authorization header must provide " +:+ quote +:+ "Bearer" +:+ quote
       +:+ " token")
  else
    let token := substring_from 7 s in
    if negb (truthy token) then throw_error "No token provided"
    else Ok token.

Definition MultipleHeaders : thrown :=
  ErrorObject "Multiple authorization headers not allowed".


(** Collaborators for the examples: a header and a payload that pass every
    check, a key set that serves any key, and a verification that throws. *)
Definition sample_validator : t := mkValidator "https://issuer" ["RS256"].

End ValidatorInv.

(** ** The invariant of the linked-list cache and its abstract view *)

Module LRUCacheInv.

Import LRUCache.

(** The abstract cache: its entries, most recently used first. *)
Module Model.

Abbreviation entry := (string * string * Z)%type.

Definition has_key (k : string) (e : entry) : bool := String.eqb e.1.1 k.

Definition lookup (es : list entry) (k : string) : option entry :=
  List.find (has_key k) es.

Definition remove (es : list entry) (k : string) : list entry :=
  List.filter (fun e => negb (has_key k e)) es.

Definition get (ttl : option number) (es : list entry) (k : string) (now : Z)
    : option string * list entry :=
  match lookup es k with
  | None => (None, es)
  | Some (_, v, la) =>
      if ttl_exceeded ttl now la then (None, remove es k)
      else (Some v, (k, v, now) :: remove es k)
  end.

Definition set (maxSize : Z) (es : list entry) (k v : string) (now : Z)
    : list entry :=
  match lookup es k with
  | Some (_, v0, _) => (k, v0, now) :: remove es k
  | None =>
      let es' := (k, v, now) :: es in
      if Z.of_nat (length es') >? maxSize then removelast es' else es'
  end.

Definition has (ttl : option number) (es : list entry) (k : string) (now : Z)
    : bool * list entry :=
  match lookup es k with
  | None => (false, es)
  | Some (_, _, la) =>
      if ttl_exceeded ttl now la then (false, remove es k) else (true, es)
  end.

Definition delete (es : list entry) (k : string) : bool * list entry :=
  match lookup es k with
  | None => (false, es)
  | Some _ => (true, remove es k)
  end.

Definition keys (es : list entry) : list string := List.map (fun e => e.1.1) es.

End Model.

Abbreviation entry := (string * string * Z)%type.

(** The abstract content of a node: key, value, time of last access. *)
Definition to_entry (n : LRUNode) : entry := (key n, value n, lastAccessed n).

Global Instance LRUNode_inhabited : Inhabited LRUNode :=
  populate (mkNode "" "" 0 None None).

Definition dat (h : store) (p : ptr) : entry := to_entry (h !!! p).

(** [a] and [b] are neighbours: [a.next === b] and [b.prev === a]. *)
Definition link (h : store) (a b : ptr) : Prop :=
  next_of h a = Some b /\ prev_of h b = Some a.

Fixpoint chain (h : store) (L : list ptr) : Prop :=
  match L with
  | a :: (b :: _) as L' => link h a b /\ chain h L'
  | _ => True
  end.

Definition ents (h : store) (l : list ptr) : list entry := List.map (dat h) l.

(** [l] lists the nodes between the sentinels, most recently used first. *)
Record shape (c : t) (l : list ptr) : Prop := mkShape {
  shape_nodup : NoDup (head c :: l ++ [tail c]);
  shape_chain : chain (heap c) (head c :: l ++ [tail c]);
  shape_index : forall k p,
    cache c !! k = Some p <-> p ∈ l /\ (dat (heap c) p).1.1 = k;
  shape_size : size (cache c) = length l
}.

(** Follows [next] from [p] until [stop], for at most [fuel] nodes. *)
Fixpoint walk (fuel : nat) (h : store) (p stop : ptr) : list ptr :=
  match fuel with
  | O => []
  | S fuel' =>
      if decide (p = stop) then []
      else p :: match next_of h p with
                | Some q => walk fuel' h q stop
                | None => []
                end
  end.

(** The nodes between the sentinels, from [head.next] on; the hash map
    tells how many there are. *)
Definition order (c : t) : list ptr :=
  match next_of (heap c) (head c) with
  | Some p => walk (size (cache c)) (heap c) p (tail c)
  | None => []
  end.

(** The entries of the cache, most recently used first. *)
Definition entries (c : t) : list entry := ents (heap c) (order c).

Definition keys (c : t) : list string := Model.keys (entries c).

(** The invariant of the class. *)
Definition Inv (c : t) : Prop :=
  shape c (order c) /\ Z.of_nat (length (order c)) <= maxSize c
  /\ 1 <= maxSize c.

(** The settings of the cache, which no operation changes. *)
Definition same_config (c c' : t) : Prop :=
  maxSize c' = maxSize c /\ ttl c' = ttl c /\ head c' = head c
  /\ tail c' = tail c.

Inductive call : Type :=
  | CallSet (k v : string)
  | CallGet (k : string)
  | CallHas (k : string)
  | CallDelete (k : string)
  | CallClear.

(** One call, made when the clock shows [now]. *)
Definition step (c : t) (o : call) (now : Z) : t :=
  match o with
  | CallSet k v => set c k v now
  | CallGet k => (get c k now).2
  | CallHas k => (has c k now).2
  | CallDelete k => (delete_ c k).2
  | CallClear => clear c
  end.

Definition run (c : t) (calls : list (call * Z)) : t :=
  fold_left (fun c x => step c x.1 x.2) calls c.

(** The caches a program can hold: constructed, then used. *)
Definition reachable (c : t) : Prop :=
  exists options c0 calls, constructor options = Ok c0 /\ c = run c0 calls.

(** [set] for each triple of key, value and time, in order. *)
Definition set_all (c : t) (sets : list (string * string * Z)) : t :=
  fold_left (fun c x => set c x.1.1 x.1.2 x.2) sets c.

(** [get(k)] at each of the given times; the results, and the cache. *)
Fixpoint get_all (c : t) (k : string) (times : list Z)
    : list (option string) * t :=
  match times with
  | [] => ([], c)
  | now :: times' =>
      let r := get c k now in
      let rs := get_all r.2 k times' in
      (r.1 :: rs.1, rs.2)
  end.

(** No gap between consecutive accesses exceeds the time to live. *)
Fixpoint within_ttl (ttl : option number) (last : Z) (times : list Z) : Prop :=
  match times with
  | [] => True
  | now :: times' =>
      ttl_exceeded ttl now last = false /\ within_ttl ttl now times'
  end.

(** The value a key holds after [set]: the one it had, else the new one. *)
Definition stored (es : list entry) (k v : string) : string :=
  match Model.lookup es k with
  | Some (_, v0, _) => v0
  | None => v
  end.

Definition other_than (k : string) (k' : string) : bool :=
  negb (String.eqb k' k).

(** The cache [new LRUCache({ maxSize, ttl })] builds when it accepts its
    options. *)
Definition empty_cache (maxSize : Z) (ttl : option number) : t :=
  mkCache ∅ maxSize ttl 0%nat 1%nat
    (<[1%nat := mkNode "" "" 0 (Some 0%nat) None]>
       (<[0%nat := mkNode "" "" 0 None (Some 1%nat)]> ∅)).

Definition positive_integer (x : number) : Prop := exists z, x = Int z /\ 0 < z.

End LRUCacheInv.

(** ** A reader of DER, after X.690, to read back what the client wrote *)

Module DER.

(** An octet. *)
Definition is_byte (b : Z) : bool := (0 <=? b) && (b <? 256).

(** The unsigned integer a big-endian byte sequence denotes. *)
Definition be_value (bytes : list Z) : Z :=
  fold_left (fun acc b => acc * 256 + b) bytes 0.

(** The number of bits of that integer: the position of its highest bit
    that is set, counted from one; zero has none. *)
Definition bit_length (bytes : list Z) : Z :=
  let value := be_value bytes in
  if value <=? 0 then 0 else Z.log2 value + 1.

(** The value of the contents of an INTEGER, in two's complement. The
    contents have at least one octet (X.690, 8.3.1). *)
Definition int_value (contents : list Z) : option Z :=
  match contents with
  | [] => None
  | b :: _ =>
      Some (if 128 <=? b
            then be_value contents - 256 ^ Z.of_nat (length contents)
            else be_value contents)
  end.

(** A length field (X.690, 8.1.3 and 10.1): the short form, or the long
    form with the least number of length octets. The indefinite form, the
    reserved first octet 0xFF and anything that is not an octet are
    refused. Returns the length and the bytes after the field. *)
Definition read_length (bytes : list Z) : option (Z * list Z) :=
  match bytes with
  | [] => None
  | b :: rest =>
      if negb (is_byte b) then None
      else if b <? 128 then Some (b, rest)
      else if b =? 255 then None
      else
        let k := Z.to_nat (b - 128) in
        let field := take k rest in
        if (k =? 0)%nat || (length rest <? k)%nat then None
        else if negb (forallb is_byte field) then None
        else if (List.hd 0 field =? 0) || (be_value field <? 128) then None
        else Some (be_value field, drop k rest)
  end.

(** One tag-length-value element with the expected tag: its contents,
    which are octets, and the bytes after it. *)
Definition read_tlv (tag : Z) (bytes : list Z) : option (list Z * list Z) :=
  match bytes with
  | [] => None
  | t :: rest =>
      if t =? tag then
        match read_length rest with
        | Some (len, rest') =>
            if Z.of_nat (length rest') <? len then None
            else
              let contents := take (Z.to_nat len) rest' in
              if negb (forallb is_byte contents) then None
              else Some (contents, drop (Z.to_nat len) rest')
        | None => None
        end
      else None
  end.

(** The contents of the AlgorithmIdentifier of rsaEncryption: the object
    identifier 1.2.840.113549.1.1.1 and NULL parameters. *)
Definition rsaEncryption : list Z :=
  [6; 9; 42; 134; 72; 134; 247; 13; 1; 1; 1; 5; 0].

(** SubjectPublicKeyInfo holding an RSAPublicKey: the contents of its two
    INTEGERs, modulus and exponent. Nothing may follow any of the
    elements. *)
Definition read_integers (bytes : list Z) : option (list Z * list Z) :=
  match read_tlv 48 bytes with
  | Some (info, []) =>
      match read_tlv 48 info with
      | Some (algorithm, rest) =>
          if negb (bool_decide (algorithm = rsaEncryption)) then None
          else
            match read_tlv 3 rest with
            | Some (0 :: key, []) =>
                match read_tlv 48 key with
                | Some (numbers, []) =>
                    match read_tlv 2 numbers with
                    | Some (modulus, rest') =>
                        match read_tlv 2 rest' with
                        | Some (exponent, []) => Some (modulus, exponent)
                        | _ => None
                        end
                    | None => None
                    end
                | _ => None
                end
            | _ => None
            end
      | None => None
      end
  | _ => None
  end.

(** The contents of an INTEGER are not empty, and when they are longer than
    one octet their first nine bits are neither all zero nor all one
    (X.690, 8.3.1 and 8.3.2). *)
Definition minimal_integer (contents : list Z) : bool :=
  match contents with
  | [] => false
  | [_] => true
  | b :: c :: _ =>
      negb ((b =? 0) && (c <? 128)) && negb ((b =? 255) && (128 <=? c))
  end.

Definition both {A B} (a : option A) (b : option B) : option (A * B) :=
  match a, b with
  | Some x, Some y => Some (x, y)
  | _, _ => None
  end.

(** The reader of DER: the two INTEGERs have minimal contents. *)
Definition read_spki_strict (bytes : list Z) : option (Z * Z) :=
  match read_integers bytes with
  | Some (modulus, exponent) =>
      if minimal_integer modulus && minimal_integer exponent
      then both (int_value modulus) (int_value exponent)
      else None
  | None => None
  end.

(** A tolerant reader, which differs from the reader of DER in one point:
    it takes an INTEGER with redundant leading octets; one without any
    octet it refuses as well. *)
Definition read_spki (bytes : list Z) : option (Z * Z) :=
  match read_integers bytes with
  | Some (modulus, exponent) => both (int_value modulus) (int_value exponent)
  | None => None
  end.

End DER.

(** ** Words for the properties of the JWKS client *)

Module JWKSClientInv.

Import JWKSClient LRUCacheInv.

Definition padded (bytes : list Z) : list Z :=
  if needsPadding bytes then 0 :: bytes else bytes.

(** An unsigned integer in its shortest form: at least one byte, and no
    zero byte in front of others. *)
Definition canonical (bytes : list Z) : bool :=
  match bytes with
  | [] => false
  | [_] => true
  | b :: _ => negb (b =? 0)
  end.

Definition weak_key_message (bits : Z) : string :=
  "RSA key too weak: " +:+ pretty bits +:+ " bits. 2048 bits minimum required.".

(** The PEM text [jwkToPem] builds from the decoded modulus and exponent. *)
Definition pem_of (nBuffer eBuffer : list Z) : string :=
  pemHeader +:+ newline
  +:+ wrap_lines 64 (Base64.btoa (createRSAPublicKeyDER nBuffer eBuffer))
  +:+ newline +:+ pemFooter.

(** [s.replace(/\+/g, '-').replace(/\//g, '_').replace(/=/g, '')], by which
    the tests turn the output of [btoa] into base64url. *)
Fixpoint standard_to_url (s : string) : string :=
  match s with
  | EmptyString => EmptyString
  | String c s' =>
      if Ascii.eqb c "=" then standard_to_url s'
      else
        String (if Ascii.eqb c "+" then "-"%char
                else if Ascii.eqb c "/" then "_"%char else c)
          (standard_to_url s')
  end.

(** The keys of the tests: 128 and 256 bytes of [0x41] behind a zero
    byte, and the exponent 65537. *)
Definition test_modulus (bytes : nat) : list Z := 0 :: repeat 65 (bytes - 1).
Definition test_jwk (kid_ : string) (bytes : nat) : JWKSKey :=
  mkJWKSKey "RSA" kid_
    (Some (standard_to_url (Base64.btoa (test_modulus bytes)))) (Some "AQAB").

(** A key with the given modulus and the exponent 65537, and the modulus 1
    written on 256 bytes. *)
Definition jwk_of (kid_ : string) (modulus : list Z) : JWKSKey :=
  mkJWKSKey "RSA" kid_
    (Some (standard_to_url (Base64.btoa modulus))) (Some "AQAB").
Definition padded_one : list Z := repeat 0 255 ++ [1].

(** Every cached value is a non-empty string. *)
Definition values_nonempty (es : list entry) : Prop :=
  Forall (fun e => e.1.2 <> "") es.

Definition client_ok (c : JWKSClient.t) : Prop :=
  Inv (cache c) /\ values_nonempty (entries (cache c)).

(** The clients a program can hold. *)
Inductive reachable : JWKSClient.t -> Prop :=
  | reachable_new config c :
      constructor config = Ok c -> reachable c
  | reachable_getSigningKey net c calls kid_ t_get t_set :
      reachable c ->
      reachable (getSigningKey net c calls kid_ t_get t_set).1.2
  | reachable_clear c :
      reachable c -> reachable (clear c).

(** Calls of [getSigningKey] one after the other: for each of them the
    network it meets, the identifier asked for and the two readings of the
    clock. Returns the client afterwards and the number of [fetch] calls
    made so far. *)
Abbreviation lookup_call := (network * string * Z * Z)%type.

Definition asked (op : lookup_call) : string := op.1.1.2.

Definition lookups (c : JWKSClient.t) (calls : nat) (ops : list lookup_call)
    : JWKSClient.t * nat :=
  fold_left
    (fun s op =>
       let r := getSigningKey op.1.1.1 s.1 s.2 (asked op) op.1.2 op.2 in
       (r.1.2, r.2))
    ops (c, calls).

(** The strings of a list, each once. *)
Fixpoint distinct (ks : list string) : list string :=
  match ks with
  | [] => []
  | k :: ks' =>
      if existsb (String.eqb k) ks' then distinct ks' else k :: distinct ks'
  end.

(** The cache holds [key] for [kid_], last touched at [la], and every entry
    in front of it belongs to one of the identifiers [seen]. *)
Definition kept (es : list entry) (kid_ key : string) (la : Z)
    (seen : list string) : Prop :=
  exists front back,
    es = front ++ (kid_, key, la) :: back
    /\ Forall (fun e => e.1.1 ∈ seen) front.

(** A network that serves the key set of the tests, and one that is down. *)
Definition net_up : network :=
  fun _ => Responded true 200 "OK" (Ok (Some [test_jwk "test-key-id" 256])).
Definition net_down : network :=
  fun _ => Rejected (ErrorObject "Network error").

Definition test_client (ttl_ : option number) : JWKSClient.t :=
  mkClient (LRUCacheInv.empty_cache 20 ttl_) "https://issuer/jwks".

End JWKSClientInv.

(** ** [src/utils/cache.ts], second class: the remaining methods *)

Module LRUCacheMapOps.

Import LRUCacheMap.

(** [delete(key)]: what [Map.prototype.delete] answers. *)
Definition delete_ (c : t) (k : string) : bool * t :=
  (match map_get (cache c) k with Some _ => true | None => false end,
   mkCache (map_delete (cache c) k) (maxSize c) (ttl c)).

(** [clear()] *)
Definition clear (c : t) : t := mkCache [] (maxSize c) (ttl c).

(** [getStats()]: [size] and [maxSize]. *)
Definition getStats (c : t) : Z * number := (size_ c, maxSize c).

(** One call, made when the clock shows [now]. *)
Definition step (c : t) (o : LRUCacheInv.call) (now : Z) : t :=
  match o with
  | LRUCacheInv.CallSet k v => set c k v now
  | LRUCacheInv.CallGet k => (get c k now).2
  | LRUCacheInv.CallHas k => (has c k now).2
  | LRUCacheInv.CallDelete k => (delete_ c k).2
  | LRUCacheInv.CallClear => clear c
  end.

Definition run (c : t) (calls : list (LRUCacheInv.call * Z)) : t :=
  fold_left (fun c x => step c x.1 x.2) calls c.

(** [set] for each triple of key, value and time, in order. *)
Definition set_all (c : t) (sets : list (string * string * Z)) : t :=
  fold_left (fun c x => set c x.1.1 x.1.2 x.2) sets c.

(** The key a call stores, if it stores one, is not the empty string. *)
Definition stores_named_key (o : LRUCacheInv.call) : Prop :=
  match o with
  | LRUCacheInv.CallSet k _ => k <> ""
  | _ => True
  end.

Definition keys (c : t) : list string := List.map fst (cache c).

(** No key of the map is the empty string. *)
Definition named (m : list (string * CacheEntry)) : Prop :=
  Forall (fun x => x.1 <> "") m.

(** The entry [set] stores for a new key. *)
Definition new_entry (x : string * string * Z) : string * CacheEntry :=
  (x.1.1, mkEntry x.1.2 x.2 x.2).

End LRUCacheMapOps.

(** ** Words for the properties of the base64 functions *)

Module Base64Inv.

Import Base64.

(** A value a [Uint8Array] holds. *)
Definition byte (b : Z) : Prop := 0 <= b < 256.

(** The six-bit values [btoa] writes for a sequence of bytes. *)
Fixpoint encode_sextets (bytes : list Z) : list Z :=
  match bytes with
  | a :: b :: c :: r =>
      a / 4 :: (a mod 4) * 16 + b / 16 :: (b mod 16) * 4 + c / 64 :: c mod 64
        :: encode_sextets r
  | [a; b] => [a / 4; (a mod 4) * 16 + b / 16; (b mod 16) * 4]
  | [a] => [a / 4; (a mod 4) * 16]
  | [] => []
  end.

(** The [=] signs [btoa] ends with. *)
Fixpoint pad_chars (bytes : list Z) : list ascii :=
  match bytes with
  | _ :: _ :: _ :: r => pad_chars r
  | [_; _] => ["="%char]
  | [_] => ["="%char; "="%char]
  | [] => []
  end.

(** What [replace(/-/g, '+').replace(/_/g, '/')] does to one character,
    and the way back. *)
Definition to_standard (c : ascii) : ascii :=
  if Ascii.eqb c "-" then "+"%char
  else if Ascii.eqb c "_" then "/"%char else c.

Definition to_url (c : ascii) : ascii :=
  if Ascii.eqb c "+" then "-"%char
  else if Ascii.eqb c "/" then "_"%char else c.

(** A character of the base64url alphabet, or of the standard one. *)
Definition url_char (c : ascii) : Prop := is_Some (sextet (to_standard c)).

Fixpoint all_url_chars (s : string) : Prop :=
  match s with
  | EmptyString => True
  | String c s' => url_char c /\ all_url_chars s'
  end.

(** [c] occurs in [s]. *)
Fixpoint occurs (c : ascii) (s : string) : Prop :=
  match s with
  | EmptyString => False
  | String d s' => c = d \/ occurs c s'
  end.

End Base64Inv.

(** ** [src/utils/crypto.ts]: importing a key and verifying a signature *)

Module Crypto.

Import Base64.

(** [s.includes(p)] *)
Fixpoint includes (s p : string) : bool :=
  String.prefix p s
  || match s with
     | EmptyString => false
     | String _ s' => includes s' p
     end.

(** [s.replace(p, '')] for a string [p]: the first occurrence goes. *)
Fixpoint remove_first (p s : string) : string :=
  if String.prefix p s then substring_from (String.length p) s
  else match s with
       | EmptyString => EmptyString
       | String c s' => String c (remove_first p s')
       end.

(** [s.replace(/\s/g, '')] *)
Fixpoint remove_space (s : string) : string :=
  match s with
  | EmptyString => EmptyString
  | String c s' =>
      if is_space c then remove_space s' else String c (remove_space s')
  end.

(** [new TextEncoder().encode(s)]: UTF-8, one byte for a code unit below
    128 and two for the others below 256. *)
Fixpoint encode (s : string) : list Z :=
  match s with
  | EmptyString => []
  | String c s' =>
      let n := code c in
      (if n <? 128 then [n] else [192 + n / 64; 128 + n mod 64]) ++ encode s'
  end.

Section WebCrypto.

(** The platform: whether [crypto.subtle] is there, and what
    [crypto.subtle.importKey('spki', der, ...)] and
    [crypto.subtle.verify(..., key, signature, data)] do. *)
Variable CryptoKey : Type.
Variable crypto_available : bool.
Variable importKey : list Z -> Exc CryptoKey.
Variable verify : CryptoKey -> list Z -> list Z -> Exc bool.

(** [importRSAPublicKey(pemKey)] *)
Definition importRSAPublicKey (pemKey : string) : Exc CryptoKey :=
  try_catch
    (if negb (includes pemKey pemHeader) || negb (includes pemKey pemFooter)
     then throw_error "Invalid PEM format - missing headers"
     else
       let pemContents :=
         remove_space (remove_first pemFooter (remove_first pemHeader pemKey)) in
       let! derView := atob pemContents in
       importKey derView)
    (fun error =>
       throw_error ("Failed to import RSA public key: "
                    +:+ message_or error "Unknown error")).

(** [verifyRS256Signature(data, signature, publicKeyPem)] *)
Definition verifyRS256Signature (data signature publicKeyPem : string)
    : Exc bool :=
  try_catch
    (if negb (truthy data) || negb (truthy signature)
        || negb (truthy publicKeyPem)
     then Ok false
     else if negb crypto_available then Ok false
     else
       let! signatureBuffer := base64urlToArrayBuffer signature in
       let dataBuffer := encode data in
       let! publicKey := importRSAPublicKey publicKeyPem in
       verify publicKey signatureBuffer dataBuffer)
    (fun _ => Ok false).

End WebCrypto.

(** The lines of a text. *)
Definition lines (s : string) : list string := split (ascii_of_nat 10) s.

(** The characters [btoa] writes. *)
Definition base64_char (c : ascii) : Prop :=
  is_Some (sextet c) \/ c = "="%char.

Fixpoint all_base64_chars (s : string) : Prop :=
  match s with
  | EmptyString => True
  | String c s' => base64_char c /\ all_base64_chars s'
  end.

End Crypto.

(** ** [src/jwks-client.ts] and [src/validator.ts]: the factories *)

Module Factory.

(** [createJwksClient(config)] *)
Definition createJwksClient (config : JWKSClient.JWKSClientConfig)
    : Exc JWKSClient.t :=
  JWKSClient.constructor config.

(** [WristbandJwtValidatorConfig] of [src/types/index.ts]. *)
Record WristbandJwtValidatorConfig : Type := mkValidatorConfig {
  wristbandApplicationVanityDomain : string;
  jwksCacheMaxSize : option number;
  jwksCacheTtl : option number
}.

(** [createWristbandJwtValidator(config)]: the validator, and the JWKS
    client it holds. *)
Definition createWristbandJwtValidator (config : WristbandJwtValidatorConfig)
    : Exc (Validator.t * JWKSClient.t) :=
  let issuer := "https://" +:+ wristbandApplicationVanityDomain config in
  let! jwksClient :=
    createJwksClient
      (JWKSClient.mkConfig
         (Some (issuer +:+ "/api/v1/oauth2/jwks"))
         (Some (match jwksCacheMaxSize config with
                | Some m => m
                | None => Int 20
                end))
         (jwksCacheTtl config)) in
  let! validator := Validator.constructor true (Some issuer) ["RS256"] in
  Ok (validator, jwksClient).

End Factory.

(** ** Words for the properties of [validate] *)

Module ValidateInv.

Import Validator.

(** The expiry check lets the payload pass at the time [now]:
    [!(payload.exp && now >= payload.exp * 1000)]. *)
Definition not_expired (p : JWTPayload) (now : Z) : Prop :=
  forall exp_, exp p = Some exp_ -> exp_ = 0 \/ now < exp_ * 1000.

(** The not-before check lets the payload pass at the time [now]:
    [!(payload.nbf && now < payload.nbf * 1000)]. *)
Definition already_valid (p : JWTPayload) (now : Z) : Prop :=
  forall nbf_, nbf p = Some nbf_ -> nbf_ = 0 \/ nbf_ * 1000 <= now.

(** What the last two steps answer, given the key lookup and the
    verification. *)
Definition verdict (getSigningKey : string -> Exc string)
    (verifyRS256Signature : string -> string -> string -> Exc bool)
    (kid_ signed signatureB64 : string) (p : JWTPayload)
    : JwtValidationResult :=
  match getSigningKey kid_ with
  | Throw error =>
      invalid ("Failed to get signing key: "
               +:+ message_or error "Unknown error")
  | Ok publicKey =>
      match verifyRS256Signature signed signatureB64 publicKey with
      | Throw error => invalid (message_or error "Token validation failed")
      | Ok false => invalid "Invalid signature"
      | Ok true => mkResult true (Some p) None
      end
  end.

(** Every code unit is below 128. *)
Fixpoint ascii_only (s : string) : Prop :=
  match s with
  | EmptyString => True
  | String c s' => code c < 128 /\ ascii_only s'
  end.

(** The token has three parts, header and payload decode and parse, and
    every check before the key lookup lets them pass. *)
Definition passes_checks
    (JSON_parse_header : string -> Exc (option JWTHeader))
    (JSON_parse_payload : string -> Exc (option JWTPayload))
    (now_exp now_nbf : Z) (v : t) (token : string)
    (headerB64 payloadB64 signatureB64 kid_ : string) (p : JWTPayload)
    : Prop :=
  split "." token = [headerB64; payloadB64; signatureB64]
  /\ (exists headerText header payloadText,
        Base64.base64urlDecode headerB64 = Ok headerText
        /\ JSON_parse_header headerText = Ok (Some header)
        /\ Base64.base64urlDecode payloadB64 = Ok payloadText
        /\ JSON_parse_payload payloadText = Ok (Some p)
        /\ validateAlgorithm (alg header) (algorithms v) = true
        /\ kid header = Some kid_)
  /\ iss p = Some (issuer v)
  /\ not_expired p now_exp
  /\ already_valid p now_nbf
  /\ kid_ <> "".

End ValidateInv.

(** ** [src/validator.ts]: [validate] on whatever [JSON.parse] returns *)

Module ValidateJson.

(** A value [JSON.parse] returns. A finite number is known by its value
    [num / den]; a literal too large for a double is read as an infinity.
    An object lists its own properties, each name once. *)
#[local] Unset Elimination Schemes.

Inductive json : Type :=
  | JNull
  | JBool (b : bool)
  | JNumber (num : Z) (den : positive)
  | JInfinity (negative : bool)
  | JString (s : string)
  | JArray (items : list json)
  | JObject (fields : list (string * json)).

#[local] Set Elimination Schemes.

(** [value.name], for a name that no prototype defines, on a value other
    than [null]: the own property of an object, [undefined] ([None]) on
    anything else. *)
Definition field (value : json) (name : string) : option json :=
  match value with
  | JObject fields =>
      match List.find (fun f => String.eqb f.1 name) fields with
      | Some f => Some f.2
      | None => None
      end
  | _ => None
  end.

(** The same read on any value: on [null] it throws a [TypeError]. *)
Definition read (value : json) (name : string) : Exc (option json) :=
  match value with
  | JNull => Validator.read_of_null name
  | _ => Ok (field value name)
  end.

(** [!!value]: [null], [false], [0] and the empty string are falsy, and so
    is [undefined]. *)
Definition truthy_json (value : json) : bool :=
  match value with
  | JNull => false
  | JBool b => b
  | JNumber num _ => negb (num =? 0)
  | JString s => truthy s
  | JInfinity _ | JArray _ | JObject _ => true
  end.

Definition truthy_value (value : option json) : bool :=
  match value with
  | Some x => truthy_json x
  | None => false
  end.

(** The value when [typeof value === 'string']. *)
Definition as_string (value : option json) : option string :=
  match value with
  | Some (JString s) => Some s
  | _ => None
  end.

(** [now >= x] and [now < x] for a reading of the clock, an integer. *)
Definition Z_ge_number (now : Z) (x : number) : bool :=
  match x with
  | Int y => y <=? now
  | Fractional below => below <? now
  | NaN => false
  | Infinity negative => negative
  end.

Definition Z_lt_number (now : Z) (x : number) : bool :=
  match x with
  | Int y => now <? y
  | Fractional below => now <=? below
  | NaN => false
  | Infinity negative => negb negative
  end.

(** [JwtValidationResult], with the payload as it was parsed. *)
Record JwtValidationResult : Type := mkResult {
  isValid : bool;
  payload : option json;
  errorMessage : option string
}.

Definition invalid (message : string) : JwtValidationResult :=
  mkResult false None (Some message).

Section Validate.

(** The collaborators of [validate]; the key lookup is handed whatever the
    header holds as [kid]. *)
Variable JSON_parse : string -> Exc json.
Variable getSigningKey : json -> Exc string.
Variable verifyRS256Signature : string -> string -> string -> Exc bool.

(** The conversions of the language where they are not spelled out below:
    [String(value)] for a number, an array or an object, and
    [Number(value) * 1000] for a string, an array, an object or a number
    that is not an integer. Both throw a [TypeError] on an object whose own
    [toString] property hides the method. *)
Variable ToString : json -> Exc string.
Variable product_1000 : json -> Exc number.

(** [Date.now()] at the expiry check and at the not-before check. *)
Variable now_exp now_nbf : Z.

(** [`${value}`] *)
Definition template (value : option json) : Exc string :=
  match value with
  | None => Ok "undefined"
  | Some JNull => Ok "null"
  | Some (JBool b) => Ok (if b then "true" else "false")
  | Some (JInfinity negative) => Ok (if negative then "-Infinity" else "Infinity")
  | Some (JString s) => Ok s
  | Some x => ToString x
  end.

(** [value * 1000]. The product of an integer is exact up to 2 ^ 53 and
    rounded beyond, which does not change how it compares with a reading of
    the clock. *)
Definition times_1000 (value : json) : Exc number :=
  match value with
  | JNull => Ok (Int 0)
  | JBool b => Ok (Int (if b then 1000 else 0))
  | JNumber num den =>
      if num mod Z.pos den =? 0 then Ok (Int (num / Z.pos den * 1000))
      else product_1000 value
  | JInfinity negative => Ok (Infinity negative)
  | _ => product_1000 value
  end.

(** [payload.exp && Date.now() >= payload.exp * 1000] *)
Definition expired (exp : option json) : Exc bool :=
  match exp with
  | Some value =>
      if truthy_json value then
        let! ms := times_1000 value in Ok (Z_ge_number now_exp ms)
      else Ok false
  | None => Ok false
  end.

(** [payload.nbf && Date.now() < payload.nbf * 1000] *)
Definition not_yet_valid (nbf : option json) : Exc bool :=
  match nbf with
  | Some value =>
      if truthy_json value then
        let! ms := times_1000 value in Ok (Z_lt_number now_nbf ms)
      else Ok false
  | None => Ok false
  end.

(** The body of the outer [try] block. *)
Definition validate_body (v : Validator.t) (token : string)
    : Exc JwtValidationResult :=
  if negb (truthy token) then Ok (invalid "No token provided")
  else
    match split "." token with
    | [headerB64; payloadB64; signatureB64] =>
        match
          (let! headerText := Base64.base64urlDecode headerB64 in
           let! header := JSON_parse headerText in
           let! payloadText := Base64.base64urlDecode payloadB64 in
           let! payload := JSON_parse payloadText in
           Ok (header, payload))
        with
        | Throw _ => Ok (invalid "Invalid JWT encoding")
        | Ok (header, payload) =>
            let! header_alg := read header "alg" in
            if negb (validateAlgorithm (as_string header_alg)
                       (Validator.algorithms v)) then
              let! shown := template header_alg in
              Ok (invalid
                    ("Algorithm " +:+ shown
                     +:+ " not allowed. Expected one of: "
                     +:+ join ", " (Validator.algorithms v)))
            else
              let! payload_iss := read payload "iss" in
              if negb (bool_decide
                         (as_string payload_iss = Some (Validator.issuer v)))
              then
                let! shown := template payload_iss in
                Ok (invalid
                      ("Invalid issuer. Expected " +:+ Validator.issuer v
                       +:+ ", got " +:+ shown))
              else
                let! is_expired := expired (field payload "exp") in
                if is_expired then Ok (invalid "Token has expired")
                else
                  let! is_early := not_yet_valid (field payload "nbf") in
                  if is_early then Ok (invalid "Token not yet valid")
                  else
                    match field header "kid" with
                    | Some kid_ =>
                        if negb (truthy_json kid_) then
                          Ok (invalid "Token header missing kid (key ID)")
                        else
                          match getSigningKey kid_ with
                          | Throw error =>
                              Ok (invalid
                                    ("Failed to get signing key: "
                                     +:+ message_or error "Unknown error"))
                          | Ok publicKey =>
                              let! signatureValid :=
                                verifyRS256Signature
                                  (headerB64 +:+ "." +:+ payloadB64)
                                  signatureB64 publicKey in
                              if negb signatureValid
                              then Ok (invalid "Invalid signature")
                              else Ok (mkResult true (Some payload) None)
                          end
                    | None => Ok (invalid "Token header missing kid (key ID)")
                    end
        end
    | _ => Ok (invalid "Invalid JWT format")
    end.

(** [validate(token)]: the body inside the outer [try], and its [catch]. *)
Definition validate (v : Validator.t) (token : string)
    : Exc JwtValidationResult :=
  try_catch (validate_body v token)
    (fun error => Ok (invalid (message_or error "Token validation failed"))).

(** The expiry check and the not-before check let the payload pass. *)
Definition unexpired (exp : option json) : Prop :=
  truthy_value exp = false
  \/ exists value ms,
       exp = Some value /\ times_1000 value = Ok ms
       /\ Z_ge_number now_exp ms = false.

Definition started (nbf : option json) : Prop :=
  truthy_value nbf = false
  \/ exists value ms,
       nbf = Some value /\ times_1000 value = Ok ms
       /\ Z_lt_number now_nbf ms = false.

(** Every check before the key lookup passes: the token has three parts,
    header and payload decode and parse, the algorithm is a string on the
    allowlist, the issuer is the expected string, the two time checks let
    the payload pass and the header holds a truthy [kid]. *)
Definition passes_checks (v : Validator.t) (token : string)
    (headerB64 payloadB64 signatureB64 : string) (header payload_ kid_ : json)
    : Prop :=
  split "." token = [headerB64; payloadB64; signatureB64]
  /\ (exists headerText payloadText,
        Base64.base64urlDecode headerB64 = Ok headerText
        /\ JSON_parse headerText = Ok header
        /\ Base64.base64urlDecode payloadB64 = Ok payloadText
        /\ JSON_parse payloadText = Ok payload_)
  /\ (exists alg_,
        field header "alg" = Some (JString alg_)
        /\ validateAlgorithm (Some alg_) (Validator.algorithms v) = true)
  /\ field payload_ "iss" = Some (JString (Validator.issuer v))
  /\ unexpired (field payload_ "exp")
  /\ started (field payload_ "nbf")
  /\ field header "kid" = Some kid_
  /\ truthy_json kid_ = true.

End Validate.

(** A header whose [kid] is the number 5 and a payload whose [exp] is a
    string that is no number, for the token ["aA.cA.c2ln"], whose first two
    parts decode to ["h"] and ["p"]. *)
Definition odd_header : json :=
  JObject [("alg", JString "RS256"); ("kid", JNumber 5 1)].
Definition odd_payload : json :=
  JObject [("iss", JString "https://issuer"); ("exp", JString "soon")].
Definition odd_parse (text : string) : Exc json :=
  Ok (if String.eqb text "h" then odd_header else odd_payload).
Definition no_number (_ : json) : Exc number := Ok NaN.
Definition no_string (_ : json) : Exc string := Ok "".

End ValidateJson.

(** * Properties *)

(** ** Strings and the algorithm allowlist *)

Module StringFacts.

(** *** Strings *)

Lemma truthy_trim_end s : truthy (trim_end s) = negb (all_space s).
Proof.
  induction s as [|c s IH]; simpl; [done|].
  destruct (trim_end s) eqn:E; simpl in *.
  - destruct (all_space s); [|done]. destruct (is_space c); done.
  - destruct (all_space s); [done|]. by rewrite andb_false_r.
Qed.

Lemma all_space_trim_start s : all_space (trim_start s) = all_space s.
Proof.
  induction s as [|c s IH]; simpl; [done|].
  destruct (is_space c) eqn:E; simpl; [done|]. by rewrite E.
Qed.

Lemma truthy_trim s : truthy (trim s) = negb (all_space s).
Proof. unfold trim. by rewrite truthy_trim_end, all_space_trim_start. Qed.

Lemma is_space_lower_char c : is_space (lower_char c) = is_space c.
Proof. destruct c as [[] [] [] [] [] [] [] []]; reflexivity. Qed.

Lemma lower_char_idem c : lower_char (lower_char c) = lower_char c.
Proof. destruct c as [[] [] [] [] [] [] [] []]; reflexivity. Qed.

Lemma all_space_toLowerCase s : all_space (toLowerCase s) = all_space s.
Proof.
  induction s as [|c s IH]; simpl; [done|].
  by rewrite is_space_lower_char, IH.
Qed.

Lemma toLowerCase_idem s : toLowerCase (toLowerCase s) = toLowerCase s.
Proof.
  induction s as [|c s IH]; simpl; [done|]. by rewrite lower_char_idem, IH.
Qed.

Lemma truthy_trim_toLowerCase s :
  truthy (trim (toLowerCase s)) = truthy (trim s).
Proof. by rewrite !truthy_trim, all_space_toLowerCase. Qed.

(** The allowlist after normalisation, as a membership test. *)
Lemma existsb_normalized a allowed :
  existsb (String.eqb a)
    (List.map toLowerCase
       (List.filter (fun alg => truthy (trim alg)) allowed)) = true
  <-> exists b, b ∈ allowed /\ truthy (trim b) = true /\ toLowerCase b = a.
Proof.
  rewrite existsb_exists. split.
  - intros (x & Hin & Heq). apply String.eqb_eq in Heq. subst x.
    apply in_map_iff in Hin as (b & Hb & Hin).
    apply filter_In in Hin as [Hin Ht].
    exists b. by rewrite list_elem_of_In.
  - intros (b & Hin & Ht & Hb). exists a. split; [|apply String.eqb_refl].
    apply in_map_iff. exists b. split; [done|].
    apply filter_In. by rewrite <- list_elem_of_In.
Qed.

Lemma filter_map_toLowerCase allowed :
  List.map toLowerCase
    (List.filter (fun alg => truthy (trim alg)) (List.map toLowerCase allowed))
  = List.map toLowerCase (List.filter (fun alg => truthy (trim alg)) allowed).
Proof.
  induction allowed as [|a l IH]; simpl; [done|].
  rewrite truthy_trim_toLowerCase. destruct (truthy (trim a)); simpl.
  - by rewrite toLowerCase_idem, IH.
  - done.
Qed.

(** Claim C1. [validateAlgorithm] compares without regard to case and
    refuses the algorithm "none" whatever the allowlist holds: an algorithm
    whose lower-case form is "none" is refused; the answer is the same on
    the lower-cased algorithm and allowlist; the check passes exactly for a
    non-blank algorithm, other than "none", that equals a non-blank entry of
    the allowlist up to case; "none" fails even against an allowlist that
    names it, "RS256" passes against ["RS256"] and "HS256" fails. *)
Theorem validateAlgorithm_allowlist (algorithm : string) (allowed : list string) :
  (toLowerCase algorithm = "none" ->
   validateAlgorithm (Some algorithm) allowed = false)
  /\ validateAlgorithm (Some algorithm) allowed
     = validateAlgorithm (Some (toLowerCase algorithm))
         (List.map toLowerCase allowed)
  /\ (validateAlgorithm (Some algorithm) allowed = true <->
      truthy (trim algorithm) = true /\ toLowerCase algorithm <> "none" /\
      exists a, a ∈ allowed /\ truthy (trim a) = true /\
                toLowerCase a = toLowerCase algorithm)
  /\ validateAlgorithm (Some "none") ("none" :: allowed) = false
  /\ validateAlgorithm (Some "RS256") ["RS256"] = true
  /\ validateAlgorithm (Some "HS256") ["RS256"] = false.
Proof.
  split; [|split; [|split]].
  - intros Hnone. unfold validateAlgorithm.
    destruct (negb (truthy (trim algorithm))); [done|]. simpl.
    by rewrite Hnone.
  - unfold validateAlgorithm.
    by rewrite truthy_trim_toLowerCase, toLowerCase_idem,
      filter_map_toLowerCase.
  - unfold validateAlgorithm.
    destruct (truthy (trim algorithm)) eqn:Ht; simpl.
    + destruct (String.eqb (toLowerCase algorithm) "none") eqn:Hn.
      * apply String.eqb_eq in Hn. split; [done|]. by intros (_ & ? & _).
      * apply String.eqb_neq in Hn. rewrite existsb_normalized.
        split; [intros (b & ? & ? & ?); eauto 10|].
        intros (_ & _ & b & ? & ? & ?); eauto.
    + split; [done|]. by intros (? & _).
  - repeat split; reflexivity.
Qed.

(** C1 at the algorithm "NoNe" and an allowlist that names "none". *)
Lemma validateAlgorithm_allowlist_witness :
  validateAlgorithm (Some "NoNe") ["none"; "RS256"] = false.
Proof.
  apply (proj1 (validateAlgorithm_allowlist "NoNe" ["none"; "RS256"])).
  reflexivity.
Defined.

End StringFacts.

(** ** The validator *)

Module ValidatorFacts.

Import Validator ValidatorInv StringFacts.

(** *** Bearer tokens *)

Lemma append_String a s t : String a s +:+ t = String a (s +:+ t).
Proof. reflexivity. Qed.

Lemma append_empty t : "" +:+ t = t.
Proof. reflexivity. Qed.

Lemma startsWith_split s p :
  startsWith s p = true -> s = p +:+ substring_from (String.length p) s.
Proof.
  unfold startsWith. revert s.
  induction p as [|a p IH]; intros [|b s] H; simpl in *; try done.
  destruct (ascii_dec a b) as [->|]; [|done].
  rewrite append_String. f_equal. by apply IH.
Qed.

Lemma startsWith_app p s : startsWith (p +:+ s) p = true.
Proof.
  unfold startsWith. induction p as [|a p IH].
  - rewrite append_empty. by destruct s.
  - rewrite append_String. simpl. destruct (ascii_dec a a); [done|congruence].
Qed.

Lemma substring_from_app p s : substring_from (String.length p) (p +:+ s) = s.
Proof.
  induction p as [|a p IH]; [done|]. by rewrite append_String.
Qed.

Lemma startsWith_Bearer_not_blank s :
  startsWith s "Bearer " = true -> truthy (trim s) = true.
Proof.
  intros H. apply startsWith_split in H. rewrite H, truthy_trim. reflexivity.
Qed.

Lemma truthy_false s : truthy s = false <-> s = "".
Proof. destruct s; simpl; split; congruence. Qed.

Lemma truthy_true s : truthy s = true <-> s <> "".
Proof. destruct s; simpl; split; congruence. Qed.

Lemma bearer_of_Ok s token :
  bearer_of s = Ok token <-> token <> "" /\ s = "Bearer " +:+ token.
Proof.
  unfold bearer_of. split.
  - destruct (truthy (trim s)); cbn [negb]; [|done].
    destruct (startsWith s "Bearer ") eqn:Hp; cbn [negb]; [|done].
    cbv zeta.
    destruct (truthy (substring_from 7 s)) eqn:Ht; cbn [negb]; [|done].
    intros [= <-]. split; [by apply truthy_true|].
    exact (startsWith_split _ _ Hp).
  - intros [Hne ->].
    rewrite (startsWith_Bearer_not_blank _ (startsWith_app "Bearer " token)).
    rewrite startsWith_app. cbn [negb]. cbv zeta.
    change 7%nat with (String.length "Bearer ").
    rewrite substring_from_app.
    apply truthy_true in Hne. by rewrite Hne.
Qed.

Lemma bearer_of_Throw s :
  (exists e, bearer_of s = Throw e) <->
  startsWith s "Bearer " = false \/ s = "Bearer ".
Proof.
  split.
  - intros [e He]. destruct (startsWith s "Bearer ") eqn:Hp; [|by left].
    right. pose proof (startsWith_split _ _ Hp) as Hs.
    destruct (substring_from (String.length "Bearer ") s) as [|c r] eqn:Hr.
    + by rewrite Hs.
    + exfalso.
      assert (bearer_of s = Ok (String c r)) as Hok.
      { apply bearer_of_Ok. split; [done|]. by rewrite Hs at 1. }
      congruence.
  - intros [Hp| ->].
    + unfold bearer_of. destruct (truthy (trim s)); cbn [negb]; [|eauto].
      rewrite Hp. cbn [negb]. eauto.
    + vm_compute. eauto.
Qed.

Lemma extractBearerToken_carries h s :
  carries h s -> s <> "" -> extractBearerToken h = bearer_of s.
Proof.
  intros [-> | ->] Hs; unfold extractBearerToken; simpl.
  - apply truthy_true in Hs. by rewrite Hs.
  - done.
Qed.

(** Claim C10. [extractBearerToken] throws exactly on an absent or empty
    header, an empty array, an array of more than one element, a header that
    does not start with "Bearer " and the header "Bearer " itself; on an
    array of several elements the error is "Multiple authorization headers
    not allowed"; it returns [token] exactly when the header, alone or as
    the one element of an array, is "Bearer " followed by the non-empty
    [token]. *)
Theorem extractBearerToken_throws_exactly (h : AuthorizationHeader) :
  ((exists e, extractBearerToken h = Throw e) <->
     h = Absent \/ h = Single "" \/ h = Several []
     \/ (exists a b l, h = Several (a :: b :: l))
     \/ (exists s, carries h s /\ startsWith s "Bearer " = false)
     \/ carries h "Bearer ")
  /\ (forall a b l, h = Several (a :: b :: l) ->
        extractBearerToken h = Throw MultipleHeaders)
  /\ (forall token, extractBearerToken h = Ok token <->
        token <> "" /\ carries h ("Bearer " +:+ token)).
Proof.
  split; [|split].
  - destruct h as [|s|[|s [|b l]]].
    + split; [by left|]. intros _. vm_compute. eauto.
    + destruct (decide (s = "")) as [->|Hs].
      * split; [by right; left|]. intros _. vm_compute. eauto.
      * rewrite (extractBearerToken_carries _ s); [|by left|done].
        rewrite bearer_of_Throw. unfold carries. split.
        -- intros [H| ->]; [right; right; right; right; left; eauto|].
           do 5 right. by left.
        -- intros [?|[?|[?|[(?&?&?&?)|[(s'&[?|?]&?)|[?|?]]]]]];
             simplify_eq; eauto.
    + split; [by right; right; left|]. intros _. vm_compute. eauto.
    + assert (extractBearerToken (Several [s]) = bearer_of s) as -> by done.
      rewrite bearer_of_Throw. unfold carries. split.
      * intros [H| ->]; [right; right; right; right; left; eauto|].
        do 5 right. by right.
      * intros [?|[?|[?|[(?&?&?&?)|[(s'&[?|?]&?)|[?|?]]]]]];
          simplify_eq; eauto.
    + split; [|intros _; vm_compute; eauto].
      intros _. right; right; right; left. eauto.
  - intros a b l ->. reflexivity.
  - intros token. unfold carries. destruct h as [|s|[|s [|b l]]].
    + split; [done|]. by intros [_ [?|?]].
    + destruct (decide (s = "")) as [->|Hs].
      * split; [done|]. intros [_ [?|?]]; simplify_eq.
      * rewrite (extractBearerToken_carries _ s); [|by left|done].
        rewrite bearer_of_Ok. split.
        -- intros [? ->]. eauto.
        -- intros [? [?|?]]; simplify_eq. done.
    + split; [done|]. by intros [_ [?|?]].
    + assert (extractBearerToken (Several [s]) = bearer_of s) as -> by done.
      rewrite bearer_of_Ok. split.
      * intros [? ->]. eauto.
      * intros [? [?|?]]; simplify_eq. done.
    + split; [done|]. intros [_ [?|?]]; simplify_eq.
Qed.

(** C10 at an array of two Bearer headers. *)
Lemma extractBearerToken_throws_exactly_witness :
  extractBearerToken (Several ["Bearer a"; "Bearer b"]) = Throw MultipleHeaders.
Proof.
  apply (proj1 (proj2 (extractBearerToken_throws_exactly
                         (Several ["Bearer a"; "Bearer b"])))
           "Bearer a" "Bearer b" []).
  reflexivity.
Defined.

(** *** The validation pipeline *)



Section ValidateFacts.

Variable JSON_parse_header : string -> Exc (option JWTHeader).
Variable JSON_parse_payload : string -> Exc (option JWTPayload).
Variable getSigningKey : string -> Exc string.
Variable verifyRS256Signature : string -> string -> string -> Exc bool.
Variable now_exp now_nbf : Z.

Abbreviation body := (validate_body JSON_parse_header JSON_parse_payload
                    getSigningKey verifyRS256Signature now_exp now_nbf).
Abbreviation run := (validate JSON_parse_header JSON_parse_payload
                   getSigningKey verifyRS256Signature now_exp now_nbf).



End ValidateFacts.



End ValidatorFacts.

(** ** The cache, second class *)

Module LRUCacheMapFacts.

Import LRUCacheMap.

Lemma map_get_update m k f : map_get (map_update m k f) k = f <$> map_get m k.
Proof.
  induction m as [|[k' e] m IH]; simpl; [done|].
  destruct (String.eqb k' k) eqn:Hk; simpl; by rewrite Hk.
Qed.

(** A repeat [set] of the second class overwrites value and time stamps. *)
Lemma map_cache_overwrites c k v1 v2 t1 t2 t3 :
  is_Some (map_get (cache (set c k v1 t1)) k) ->
  (get (set (set c k v1 t1) k v2 t2) k t3).1
  = if ttl_exceeded (ttl c) t3 t2 then None else Some v2.
Proof.
  intros [e He].
  assert (ttl (set c k v1 t1) = ttl c) as Httl.
  { unfold set. destruct (map_get (cache c) k); [done|].
    cbv zeta. destruct (Z_gt_number _ _); [|done].
    unfold evictLeastRecentlyUsed. by destruct (truthy _). }
  set (c1 := set c k v1 t1) in *.
  unfold set at 1. rewrite He. unfold get. cbn [cache ttl].
  rewrite map_get_update, He. cbn [fmap option_fmap option_map created value].
  rewrite Httl. by destruct (ttl_exceeded _ _ _).
Qed.

(** [get] of the second class measures the age from [created] and leaves
    [created] as it was. *)
Lemma map_cache_created c k e now :
  map_get (cache c) k = Some e ->
  (get c k now).1
  = (if ttl_exceeded (ttl c) now (created e) then None else Some (value e))
  /\ (ttl_exceeded (ttl c) now (created e) = false ->
      map_get (cache (get c k now).2) k
      = Some (mkEntry (value e) now (created e))).
Proof.
  intros He. unfold get. rewrite He.
  destruct (ttl_exceeded _ _ _); cbn [fst snd cache]; [done|].
  split; [done|]. intros _. by rewrite map_get_update, He.
Qed.

End LRUCacheMapFacts.

(** ** The cache, first class *)

Module LRUCacheFacts.

Import LRUCache LRUCacheInv.

(** *** Reads through updated stores *)

Lemma next_of_alter_ne f p q (h : store) :
  p <> q -> next_of (alter f p h) q = next_of h q.
Proof. intros. unfold next_of. by rewrite lookup_alter_ne. Qed.

Lemma prev_of_alter_ne f p q (h : store) :
  p <> q -> prev_of (alter f p h) q = prev_of h q.
Proof. intros. unfold prev_of. by rewrite lookup_alter_ne. Qed.

Lemma next_of_alter_keep f p q (h : store) :
  (forall n, next (f n) = next n) -> next_of (alter f p h) q = next_of h q.
Proof.
  intros Hf. unfold next_of. destruct (decide (p = q)) as [->|].
  - rewrite lookup_alter_eq. destruct (h !! q); simpl; [apply Hf|done].
  - by rewrite lookup_alter_ne.
Qed.

Lemma prev_of_alter_keep f p q (h : store) :
  (forall n, prev (f n) = prev n) -> prev_of (alter f p h) q = prev_of h q.
Proof.
  intros Hf. unfold prev_of. destruct (decide (p = q)) as [->|].
  - rewrite lookup_alter_eq. destruct (h !! q); simpl; [apply Hf|done].
  - by rewrite lookup_alter_ne.
Qed.

Lemma next_of_set_next v p (h : store) :
  is_Some (h !! p) -> next_of (alter (set_next v) p h) p = v.
Proof.
  intros [n Hn]. unfold next_of. by rewrite lookup_alter_eq, Hn.
Qed.

Lemma prev_of_set_prev v p (h : store) :
  is_Some (h !! p) -> prev_of (alter (set_prev v) p h) p = v.
Proof.
  intros [n Hn]. unfold prev_of. by rewrite lookup_alter_eq, Hn.
Qed.

Lemma next_of_is_Some (h : store) p q : next_of h p = Some q -> is_Some (h !! p).
Proof. unfold next_of. destruct (h !! p); [eauto|done]. Qed.

Lemma prev_of_is_Some (h : store) p q : prev_of h p = Some q -> is_Some (h !! p).
Proof. unfold prev_of. destruct (h !! p); [eauto|done]. Qed.

Lemma is_Some_alter f p q (h : store) :
  is_Some (alter f p h !! q) <-> is_Some (h !! q).
Proof.
  destruct (decide (p = q)) as [->|].
  - rewrite lookup_alter_eq. by rewrite fmap_is_Some.
  - by rewrite lookup_alter_ne.
Qed.

Lemma dat_alter_keep f p q (h : store) :
  (forall n, to_entry (f n) = to_entry n) -> dat (alter f p h) q = dat h q.
Proof.
  intros Hf. unfold dat. rewrite !lookup_total_alt.
  destruct (decide (p = q)) as [->|].
  - rewrite lookup_alter_eq. destruct (h !! q); simpl; [apply Hf|done].
  - by rewrite lookup_alter_ne.
Qed.

Lemma dat_alter_ne f p q (h : store) :
  p <> q -> dat (alter f p h) q = dat h q.
Proof.
  intros. unfold dat. rewrite !lookup_total_alt. by rewrite lookup_alter_ne.
Qed.

(** *** Chains *)

Lemma chain_ext (h h' : store) L :
  (forall p, p ∈ removelast L -> next_of h' p = next_of h p) ->
  (forall p, p ∈ List.tl L -> prev_of h' p = prev_of h p) ->
  chain h L -> chain h' L.
Proof.
  induction L as [|a [|b L] IH]; try done.
  intros Hn Hp [[Hab Hba] Hc]. split.
  - split.
    + rewrite Hn; [done|]. simpl. left.
    + rewrite Hp; [done|]. simpl. left.
  - apply IH; [| |done].
    + intros p Hin. apply Hn. change (p ∈ a :: removelast (b :: L)). by right.
    + intros p Hin. apply Hp. simpl in *. by right.
Qed.

Lemma chain_app (h : store) X y Y :
  chain h (X ++ y :: Y) <-> chain h (X ++ [y]) /\ chain h (y :: Y).
Proof.
  induction X as [|a X IH]; simpl.
  - tauto.
  - destruct X as [|b X]; simpl in *.
    + tauto.
    + rewrite IH. tauto.
Qed.

Lemma chain_cons_inv (h : store) a b L : chain h (a :: b :: L) -> link h a b /\ chain h (b :: L).
Proof. done. Qed.

Lemma elem_of_removelast (q : ptr) L : q ∈ removelast L -> q ∈ L.
Proof.
  induction L as [|x [|y L] IH]; simpl; intros Hq.
  - done.
  - by apply elem_of_nil in Hq.
  - apply elem_of_cons in Hq as [->|Hq]; [left|right; by apply IH].
Qed.

(** Every node on a chain of two or more is allocated. *)
Lemma chain_allocated (h : store) L q :
  (2 <= length L)%nat -> chain h L -> q ∈ L -> is_Some (h !! q).
Proof.
  induction L as [|a [|b L] IH]; simpl; try lia.
  intros _ [[Hab Hba] Hc] Hq.
  apply elem_of_cons in Hq as [->|Hq]; [by eapply next_of_is_Some|].
  destruct L as [|c L].
  - apply list_elem_of_singleton in Hq as ->. by eapply prev_of_is_Some.
  - apply IH; [simpl; lia|done|done].
Qed.

(** [removeNode] and [addToFront] only write links. *)
Lemma dat_removeNode (h : store) p q : dat (removeNode h p) q = dat h q.
Proof.
  unfold removeNode.
  destruct (prev_of h p); destruct (next_of _ p);
    by rewrite ?dat_alter_keep.
Qed.

Lemma dat_addToFront hd (h : store) p q : dat (addToFront hd h p) q = dat h q.
Proof.
  unfold addToFront. rewrite dat_alter_keep by done.
  destruct (next_of _ hd); by rewrite ?dat_alter_keep.
Qed.

Lemma is_Some_removeNode (h : store) p q :
  is_Some (removeNode h p !! q) <-> is_Some (h !! q).
Proof.
  unfold removeNode.
  destruct (prev_of h p); destruct (next_of _ p);
    by rewrite ?is_Some_alter.
Qed.

Lemma is_Some_addToFront hd (h : store) p q :
  is_Some (addToFront hd h p !! q) <-> is_Some (h !! q).
Proof.
  unfold addToFront. rewrite is_Some_alter.
  destruct (next_of _ hd); by rewrite ?is_Some_alter.
Qed.

(** Unlinking [p] from between [a] and [b]. *)
Lemma removeNode_eq (h : store) a p b :
  a <> p -> link h a p -> link h p b ->
  removeNode h p = alter (set_prev (Some a)) b (alter (set_next (Some b)) a h).
Proof.
  intros Hap [_ Hpa] [Hpb _]. unfold removeNode.
  rewrite Hpa, Hpb. rewrite next_of_alter_ne by done. rewrite Hpb.
  by rewrite prev_of_alter_keep, Hpa.
Qed.

Lemma removeNode_chain_core (h : store) X a p b Y :
  NoDup (X ++ a :: p :: b :: Y) ->
  chain h (X ++ a :: p :: b :: Y) ->
  chain (removeNode h p) (X ++ a :: b :: Y).
Proof.
  intros Hnd Hc.
  apply chain_app in Hc as [HX Hc].
  destruct Hc as [Hap [Hpb HY]].
  apply NoDup_app in Hnd as (HndX & Hdisj & Hnd).
  apply NoDup_cons in Hnd as [Ha Hnd].
  apply NoDup_cons in Hnd as [Hp Hnd].
  apply NoDup_cons in Hnd as [Hb HndY].
  assert (a <> p) by (intros ->; apply Ha; left).
  assert (a <> b) by (intros ->; apply Ha; right; left).
  assert (p <> b) by (intros ->; apply Hp; left).
  rewrite (removeNode_eq h a p b) by done.
  pose proof (next_of_is_Some _ _ _ (proj1 Hap)) as Hsa.
  pose proof (prev_of_is_Some _ _ _ (proj2 Hpb)) as Hsb.
  apply chain_app. split; [|split; [split|]].
  - eapply chain_ext; [| |exact HX].
    + intros q Hq. rewrite removelast_last in Hq.
      rewrite next_of_alter_keep by done.
      apply next_of_alter_ne. intros ->. by apply (Hdisj q); [|left].
    + intros q Hq.
      assert (q ∈ X ++ [a]) as Hq'.
      { destruct X; simpl in *; [by apply elem_of_nil in Hq|by right]. }
      apply elem_of_app in Hq' as [Hq'|Hq'%list_elem_of_singleton].
      * rewrite prev_of_alter_ne.
        -- by apply prev_of_alter_keep.
        -- intros ->. apply (Hdisj q); [done|]. right; right; left.
      * subst q. rewrite prev_of_alter_ne by done. by apply prev_of_alter_keep.
  - rewrite next_of_alter_keep by done. by apply next_of_set_next.
  - apply prev_of_set_prev. by apply is_Some_alter.
  - eapply chain_ext; [| |exact HY].
    + intros q Hq. rewrite next_of_alter_keep by done.
      apply next_of_alter_ne. intros ->.
      assert (q ∈ b :: Y) as Hq' by (by apply elem_of_removelast).
      apply Ha. by right.
    + intros q Hq. simpl in Hq.
      rewrite prev_of_alter_ne by (intros ->; done).
      by apply prev_of_alter_keep.
Qed.

Lemma removeNode_chain (h : store) X p Y :
  X <> [] -> Y <> [] ->
  NoDup (X ++ p :: Y) -> chain h (X ++ p :: Y) ->
  chain (removeNode h p) (X ++ Y).
Proof.
  intros HX HY Hnd Hc.
  destruct (exists_last HX) as (X' & a & ->).
  destruct Y as [|b Y']; [done|].
  rewrite <- app_assoc in *. simpl in *.
  by apply removeNode_chain_core.
Qed.

(** Linking an allocated node [p], not on the chain, behind the head. *)
Lemma addToFront_chain (h : store) hd p b Y :
  NoDup (hd :: b :: Y) -> p ∉ hd :: b :: Y -> is_Some (h !! p) ->
  chain h (hd :: b :: Y) ->
  chain (addToFront hd h p) (hd :: p :: b :: Y).
Proof.
  intros Hnd Hp Hsp [[Hhb Hbh] HY].
  apply NoDup_cons in Hnd as [Hhd Hnd].
  apply NoDup_cons in Hnd as [Hb HndY].
  assert (hd <> p) by (intros ->; apply Hp; left).
  assert (b <> p) by (intros ->; apply Hp; right; left).
  assert (hd <> b) by (intros ->; apply Hhd; left).
  pose proof (next_of_is_Some _ _ _ Hhb) as Hshd.
  pose proof (prev_of_is_Some _ _ _ Hbh) as Hsb.
  unfold addToFront.
  rewrite (next_of_alter_keep (set_prev (Some hd))) by done.
  rewrite Hhb.
  rewrite (next_of_alter_ne _ p hd) by done.
  rewrite (next_of_alter_keep (set_prev (Some hd))) by done.
  rewrite Hhb.
  split; [split|split; [split|]].
  - apply next_of_set_next. by rewrite !is_Some_alter.
  - rewrite prev_of_alter_keep by done.
    rewrite prev_of_alter_ne by done.
    rewrite prev_of_alter_keep by done.
    by apply prev_of_set_prev.
  - rewrite next_of_alter_ne by done.
    rewrite next_of_alter_keep by done.
    apply next_of_set_next. by rewrite is_Some_alter.
  - rewrite prev_of_alter_keep by done.
    apply prev_of_set_prev. by rewrite !is_Some_alter.
  - eapply chain_ext; [| |exact HY].
    + intros q Hq.
      assert (q ∈ b :: Y) as Hq' by (by apply elem_of_removelast).
      rewrite next_of_alter_ne by (intros ->; apply Hhd; done).
      rewrite next_of_alter_keep by done.
      rewrite next_of_alter_ne by (intros ->; apply Hp; by right).
      by rewrite next_of_alter_keep.
    + intros q Hq. simpl in Hq.
      rewrite prev_of_alter_keep by done.
      rewrite prev_of_alter_ne by (intros ->; done).
      rewrite prev_of_alter_keep by done.
      rewrite prev_of_alter_ne; [done|].
      intros ->. apply Hp. by right; right.
Qed.

Lemma addToFront_chain' (h : store) hd p Y :
  Y <> [] -> NoDup (hd :: Y) -> p ∉ hd :: Y -> is_Some (h !! p) ->
  chain h (hd :: Y) -> chain (addToFront hd h p) (hd :: p :: Y).
Proof. destruct Y as [|b Y]; [done|]. intros _. apply addToFront_chain. Qed.

(** *** The shape of a cache *)

Lemma shape_allocated c l q :
  shape c l -> q ∈ head c :: l ++ [tail c] -> is_Some (heap c !! q).
Proof.
  intros [_ Hc _ _] Hq. eapply chain_allocated; [|done|done].
  simpl. rewrite length_app. simpl. lia.
Qed.

Lemma shape_key_inj c l p q :
  shape c l -> p ∈ l -> q ∈ l ->
  (dat (heap c) p).1.1 = (dat (heap c) q).1.1 -> p = q.
Proof.
  intros Hs Hp Hq Hk.
  assert (cache c !! (dat (heap c) p).1.1 = Some p) as H1
    by (by apply (shape_index _ _ Hs)).
  assert (cache c !! (dat (heap c) p).1.1 = Some q) as H2
    by (by apply (shape_index _ _ Hs)).
  congruence.
Qed.

Lemma ents_ext (h h' : store) l :
  (forall p, p ∈ l -> dat h' p = dat h p) -> ents h' l = ents h l.
Proof.
  intros H. unfold ents. apply map_ext_in. intros p Hp. apply H.
  by apply list_elem_of_In.
Qed.

Lemma ents_app h l1 l2 : ents h (l1 ++ l2) = ents h l1 ++ ents h l2.
Proof. apply map_app. Qed.

Lemma find_app_none {A} (f : A -> bool) xs ys :
  Forall (fun x => f x = false) xs -> List.find f (xs ++ ys) = List.find f ys.
Proof.
  induction 1 as [|x xs Hx _ IH]; simpl; [done|]. by rewrite Hx.
Qed.

Lemma filter_all {A} (f : A -> bool) xs :
  Forall (fun x => f x = true) xs -> List.filter f xs = xs.
Proof.
  induction 1 as [|x xs Hx _ IH]; simpl; [done|]. by rewrite Hx, IH.
Qed.

Lemma Forall_ents (P : entry -> Prop) h l :
  (forall q, q ∈ l -> P (dat h q)) -> Forall P (ents h l).
Proof.
  intros H. unfold ents. apply Forall_map, Forall_forall.
  intros q Hq. by apply H.
Qed.

Lemma has_key_false k e : Model.has_key k e = false <-> e.1.1 <> k.
Proof. unfold Model.has_key. apply String.eqb_neq. Qed.

Lemma has_key_true k e : Model.has_key k e = true <-> e.1.1 = k.
Proof. unfold Model.has_key. apply String.eqb_eq. Qed.

(** What the hash map knows, in terms of the entries. *)
Lemma shape_lookup c l k :
  shape c l ->
  match cache c !! k with
  | Some p =>
      exists l1 l2,
        l = l1 ++ p :: l2 /\ (dat (heap c) p).1.1 = k
        /\ Model.lookup (ents (heap c) l) k = Some (dat (heap c) p)
        /\ Model.remove (ents (heap c) l) k = ents (heap c) (l1 ++ l2)
  | None =>
      Model.lookup (ents (heap c) l) k = None
      /\ Model.remove (ents (heap c) l) k = ents (heap c) l
  end.
Proof.
  intros Hs. destruct (cache c !! k) as [p|] eqn:Hk.
  - apply (shape_index _ _ Hs) in Hk as [Hp Hkey].
    destruct (list_elem_of_split _ _ Hp) as (l1 & l2 & ->).
    exists l1, l2. split; [done|]. split; [done|].
    assert (forall q, q ∈ l1 ++ l2 -> (dat (heap c) q).1.1 <> k) as Hne.
    { intros q Hq Hqk.
      assert (q = p) as ->.
      { eapply shape_key_inj; [done| |done|congruence].
        rewrite elem_of_app in *. rewrite elem_of_cons. tauto. }
      pose proof (shape_nodup _ _ Hs) as Hnd.
      apply NoDup_cons in Hnd as [_ Hnd].
      apply NoDup_app in Hnd as (Hnd & _ & _).
      apply NoDup_app in Hnd as (_ & Hd & Hnd).
      apply NoDup_cons in Hnd as [Hp2 _].
      apply elem_of_app in Hq as [Hq|Hq]; [|done].
      apply (Hd p Hq). left. }
    split.
    + unfold Model.lookup. rewrite ents_app. rewrite find_app_none.
      * simpl. by rewrite (proj2 (has_key_true k _) Hkey).
      * apply Forall_ents. intros q Hq. apply has_key_false, Hne.
        apply elem_of_app. by left.
    + unfold Model.remove. rewrite !ents_app. simpl.
      rewrite List.filter_app. simpl.
      rewrite (proj2 (has_key_true k _) Hkey). simpl.
      rewrite !filter_all; [done| |].
      * apply Forall_ents. intros q Hq. apply negb_true_iff, has_key_false, Hne.
        apply elem_of_app. by right.
      * apply Forall_ents. intros q Hq. apply negb_true_iff, has_key_false, Hne.
        apply elem_of_app. by left.
  - assert (forall q, q ∈ l -> (dat (heap c) q).1.1 <> k) as Hne.
    { intros q Hq Hqk.
      assert (cache c !! k = Some q) by (by apply (shape_index _ _ Hs)).
      congruence. }
    split.
    + unfold Model.lookup. rewrite <- (app_nil_r (ents _ _)).
      rewrite find_app_none; [done|].
      apply Forall_ents. intros q Hq. by apply has_key_false, Hne.
    + apply filter_all, Forall_ents. intros q Hq.
      by apply negb_true_iff, has_key_false, Hne.
Qed.

(** *** The operations on the linked list keep the shape *)

(** Reduces the field reads of a record built by the operations. *)
Ltac simpl_fields :=
  cbn [head tail heap cache maxSize ttl with_heap with_cache].

Lemma NoDup_remove_middle (hd : ptr) l1 p l2 tl :
  NoDup (hd :: (l1 ++ p :: l2) ++ [tl]) ->
  NoDup (hd :: (l1 ++ l2) ++ [tl]) /\ p ∉ hd :: (l1 ++ l2) ++ [tl].
Proof.
  intros Hnd.
  assert (hd :: (l1 ++ p :: l2) ++ [tl] ≡ₚ p :: hd :: (l1 ++ l2) ++ [tl]) as HP.
  { rewrite <- !app_assoc. simpl. rewrite <- Permutation_middle.
    apply perm_swap. }
  rewrite HP in Hnd. apply NoDup_cons in Hnd as [? ?]. done.
Qed.

Lemma unlink_shape c l1 p l2 k :
  shape c (l1 ++ p :: l2) -> cache c !! k = Some p ->
  shape (mkCache (delete k (cache c)) (maxSize c) (ttl c) (head c) (tail c)
           (removeNode (heap c) p)) (l1 ++ l2).
Proof.
  intros Hs Hk.
  pose proof Hs as [Hnd Hc Hi Hsz].
  destruct (NoDup_remove_middle _ _ _ _ _ Hnd) as [Hnd' Hp].
  apply Hi in Hk as Hk'. destruct Hk' as [Hpl Hkey].
  split; simpl_fields.
  - done.
  - replace (head c :: (l1 ++ l2) ++ [tail c])
      with ((head c :: l1) ++ (l2 ++ [tail c]))
      by (simpl; by rewrite app_assoc).
    apply removeNode_chain.
    + done.
    + by destruct l2.
    + replace ((head c :: l1) ++ p :: l2 ++ [tail c])
        with (head c :: (l1 ++ p :: l2) ++ [tail c]); [done|].
      simpl. by rewrite <- app_assoc.
    + replace ((head c :: l1) ++ p :: l2 ++ [tail c])
        with (head c :: (l1 ++ p :: l2) ++ [tail c]); [done|].
      simpl. by rewrite <- app_assoc.
  - intros k' q. rewrite dat_removeNode.
    destruct (decide (k = k')) as [<-|Hne].
    + rewrite lookup_delete_eq. split; [done|].
      intros [Hq Hqk]. exfalso.
      assert (q = p) as ->.
      { eapply shape_key_inj; [exact Hs| |done|congruence].
        rewrite elem_of_app in *. rewrite elem_of_cons. tauto. }
      apply Hp. right. apply elem_of_app. by left.
    + rewrite lookup_delete_ne by done. rewrite Hi.
      rewrite !elem_of_app, elem_of_cons. split.
      * intros [[?|[->|?]] ?]; [tauto|congruence|tauto].
      * tauto.
  - rewrite map_size_delete_Some by (rewrite (proj2 (Hi k p)); eauto).
    rewrite Hsz, !length_app. simpl. lia.
Qed.

Lemma chain_set_lastAccessed (h : store) p now L :
  chain h L -> chain (alter (set_lastAccessed now) p h) L.
Proof.
  apply chain_ext; intros q _.
  - by apply next_of_alter_keep.
  - by apply prev_of_alter_keep.
Qed.

Lemma dat_set_lastAccessed (h : store) p now :
  is_Some (h !! p) ->
  dat (alter (set_lastAccessed now) p h) p = ((dat h p).1.1, (dat h p).1.2, now).
Proof.
  intros [n Hn]. unfold dat. rewrite !lookup_total_alt.
  by rewrite lookup_alter_eq, Hn.
Qed.

Lemma touch_shape c l1 p l2 k now :
  shape c (l1 ++ p :: l2) -> cache c !! k = Some p ->
  let h' := moveToFront (head c) (alter (set_lastAccessed now) p (heap c)) p in
  shape (with_heap c h') (p :: l1 ++ l2)
  /\ dat h' p = (k, (dat (heap c) p).1.2, now)
  /\ (forall q, q <> p -> dat h' q = dat (heap c) q).
Proof.
  intros Hs Hk h'.
  pose proof Hs as [Hnd Hc Hi Hsz].
  destruct (NoDup_remove_middle _ _ _ _ _ Hnd) as [Hnd' Hp].
  apply Hi in Hk as Hk'. destruct Hk' as [Hpl Hkey].
  assert (is_Some (heap c !! p)) as Hsp.
  { eapply shape_allocated; [done|]. right. apply elem_of_app. by left. }
  assert (dat h' p = (k, (dat (heap c) p).1.2, now)) as Hdp.
  { unfold h', moveToFront. rewrite dat_addToFront, dat_removeNode.
    rewrite dat_set_lastAccessed by done. by rewrite Hkey. }
  assert (forall q, q <> p -> dat h' q = dat (heap c) q) as Hdq.
  { intros q Hq. unfold h', moveToFront.
    rewrite dat_addToFront, dat_removeNode. by apply dat_alter_ne. }
  split; [|done].
  split; simpl_fields.
  - apply NoDup_cons in Hnd' as [Hhd Hnd'].
    apply NoDup_cons. split.
    + intros [Heq|?]%elem_of_cons; [apply Hp; rewrite Heq; left|done].
    + apply NoDup_cons. split; [|done]. intros ?. apply Hp. by right.
  - unfold h', moveToFront.
    apply (addToFront_chain' _ _ _ ((l1 ++ l2) ++ [tail c])).
    + by destruct (l1 ++ l2).
    + done.
    + done.
    + by rewrite is_Some_removeNode, is_Some_alter.
    + replace (head c :: (l1 ++ l2) ++ [tail c])
        with ((head c :: l1) ++ (l2 ++ [tail c]))
        by (simpl; by rewrite app_assoc).
      apply removeNode_chain.
      * done.
      * by destruct l2.
      * replace ((head c :: l1) ++ p :: l2 ++ [tail c])
          with (head c :: (l1 ++ p :: l2) ++ [tail c]); [done|].
        simpl. by rewrite <- app_assoc.
      * apply chain_set_lastAccessed.
        replace ((head c :: l1) ++ p :: l2 ++ [tail c])
          with (head c :: (l1 ++ p :: l2) ++ [tail c]); [done|].
        simpl. by rewrite <- app_assoc.
  - intros k' q. rewrite Hi. rewrite !elem_of_cons, !elem_of_app, elem_of_cons.
    destruct (decide (q = p)) as [->|Hq].
    + rewrite Hdp. cbn [fst]. rewrite Hkey. tauto.
    + rewrite (Hdq q Hq). tauto.
  - rewrite Hsz. simpl. rewrite !length_app. simpl. lia.
Qed.

Lemma insert_shape c l k v now :
  shape c l -> cache c !! k = None ->
  let p := fresh (dom (heap c)) in
  let h' := addToFront (head c) (<[p := mkNode k v now None None]> (heap c)) p in
  shape (mkCache (<[k := p]> (cache c)) (maxSize c) (ttl c) (head c) (tail c) h')
    (p :: l)
  /\ dat h' p = (k, v, now)
  /\ (forall q, q <> p -> dat h' q = dat (heap c) q).
Proof.
  intros Hs Hk p h'.
  pose proof Hs as [Hnd Hc Hi Hsz].
  assert (heap c !! p = None) as Hfresh.
  { apply not_elem_of_dom. apply is_fresh. }
  assert (p ∉ head c :: l ++ [tail c]) as Hp.
  { intros Hin. apply (shape_allocated _ _ _ Hs) in Hin as [? ?]. congruence. }
  assert (dat h' p = (k, v, now)) as Hdp.
  { unfold h'. rewrite dat_addToFront. unfold dat.
    by rewrite lookup_total_insert_eq. }
  assert (forall q, q <> p -> dat h' q = dat (heap c) q) as Hdq.
  { intros q Hq. unfold h'. rewrite dat_addToFront. unfold dat.
    by rewrite lookup_total_insert_ne. }
  split; [|done].
  split; simpl_fields.
  - apply NoDup_cons in Hnd as [Hhd Hnd].
    apply NoDup_cons. split.
    + intros [Heq|?]%elem_of_cons; [apply Hp; rewrite Heq; left|done].
    + apply NoDup_cons. split; [|done]. intros ?. apply Hp. by right.
  - unfold h'. apply (addToFront_chain' _ _ _ (l ++ [tail c])).
    + by destruct l.
    + done.
    + done.
    + rewrite lookup_insert_eq. eauto.
    + eapply chain_ext; [| |exact Hc].
      * intros q Hq%elem_of_removelast. unfold next_of.
        rewrite lookup_insert_ne; [done|]. intros <-. done.
      * intros q Hq. unfold prev_of.
        rewrite lookup_insert_ne; [done|]. intros <-. apply Hp. by right.
  - intros k' q. rewrite elem_of_cons.
    destruct (decide (k = k')) as [<-|Hne].
    + rewrite lookup_insert_eq. split.
      * intros [= <-]. by rewrite Hdp; auto.
      * intros [[->|Hq] Hqk]; [done|]. exfalso.
        assert (q <> p) as Hqp.
        { intros ->. apply Hp. right. apply elem_of_app. by left. }
        rewrite (Hdq q Hqp) in Hqk.
        assert (cache c !! k = Some q) by (by apply Hi). congruence.
    + rewrite lookup_insert_ne by done. rewrite Hi. split.
      * intros [Hq Hqk]. split; [by right|].
        rewrite Hdq; [done|]. intros ->. apply Hp. right.
        apply elem_of_app. by left.
      * intros [[->|Hq] Hqk].
        -- rewrite Hdp in Hqk. cbn [fst] in Hqk. done.
        -- split; [done|]. rewrite <- Hdq; [done|].
           intros ->. apply Hp. right. apply elem_of_app. by left.
  - rewrite map_size_insert_None by done. by rewrite Hsz.
Qed.

Lemma evict_shape c l x :
  shape c (l ++ [x]) ->
  shape (evictLeastRecentlyUsed c) l
  /\ (forall q, dat (heap (evictLeastRecentlyUsed c)) q = dat (heap c) q)
  /\ maxSize (evictLeastRecentlyUsed c) = maxSize c
  /\ ttl (evictLeastRecentlyUsed c) = ttl c
  /\ head (evictLeastRecentlyUsed c) = head c
  /\ tail (evictLeastRecentlyUsed c) = tail c.
Proof.
  intros Hs. pose proof Hs as [Hnd Hc Hi Hsz].
  assert (prev_of (heap c) (tail c) = Some x) as Hprev.
  { replace (head c :: (l ++ [x]) ++ [tail c])
      with ((head c :: l) ++ x :: [tail c]) in Hc
      by (simpl; by rewrite <- app_assoc).
    apply chain_app in Hc as [_ [[_ ?] _]]. done. }
  assert (x <> head c) as Hx.
  { intros ->. apply NoDup_cons in Hnd as [Hhd _]. apply Hhd.
    rewrite !elem_of_app. left. right. left. }
  assert (is_Some (heap c !! x)) as Hsx.
  { eapply shape_allocated; [done|]. right. rewrite !elem_of_app.
    left. right. left. }
  unfold evictLeastRecentlyUsed. rewrite Hprev.
  destruct (decide (x = head c)) as [|_]; [done|].
  destruct (removeNode (heap c) x !! x) as [n|] eqn:Hn.
  2:{ apply (is_Some_removeNode _ x) in Hsx as [? ?]. congruence. }
  assert (key n = (dat (heap c) x).1.1) as Hkey.
  { rewrite <- (dat_removeNode _ x). unfold dat.
    by rewrite (lookup_total_correct _ _ _ Hn). }
  assert (cache c !! key n = Some x) as Hk.
  { apply Hi. split; [|done]. apply elem_of_app. right. left. }
  split; [|split; [|done]].
  - rewrite <- (app_nil_r l). by apply unlink_shape.
  - intros q. simpl. apply dat_removeNode.
Qed.

Lemma evict_empty c : shape c [] -> evictLeastRecentlyUsed c = c.
Proof.
  intros [_ [[_ Hprev] _] _ _]. unfold evictLeastRecentlyUsed.
  simpl in Hprev. rewrite Hprev. by destruct (decide (head c = head c)).
Qed.

Lemma clear_shape c l : shape c l -> shape (clear c) [].
Proof.
  intros Hs. pose proof Hs as [Hnd Hc Hi Hsz].
  assert (head c <> tail c) as Hne.
  { intros Heq. apply NoDup_cons in Hnd as [Hhd _]. apply Hhd.
    rewrite Heq. apply elem_of_app. right. left. }
  assert (is_Some (heap c !! head c)) as Hh
    by (eapply shape_allocated; [done|left]).
  assert (is_Some (heap c !! tail c)) as Ht.
  { eapply shape_allocated; [done|]. right. apply elem_of_app. right. left. }
  split; unfold clear; simpl_fields.
  - apply NoDup_cons. split; [by intros ?%list_elem_of_singleton|].
    apply NoDup_singleton.
  - split; [split|done].
    + rewrite next_of_alter_keep by done. by apply next_of_set_next.
    + apply prev_of_set_prev. by apply is_Some_alter.
  - intros k p. rewrite lookup_empty. split; [done|].
    by intros [?%elem_of_nil _].
  - by rewrite map_size_empty.
Qed.

Lemma constructor_shape options c :
  constructor options = Ok c ->
  shape c [] /\ 1 <= maxSize c /\ ttl c = opt_ttl options
  /\ opt_maxSize options = Int (maxSize c).
Proof.
  unfold constructor, throw_error.
  destruct (opt_maxSize options) as [m| | |] eqn:Hm; cbn [number_truthy isInteger number_le0 negb orb];
    try done.
  destruct (Z.leb_spec m 0) as [Hle|Hlt].
  - by rewrite orb_true_r.
  - rewrite !orb_false_r.
      destruct (m =? 0) eqn:Hz; cbn [negb]; [lia|].
      destruct (match opt_ttl options with Some _ => _ | None => _ end);
        [done|].
      intros [= <-]. simpl_fields. split; [|split; [lia|done]].
      split; simpl_fields.
      * apply NoDup_cons. split; [by intros ?%list_elem_of_singleton|].
        apply NoDup_singleton.
      * done.
      * intros k p. rewrite lookup_empty. split; [done|].
        by intros [?%elem_of_nil _].
      * by rewrite map_size_empty.
Qed.

(** *** Reading the list back *)

Lemma walk_chain (h : store) a l stop :
  NoDup (a :: l ++ [stop]) -> chain h (a :: l ++ [stop]) ->
  next_of h a = Some (List.hd stop (l ++ [stop]))
  /\ walk (length l) h (List.hd stop (l ++ [stop])) stop = l.
Proof.
  revert a. induction l as [|b l IH]; intros a Hnd Hc.
  - simpl in *. by destruct Hc as [[? _] _].
  - change (chain h (a :: b :: l ++ [stop])) in Hc.
    destruct Hc as [[Hab _] Hc].
    apply NoDup_cons in Hnd as [_ Hnd].
    destruct (IH b Hnd Hc) as [Hnext Hwalk].
    split; [done|]. simpl.
    destruct (decide (b = stop)) as [->|_].
    + apply NoDup_cons in Hnd as [Hb _]. exfalso. apply Hb.
      apply elem_of_app. right. left.
    + by rewrite Hnext, Hwalk.
Qed.

Lemma shape_order c l : shape c l -> order c = l.
Proof.
  intros [Hnd Hc _ Hsz]. unfold order.
  destruct (walk_chain _ _ _ _ Hnd Hc) as [-> Hw]. by rewrite Hsz.
Qed.

Lemma shape_entries c l : shape c l -> entries c = ents (heap c) l.
Proof. intros Hs. unfold entries. by rewrite (shape_order _ _ Hs). Qed.

Lemma shape_Inv c l :
  shape c l -> Z.of_nat (length l) <= maxSize c -> 1 <= maxSize c -> Inv c.
Proof. intros Hs ? ?. unfold Inv. by rewrite (shape_order _ _ Hs). Qed.

Lemma length_ents h l : length (ents h l) = length l.
Proof. apply length_map. Qed.

Lemma same_config_refl c : same_config c c.
Proof. done. Qed.

(** *** Each operation refines its abstract counterpart *)

Lemma get_refines c k now :
  Inv c ->
  (get c k now).1 = (Model.get (ttl c) (entries c) k now).1
  /\ entries (get c k now).2 = (Model.get (ttl c) (entries c) k now).2
  /\ Inv (get c k now).2 /\ same_config c (get c k now).2.
Proof.
  intros (Hs & Hlen & Hmax). set (l := order c) in *.
  pose proof (shape_lookup c l k Hs) as Hl.
  rewrite (shape_entries c l Hs). unfold get, Model.get.
  destruct (cache c !! k) as [p|] eqn:Hk.
  - destruct Hl as (l1 & l2 & Hl12 & Hkey & Hlook & Hrem).
    rewrite !Hlook, !Hrem. rewrite Hl12 in Hs.
    assert (p ∈ head c :: (l1 ++ p :: l2) ++ [tail c]) as Hin.
    { right. rewrite !elem_of_app, elem_of_cons. tauto. }
    destruct (shape_allocated _ _ _ Hs Hin) as [n Hn].
    rewrite Hn.
    assert (dat (heap c) p = to_entry n) as Hd.
    { unfold dat. by rewrite (lookup_total_correct _ _ _ Hn). }
    rewrite Hd. cbv beta iota delta [to_entry].
    assert (Z.of_nat (length (l1 ++ l2)) <= maxSize c) as Hlen'.
    { rewrite Hl12 in Hlen. rewrite !length_app in *. simpl in Hlen. lia. }
    destruct (ttl_exceeded (ttl c) now (lastAccessed n)); cbn [fst snd].
    + pose proof (unlink_shape _ _ _ _ _ Hs Hk) as Hs'.
      split; [done|]. split; [|split; [|done]].
      * rewrite (shape_entries _ _ Hs'). simpl_fields.
        apply ents_ext. intros q _. apply dat_removeNode.
      * by eapply shape_Inv.
    + destruct (touch_shape _ _ _ _ _ now Hs Hk) as (Hs' & Hdp & Hdq).
      split; [done|]. split; [|split; [|done]].
      * rewrite (shape_entries _ _ Hs'). simpl_fields.
        unfold ents at 1. simpl. rewrite Hdp. rewrite Hd. f_equal.
        apply map_ext_in. intros q Hq%list_elem_of_In. apply Hdq.
        intros ->.
        destruct (NoDup_remove_middle _ _ _ _ _ (shape_nodup _ _ Hs))
          as [_ Hp].
        apply Hp. right. apply elem_of_app. by left.
      * eapply shape_Inv; [exact Hs'| |done].
        rewrite Hl12 in Hlen. rewrite !length_app in *. simpl in *.
        rewrite !length_app. lia.
  - destruct Hl as [Hlook _]. rewrite !Hlook. cbn [fst snd].
    split; [done|]. split; [by apply shape_entries|]. done.
Qed.

Lemma set_refines c k v now :
  Inv c ->
  entries (set c k v now) = Model.set (maxSize c) (entries c) k v now
  /\ Inv (set c k v now) /\ same_config c (set c k v now).
Proof.
  intros (Hs & Hlen & Hmax). set (l := order c) in *.
  pose proof (shape_lookup c l k Hs) as Hl.
  rewrite (shape_entries c l Hs). unfold set, Model.set.
  destruct (cache c !! k) as [p|] eqn:Hk.
  - destruct Hl as (l1 & l2 & Hl12 & Hkey & Hlook & Hrem).
    rewrite !Hlook, !Hrem. rewrite Hl12 in Hs.
    destruct (touch_shape _ _ _ _ _ now Hs Hk) as (Hs' & Hdp & Hdq).
    destruct (dat (heap c) p) as [[k0 v0] la0] eqn:Hd.
    split; [|split; [|done]].
    + rewrite (shape_entries _ _ Hs'). simpl_fields.
      unfold ents at 1. simpl. rewrite Hdp. f_equal.
      apply map_ext_in. intros q Hq%list_elem_of_In. apply Hdq.
      intros ->.
      destruct (NoDup_remove_middle _ _ _ _ _ (shape_nodup _ _ Hs))
        as [_ Hp].
      apply Hp. right. apply elem_of_app. by left.
    + eapply shape_Inv; [exact Hs'| |done].
      rewrite Hl12 in Hlen. rewrite !length_app in *. simpl in *.
      rewrite !length_app. lia.
  - destruct Hl as [Hlook _]. rewrite !Hlook.
    destruct (insert_shape c l k v now Hs Hk) as (Hs1 & Hdp & Hdq).
    set (p := fresh (dom (heap c))) in *.
    set (c1 := mkCache (<[k:=p]> (cache c)) (maxSize c) (ttl c) (head c)
                 (tail c) _) in *.
    assert (entries c1 = (k, v, now) :: ents (heap c) l) as He1.
    { rewrite (shape_entries _ _ Hs1). unfold ents at 1. simpl.
      subst c1. simpl_fields. rewrite Hdp. f_equal.
      apply map_ext_in. intros q Hq%list_elem_of_In. apply Hdq.
      intros ->. pose proof (shape_nodup _ _ Hs1) as Hnd.
      apply NoDup_cons in Hnd as [_ Hnd]. simpl in Hnd.
      apply NoDup_cons in Hnd as [Hp _]. apply Hp.
      apply elem_of_app. by left. }
    rewrite (shape_size _ _ Hs1).
    replace (maxSize c1) with (maxSize c) by done.
    replace (length ((k, v, now) :: ents (heap c) l)) with (length (p :: l))
      by (simpl; by rewrite length_ents).
    destruct (Z.of_nat (length (p :: l)) >? maxSize c) eqn:Hgt.
    + destruct (exists_last (l:=p :: l)) as (l' & x & Hlx); [done|].
      rewrite Hlx in Hs1.
      destruct (evict_shape _ _ _ Hs1) as (Hs2 & Hd2 & Hc2).
      split; [|split; [|done]].
      * rewrite (shape_entries _ _ Hs2).
        rewrite (ents_ext (heap c1)) by (intros; apply Hd2).
        rewrite <- He1. rewrite (shape_entries _ _ Hs1).
        rewrite ents_app.
        change (ents (heap c1) [x]) with [dat (heap c1) x].
        by rewrite removelast_last.
      * eapply shape_Inv; [exact Hs2| |].
        -- destruct Hc2 as [-> _]. subst c1. simpl_fields.
           apply (f_equal (@length _)) in Hlx. rewrite length_app in Hlx.
           simpl in Hlx. lia.
        -- by destruct Hc2 as [-> _].
    + split; [done|]. split; [|done].
      eapply shape_Inv; [exact Hs1| |done].
      subst c1. simpl_fields. lia.
Qed.

Lemma has_refines c k now :
  Inv c ->
  (has c k now).1 = (Model.has (ttl c) (entries c) k now).1
  /\ entries (has c k now).2 = (Model.has (ttl c) (entries c) k now).2
  /\ Inv (has c k now).2 /\ same_config c (has c k now).2.
Proof.
  intros (Hs & Hlen & Hmax). set (l := order c) in *.
  pose proof (shape_lookup c l k Hs) as Hl.
  rewrite (shape_entries c l Hs). unfold has, Model.has.
  destruct (cache c !! k) as [p|] eqn:Hk.
  - destruct Hl as (l1 & l2 & Hl12 & Hkey & Hlook & Hrem).
    rewrite !Hlook, !Hrem.
    assert (p ∈ head c :: l ++ [tail c]) as Hin.
    { right. rewrite Hl12, !elem_of_app, elem_of_cons. tauto. }
    destruct (shape_allocated _ _ _ Hs Hin) as [n Hn].
    rewrite Hn.
    assert (dat (heap c) p = to_entry n) as Hd.
    { unfold dat. by rewrite (lookup_total_correct _ _ _ Hn). }
    rewrite Hd. cbv beta iota delta [to_entry].
    destruct (ttl_exceeded (ttl c) now (lastAccessed n)); cbn [fst snd].
    + pose proof Hs as Hs0. rewrite Hl12 in Hs0.
      pose proof (unlink_shape _ _ _ _ _ Hs0 Hk) as Hs'.
      split; [done|]. split; [|split; [|done]].
      * rewrite (shape_entries _ _ Hs'). simpl_fields.
        apply ents_ext. intros q _. apply dat_removeNode.
      * eapply shape_Inv; [exact Hs'| |done]. simpl_fields.
        rewrite Hl12 in Hlen. rewrite !length_app in *. simpl in Hlen. lia.
    + split; [done|]. split; [by apply shape_entries|]. done.
  - destruct Hl as [Hlook _]. rewrite !Hlook. cbn [fst snd].
    split; [done|]. split; [by apply shape_entries|]. done.
Qed.

Lemma delete_refines c k :
  Inv c ->
  (delete_ c k).1 = (Model.delete (entries c) k).1
  /\ entries (delete_ c k).2 = (Model.delete (entries c) k).2
  /\ Inv (delete_ c k).2 /\ same_config c (delete_ c k).2.
Proof.
  intros (Hs & Hlen & Hmax). set (l := order c) in *.
  pose proof (shape_lookup c l k Hs) as Hl.
  rewrite (shape_entries c l Hs). unfold delete_, Model.delete.
  destruct (cache c !! k) as [p|] eqn:Hk.
  - destruct Hl as (l1 & l2 & Hl12 & Hkey & Hlook & Hrem).
    rewrite !Hlook, !Hrem. cbn [fst snd].
    pose proof Hs as Hs0. rewrite Hl12 in Hs0.
    pose proof (unlink_shape _ _ _ _ _ Hs0 Hk) as Hs'.
    split; [done|]. split; [|split; [|done]].
    + rewrite (shape_entries _ _ Hs'). simpl_fields.
      apply ents_ext. intros q _. apply dat_removeNode.
    + eapply shape_Inv; [exact Hs'| |done]. simpl_fields.
      rewrite Hl12 in Hlen. rewrite !length_app in *. simpl in Hlen. lia.
  - destruct Hl as [Hlook _]. rewrite !Hlook. cbn [fst snd].
    split; [done|]. split; [by apply shape_entries|]. done.
Qed.

Lemma clear_refines c :
  Inv c -> entries (clear c) = [] /\ Inv (clear c) /\ same_config c (clear c).
Proof.
  intros (Hs & Hlen & Hmax).
  pose proof (clear_shape _ _ Hs) as Hs'.
  split; [by rewrite (shape_entries _ _ Hs')|]. split; [|done].
  eapply shape_Inv; [exact Hs'| |done]. simpl. unfold clear. simpl_fields. lia.
Qed.

Lemma constructor_refines options c :
  constructor options = Ok c ->
  entries c = [] /\ Inv c /\ ttl c = opt_ttl options
  /\ opt_maxSize options = Int (maxSize c).
Proof.
  intros (Hs & Hmax & Httl & Hm)%constructor_shape.
  split; [by rewrite (shape_entries _ _ Hs)|]. split; [|done].
  eapply shape_Inv; [exact Hs| |done]. simpl. lia.
Qed.

(** What the hash map holds is what the list holds. *)
Lemma Inv_cache_lookup c k :
  Inv c -> is_Some (cache c !! k) <-> k ∈ keys c.
Proof.
  intros (Hs & _ & _). unfold keys, Model.keys, entries, ents.
  rewrite map_map. rewrite list_elem_of_In, in_map_iff.
  pose proof (shape_index _ _ Hs) as Hi. split.
  - intros [p Hp]. apply Hi in Hp as [Hp Hk]. exists p.
    by rewrite <- list_elem_of_In.
  - intros (p & Hk & Hp%list_elem_of_In). exists p. apply Hi. eauto.
Qed.

Lemma Inv_size c : Inv c -> size_ c = Z.of_nat (length (entries c)).
Proof.
  intros (Hs & _ & _). unfold size_, entries.
  by rewrite (shape_size _ _ Hs), length_ents.
Qed.

Lemma Inv_lookup_Some c k e :
  Inv c -> Model.lookup (entries c) k = Some e ->
  exists p n, cache c !! k = Some p /\ heap c !! p = Some n /\ to_entry n = e.
Proof.
  intros (Hs & _ & _) Hl. rewrite (shape_entries _ _ Hs) in Hl.
  pose proof (shape_lookup c _ k Hs) as Hk.
  destruct (cache c !! k) as [p|] eqn:Hc.
  - destruct Hk as (l1 & l2 & Hl12 & _ & Hlook & _).
    assert (p ∈ head c :: order c ++ [tail c]) as Hin.
    { right. rewrite Hl12, !elem_of_app, elem_of_cons. tauto. }
    destruct (shape_allocated _ _ _ Hs Hin) as [n Hn].
    exists p, n. split; [done|]. split; [done|].
    rewrite Hlook in Hl. injection Hl as <-. unfold dat.
    by rewrite (lookup_total_correct _ _ _ Hn).
  - destruct Hk as [Hlook _]. congruence.
Qed.

(** *** Sequences of calls *)

Lemma step_Inv c o now : Inv c -> Inv (step c o now) /\ same_config c (step c o now).
Proof.
  intros HI. destruct o; simpl.
  - by destruct (set_refines c k v now HI) as (_ & ? & ?).
  - by destruct (get_refines c k now HI) as (_ & _ & ? & ?).
  - by destruct (has_refines c k now HI) as (_ & _ & ? & ?).
  - by destruct (delete_refines c k HI) as (_ & _ & ? & ?).
  - by destruct (clear_refines c HI) as (_ & ? & ?).
Qed.

Lemma same_config_trans c1 c2 c3 :
  same_config c1 c2 -> same_config c2 c3 -> same_config c1 c3.
Proof. unfold same_config. intros (?&?&?&?) (?&?&?&?). repeat split; congruence. Qed.

Lemma run_Inv c calls : Inv c -> Inv (run c calls) /\ same_config c (run c calls).
Proof.
  revert c. induction calls as [|[o now] calls IH]; intros c HI; simpl.
  - done.
  - destruct (step_Inv c o now HI) as [HI' Hc'].
    destruct (IH _ HI') as [HI'' Hc'']. split; [done|].
    by eapply same_config_trans.
Qed.

Lemma reachable_Inv c : reachable c -> Inv c.
Proof.
  intros (options & c0 & calls & Hc0 & ->).
  apply constructor_refines in Hc0 as (_ & HI & _).
  by apply run_Inv.
Qed.

Lemma reachable_step c o now : reachable c -> reachable (step c o now).
Proof.
  intros (options & c0 & calls & Hc0 & ->).
  exists options, c0, (calls ++ [(o, now)]). split; [done|].
  unfold run. by rewrite fold_left_app.
Qed.

Lemma reachable_constructor options c : constructor options = Ok c -> reachable c.
Proof. intros H. by exists options, c, []. Qed.

(** *** Facts about the abstract cache *)

Lemma lookup_cons_eq es k v now :
  Model.lookup ((k, v, now) :: es) k = Some (k, v, now).
Proof. unfold Model.lookup, Model.has_key. simpl. by rewrite String.eqb_refl. Qed.

Lemma lookup_removelast_cons e e' es k :
  Model.has_key k e = true ->
  Model.lookup (removelast (e :: e' :: es)) k = Some e.
Proof.
  intros He. unfold Model.lookup.
  change (removelast (e :: e' :: es)) with (e :: removelast (e' :: es)).
  simpl. by rewrite He.
Qed.

Lemma lookup_set es k v now maxSize :
  1 <= maxSize ->
  Model.lookup (Model.set maxSize es k v now) k = Some (k, stored es k v, now).
Proof.
  intros Hmax. unfold Model.set, stored.
  destruct (Model.lookup es k) as [[[k0 v0] la0]|] eqn:Hl.
  - apply lookup_cons_eq.
  - cbv zeta.
    destruct (Z.gtb_spec (Z.of_nat (length ((k, v, now) :: es))) maxSize)
      as [Hgt|Hle].
    + destruct es as [|e' es]; [simpl in Hgt; lia|].
      apply lookup_removelast_cons. apply String.eqb_refl.
    + apply lookup_cons_eq.
Qed.

Lemma stored_set es k v v' now maxSize :
  1 <= maxSize -> stored (Model.set maxSize es k v now) k v' = stored es k v.
Proof. intros Hmax. unfold stored at 1. by rewrite lookup_set. Qed.

Lemma get_of_lookup ttl es k v la now :
  Model.lookup es k = Some (k, v, la) ->
  (Model.get ttl es k now).1 = if ttl_exceeded ttl now la then None else Some v.
Proof.
  intros Hl. unfold Model.get. rewrite Hl. by destruct (ttl_exceeded _ _ _).
Qed.

Lemma set_head es k v now maxSize :
  1 <= maxSize ->
  exists rest, Model.set maxSize es k v now = (k, stored es k v, now) :: rest.
Proof.
  intros Hmax. unfold Model.set, stored.
  destruct (Model.lookup es k) as [[[k0 v0] la0]|] eqn:Hl; [eauto|].
  cbv zeta.
  destruct (Z.gtb_spec (Z.of_nat (length ((k, v, now) :: es))) maxSize)
    as [Hgt|Hle]; [|eauto].
  destruct es as [|e' es]; [simpl in Hgt; lia|].
  change (removelast ((k, v, now) :: e' :: es))
    with ((k, v, now) :: removelast (e' :: es)). eauto.
Qed.

Lemma keys_remove es k :
  Model.keys (Model.remove es k) = List.filter (other_than k) (Model.keys es).
Proof.
  unfold Model.keys, Model.remove.
  induction es as [|e es IH]; simpl; [done|].
  unfold other_than, Model.has_key at 1.
  destruct (String.eqb e.1.1 k); simpl; by rewrite IH.
Qed.

Lemma lookup_None_keys es k :
  Model.lookup es k = None <-> k ∉ Model.keys es.
Proof.
  unfold Model.lookup, Model.keys.
  induction es as [|e es IH]; simpl.
  - split; [intros _ ?%elem_of_nil; done|done].
  - unfold Model.has_key at 1. rewrite not_elem_of_cons.
    destruct (String.eqb_spec e.1.1 k) as [Heq|Hne].
    + split; [done|]. intros [? _]. congruence.
    + rewrite IH. split; [intros; split; congruence|tauto].
Qed.

Lemma lookup_Some_key es k e : Model.lookup es k = Some e -> e.1.1 = k.
Proof.
  unfold Model.lookup. intros [_ H]%find_some. by apply String.eqb_eq.
Qed.

Lemma filter_other_than_notin ks k :
  k ∉ ks -> List.filter (other_than k) ks = ks.
Proof.
  induction ks as [|a ks IH]; simpl; [done|].
  rewrite not_elem_of_cons. intros [Hne Hk]. unfold other_than at 1.
  destruct (String.eqb_spec a k); [congruence|]. simpl. by rewrite IH.
Qed.

Lemma length_filter_other_than ks k :
  k ∈ ks -> (length (List.filter (other_than k) ks) < length ks)%nat.
Proof.
  induction ks as [|a ks IH]; simpl.
  - by intros ?%elem_of_nil.
  - intros Hin. unfold other_than at 1.
    destruct (String.eqb_spec a k) as [->|Hne]; simpl.
    + pose proof (List.filter_length_le (other_than k) ks). lia.
    + apply elem_of_cons in Hin as [->|Hin]; [done|].
      specialize (IH Hin). lia.
Qed.

(** The order of the keys after [set]: the key in front, the others
    behind in their old order, cut at the capacity. *)
Lemma keys_set maxSize es k v now :
  1 <= maxSize -> Z.of_nat (length es) <= maxSize ->
  Model.keys (Model.set maxSize es k v now)
  = take (Z.to_nat maxSize) (k :: List.filter (other_than k) (Model.keys es)).
Proof.
  intros Hmax Hlen. unfold Model.set.
  destruct (Model.lookup es k) as [[[k0 v0] la0]|] eqn:Hl.
  - change (Model.keys ((k, v0, now) :: Model.remove es k))
      with (k :: Model.keys (Model.remove es k)).
    rewrite keys_remove. symmetry. apply firstn_all2.
    assert (k ∈ Model.keys es) as Hin.
    { destruct (decide (k ∈ Model.keys es)) as [|Hn]; [done|].
      apply lookup_None_keys in Hn. congruence. }
    pose proof (length_filter_other_than _ _ Hin) as Hlt.
    unfold Model.keys in *. rewrite length_map in Hlt. cbn [length].
    lia.
  - apply lookup_None_keys in Hl.
    rewrite (filter_other_than_notin _ _ Hl). cbv zeta.
    change (k :: Model.keys es) with (Model.keys ((k, v, now) :: es)).
    destruct (Z.gtb_spec (Z.of_nat (length ((k, v, now) :: es))) maxSize)
      as [Hgt|Hle].
    + rewrite removelast_firstn_len. unfold Model.keys.
      rewrite <- firstn_map. f_equal. simpl in *. lia.
    + symmetry. apply firstn_all2. unfold Model.keys.
      rewrite length_map. lia.
Qed.

Lemma firstn_filter_other_than ks rest k n :
  k ∉ ks ->
  exists rest',
    List.filter (other_than k) (take n (ks ++ rest)) = take n ks ++ rest'
    /\ ((n <= length ks)%nat -> rest' = []).
Proof.
  intros Hk. destruct (le_lt_dec n (length ks)) as [Hle|Hlt].
  - exists []. split; [|done]. rewrite app_nil_r.
    rewrite take_app_le by done.
    apply filter_other_than_notin. intros Hin. apply Hk.
    by eapply subseteq_take.
  - exists (List.filter (other_than k) (take (n - length ks) rest)).
    split; [|lia].
    rewrite take_app_ge by lia. rewrite List.filter_app.
    rewrite filter_other_than_notin by done.
    by rewrite (take_ge ks) by lia.
Qed.

Lemma length_keys c : length (keys c) = length (entries c).
Proof. unfold keys, Model.keys. apply length_map. Qed.

Lemma Inv_length c : Inv c -> Z.of_nat (length (entries c)) <= maxSize c.
Proof.
  intros (_ & Hlen & _). unfold entries. by rewrite length_ents.
Qed.

Lemma keys_set_refines c k v now :
  Inv c ->
  keys (set c k v now)
  = take (Z.to_nat (maxSize c)) (k :: List.filter (other_than k) (keys c)).
Proof.
  intros HI. unfold keys.
  destruct (set_refines c k v now HI) as (-> & _ & _).
  apply keys_set; [by destruct HI as (_ & _ & ?)|by apply Inv_length].
Qed.

Lemma set_all_snoc c sets x :
  set_all c (sets ++ [x]) = set (set_all c sets) x.1.1 x.1.2 x.2.
Proof. unfold set_all. by rewrite fold_left_app. Qed.

Lemma set_all_Inv c sets :
  Inv c -> Inv (set_all c sets) /\ same_config c (set_all c sets).
Proof.
  intros HI. induction sets as [|x sets IH] using rev_ind; [done|].
  rewrite set_all_snoc. destruct IH as [HI' Hc'].
  destruct (set_refines (set_all c sets) x.1.1 x.1.2 x.2 HI') as (_ & ? & ?).
  split; [done|]. by eapply same_config_trans.
Qed.

(** After [set] on distinct keys, these keys lead the list, the latest
    first. *)
Lemma keys_set_all c sets :
  Inv c -> NoDup (List.map (fun x => x.1.1) sets) ->
  exists rest,
    keys (set_all c sets)
    = take (Z.to_nat (maxSize c))
        (rev (List.map (fun x => x.1.1) sets) ++ rest).
Proof.
  intros HI. induction sets as [|x sets IH] using rev_ind; intros Hnd.
  - exists (keys c). simpl. symmetry. apply take_ge.
    rewrite length_keys. pose proof (Inv_length c HI). lia.
  - rewrite map_app in Hnd. simpl in Hnd.
    apply NoDup_app in Hnd as (Hnd & Hx & _).
    destruct (IH Hnd) as [rest Hkeys].
    destruct (set_all_Inv c sets HI) as [HI' (Hmax & _)].
    rewrite set_all_snoc, keys_set_refines by done.
    rewrite Hmax, Hkeys. rewrite map_app, rev_app_distr. simpl.
    set (ks := List.map (fun x => x.1.1) sets) in *.
    set (M := Z.to_nat (maxSize c)).
    assert (x.1.1 ∉ rev ks) as Hk.
    { rewrite list_elem_of_In, <- in_rev, <- list_elem_of_In.
      intros Hin. apply (Hx _ Hin). left. }
    destruct (firstn_filter_other_than (rev ks) rest x.1.1 M Hk)
      as (rest' & -> & Hrest').
    exists rest'.
    assert (1 <= M)%nat as HM by (destruct HI as (_ & _ & ?); lia).
    destruct M as [|m]; [lia|]. simpl. f_equal.
    destruct (le_lt_dec (S m) (length (rev ks))) as [Hle|Hlt].
    + rewrite (Hrest' Hle), app_nil_r.
      rewrite take_take. rewrite take_app_le by lia. f_equal. lia.
    + by rewrite (take_ge (rev ks)) by lia.
Qed.

Lemma notin_keys_remove es k : k ∉ Model.keys (Model.remove es k).
Proof.
  rewrite keys_remove. rewrite list_elem_of_In, filter_In.
  intros [_ H]. unfold other_than in H. by rewrite String.eqb_refl in H.
Qed.

Lemma stored_absent c k v : Inv c -> cache c !! k = None -> stored (entries c) k v = v.
Proof.
  intros HI Hk. unfold stored.
  assert (Model.lookup (entries c) k = None) as ->; [|done].
  apply lookup_None_keys. intros Hin%(Inv_cache_lookup c k HI).
  destruct Hin. congruence.
Qed.

(** Claim C3, as amended. In the linked-list cache (first class), for
    every reachable cache: after [set(k, v1)] at [t1] and [set(k, v2)] at
    [t2], [get(k)] at [t3] returns the value [k] held after the first call,
    which is the value it already had if it was cached and [v1] if not,
    unless [t3] is more than the time to live after [t2], when it returns
    [undefined]; the second [set] leaves the value, sets [lastAccessed] to
    [t2] and puts [k] in front. In the [Map] cache (second class), when [k]
    is still cached after the first [set], the second [set] overwrites and
    [get] returns [v2]. *)
Theorem repeat_set_keeps_value (c : t) (k v1 v2 : string) (t1 t2 t3 : Z) :
  reachable c ->
  let c2 := set (set c k v1 t1) k v2 t2 in
  (get c2 k t3).1
    = (if ttl_exceeded (ttl c) t3 t2 then None
       else Some (stored (entries c) k v1))
  /\ Model.lookup (entries c2) k = Some (k, stored (entries c) k v1, t2)
  /\ List.hd_error (keys c2) = Some k
  /\ (cache c !! k = None -> stored (entries c) k v1 = v1)
  /\ (forall m : LRUCacheMap.t,
        let m1 := LRUCacheMap.set m k v1 t1 in
        is_Some (LRUCacheMap.map_get (LRUCacheMap.cache m1) k) ->
        (LRUCacheMap.get (LRUCacheMap.set m1 k v2 t2) k t3).1
        = if ttl_exceeded (LRUCacheMap.ttl m) t3 t2 then None else Some v2).
Proof.
  intros Hr c2. pose proof (reachable_Inv c Hr) as HI.
  destruct (set_refines c k v1 t1 HI) as (He1 & HI1 & Hc1).
  destruct (set_refines _ k v2 t2 HI1) as (He2 & HI2 & Hc2).
  fold c2 in He2, HI2, Hc2.
  assert (1 <= maxSize c) as Hmax by (by destruct HI as (_ & _ & ?)).
  assert (maxSize (set c k v1 t1) = maxSize c) as Hm1 by (by destruct Hc1).
  assert (Model.lookup (entries c2) k = Some (k, stored (entries c) k v1, t2))
    as Hl2.
  { rewrite He2, He1, Hm1. rewrite lookup_set by done.
    by rewrite stored_set. }
  split; [|split; [done|split; [|split]]].
  - destruct (get_refines c2 k t3 HI2) as (-> & _).
    rewrite (get_of_lookup _ _ _ _ _ _ Hl2).
    destruct Hc1 as (_ & Ht1 & _). destruct Hc2 as (_ & Ht2 & _).
    by rewrite Ht2, Ht1.
  - unfold keys. rewrite He2.
    destruct (set_head (entries (set c k v1 t1)) k v2 t2
                (maxSize (set c k v1 t1))) as [rest ->]; [lia|]. done.
  - by apply stored_absent.
  - intros m m1. apply LRUCacheMapFacts.map_cache_overwrites.
Qed.

(** C3 at the calls of the test of the no-overwrite policy. *)
Lemma repeat_set_keeps_value_witness :
  (get (set (set (empty_cache 3 None) "key1" "value1" 1) "key1" "value2" 2)
     "key1" 3).1 = Some "value1".
Proof.
  destruct (repeat_set_keeps_value (empty_cache 3 None) "key1" "value1"
              "value2" 1 2 3) as (Hget & _ & _ & Hfresh & _).
  - by apply (reachable_constructor (mkCacheOptions (Int 3) None)).
  - rewrite Hget. simpl. rewrite Hfresh; [done|]. reflexivity.
Defined.

(** The second class overwrites; the first keeps an older value and does not
    protect it from the time to live. *)
Lemma repeat_set_counterexample :
  (LRUCacheMap.get
     (LRUCacheMap.set
        (LRUCacheMap.set (LRUCacheMap.constructor (mkCacheOptions (Int 3) None))
           "key1" "value1" 1) "key1" "value2" 2) "key1" 3).1
  = Some "value2"
  /\ (get (set (set (set (empty_cache 3 None) "key1" "value0" 0)
                  "key1" "value1" 1) "key1" "value2" 2) "key1" 3).1
     = Some "value0"
  /\ (get (set (set (empty_cache 3 (Some (Int 100))) "key1" "value1" 1)
             "key1" "value2" 2) "key1" 500).1
     = None.
Proof. repeat split; vm_compute; reflexivity. Qed.

(** Claim C4. For every cache the constructor of the first class accepts
    and every sequence of [set], [get], [has], [delete] and [clear] calls,
    [size()] is at most [maxSize], the configured capacity; a [set] of a key
    that is not cached into a full cache drops exactly the last key of the
    recency order; and after [set] on more than [maxSize] distinct keys,
    from any such state, exactly [maxSize] entries remain: the keys set
    last, latest first. *)
Theorem capacity_invariant (options : CacheOptions) (c0 : t)
    (calls : list (call * Z)) :
  constructor options = Ok c0 ->
  let c := run c0 calls in
  opt_maxSize options = Int (maxSize c)
  /\ size_ c <= maxSize c
  /\ (forall k v now, cache c !! k = None -> size_ c = maxSize c ->
        keys (set c k v now) = k :: removelast (keys c))
  /\ (forall sets : list (string * string * Z),
        let ks := List.map (fun x => x.1.1) sets in
        NoDup ks -> maxSize c < Z.of_nat (length ks) ->
        let c' := set_all c sets in
        size_ c' = maxSize c
        /\ keys c' = take (Z.to_nat (maxSize c)) (rev ks)
        /\ forall k, is_Some (cache c' !! k)
                     <-> k ∈ take (Z.to_nat (maxSize c)) (rev ks)).
Proof.
  intros Hc0 c.
  destruct (constructor_refines _ _ Hc0) as (_ & HI0 & _ & Hopt).
  destruct (run_Inv c0 calls HI0) as [HI (Hmax & _)]. fold c in HI, Hmax.
  assert (1 <= maxSize c) as Hge by (by destruct HI as (_ & _ & ?)).
  split; [by rewrite Hmax|]. split; [|split].
  - rewrite (Inv_size c HI). by apply Inv_length.
  - intros k v now Hk Hfull.
    rewrite keys_set_refines by done.
    rewrite filter_other_than_notin.
    2:{ intros Hin%(Inv_cache_lookup c k HI). destruct Hin. congruence. }
    rewrite (Inv_size c HI), <- length_keys in Hfull.
    rewrite removelast_firstn_len.
    replace (Z.to_nat (maxSize c)) with (S (pred (length (keys c)))) by lia.
    done.
  - intros sets ks Hnd Hlen c'.
    destruct (set_all_Inv c sets HI) as [HI' _].
    destruct (keys_set_all c sets HI Hnd) as [rest Hkeys].
    fold ks c' in Hkeys, HI'.
    rewrite take_app_le in Hkeys by (rewrite length_rev; lia).
    split; [|split; [done|]].
    + rewrite (Inv_size c' HI'), <- length_keys, Hkeys.
      rewrite length_take, length_rev. lia.
    + intros k. by rewrite (Inv_cache_lookup c' k HI'), Hkeys.
Qed.

(** C4 at a cache of capacity two and three keys. *)
Lemma capacity_invariant_witness :
  keys (set_all (empty_cache 2 None)
          [("a", "1", 1); ("b", "2", 2); ("c", "3", 3)])
  = ["c"; "b"].
Proof.
  destruct (capacity_invariant (mkCacheOptions (Int 2) None)
              (empty_cache 2 None) [] eq_refl) as (_ & _ & _ & H).
  destruct (H [("a", "1", 1); ("b", "2", 2); ("c", "3", 3)])
    as (_ & Hkeys & _).
  - simpl. apply (bool_decide_unpack (NoDup _)). vm_compute. exact I.
  - simpl. lia.
  - exact Hkeys.
Defined.

(** *** Time to live *)

Lemma get_live c k v la now :
  Inv c -> Model.lookup (entries c) k = Some (k, v, la) ->
  ttl_exceeded (ttl c) now la = false ->
  (get c k now).1 = Some v
  /\ Model.lookup (entries (get c k now).2) k = Some (k, v, now)
  /\ Inv (get c k now).2 /\ ttl (get c k now).2 = ttl c.
Proof.
  intros HI Hl Hlive.
  destruct (get_refines c k now HI) as (-> & -> & HI' & (_ & Ht & _)).
  unfold Model.get. rewrite Hl, Hlive. cbn [fst snd].
  split; [done|]. split; [apply lookup_cons_eq|done].
Qed.

Lemma get_expired c k v la now :
  Inv c -> Model.lookup (entries c) k = Some (k, v, la) ->
  ttl_exceeded (ttl c) now la = true ->
  (get c k now).1 = None /\ k ∉ keys (get c k now).2.
Proof.
  intros HI Hl Hdead. unfold keys.
  destruct (get_refines c k now HI) as (-> & -> & _).
  unfold Model.get. rewrite Hl, Hdead. cbn [fst snd].
  split; [done|apply notin_keys_remove].
Qed.

Lemma has_live c k v la now :
  Inv c -> Model.lookup (entries c) k = Some (k, v, la) ->
  ttl_exceeded (ttl c) now la = false -> has c k now = (true, c).
Proof.
  intros HI Hl Hlive.
  destruct (Inv_lookup_Some c k _ HI Hl) as (p & n & Hp & Hn & He).
  unfold has. rewrite Hp, Hn.
  injection He as _ _ ->. by rewrite Hlive.
Qed.

Lemma has_expired c k v la now :
  Inv c -> Model.lookup (entries c) k = Some (k, v, la) ->
  ttl_exceeded (ttl c) now la = true ->
  (has c k now).1 = false /\ k ∉ keys (has c k now).2.
Proof.
  intros HI Hl Hdead. unfold keys.
  destruct (has_refines c k now HI) as (-> & -> & _).
  unfold Model.has. rewrite Hl, Hdead. cbn [fst snd].
  split; [done|apply notin_keys_remove].
Qed.

Lemma get_all_live c k v la times :
  Inv c -> Model.lookup (entries c) k = Some (k, v, la) ->
  within_ttl (ttl c) la times ->
  (get_all c k times).1 = List.map (fun _ => Some v) times.
Proof.
  revert c la. induction times as [|now times IH]; intros c la HI Hl Hw.
  - done.
  - destruct Hw as [Hlive Hw]. simpl.
    destruct (get_live c k v la now HI Hl Hlive) as (-> & Hl' & HI' & Ht').
    f_equal. apply (IH _ now); [done|done|by rewrite Ht'].
Qed.

(** Claim C5, as amended. In the linked-list cache (first class), for
    every reachable cache and cached key [k] last accessed at [la]: with a
    positive integer [ttl] the entry is expired at [now] exactly when
    [now - la > ttl]; on an expired entry [get] returns [undefined] and
    [has] returns [false], and both remove it; on a live entry [get]
    returns the value and sets [lastAccessed] to [now], so that gets no
    more than [ttl] apart keep returning it, and [has] returns [true] and
    leaves the cache as it was; [set] sets [lastAccessed] to its own time.
    The [Map] cache (second class) measures the age from [created], which
    [get] leaves as it was. *)
Theorem ttl_from_last_access (c : t) (k v : string) (la : Z) :
  reachable c -> Model.lookup (entries c) k = Some (k, v, la) ->
  (forall t now, ttl c = Some (Int t) -> 0 < t ->
     ttl_exceeded (ttl c) now la = (t <? (now - la)))
  /\ (forall now, ttl_exceeded (ttl c) now la = true ->
        (get c k now).1 = None /\ (k ∉ keys (get c k now).2)
        /\ (has c k now).1 = false /\ (k ∉ keys (has c k now).2))
  /\ (forall now, ttl_exceeded (ttl c) now la = false ->
        (get c k now).1 = Some v
        /\ Model.lookup (entries (get c k now).2) k = Some (k, v, now)
        /\ has c k now = (true, c))
  /\ (forall times, within_ttl (ttl c) la times ->
        (get_all c k times).1 = List.map (fun _ => Some v) times)
  /\ (forall k' v' now,
        Model.lookup (entries (set c k' v' now)) k'
        = Some (k', stored (entries c) k' v', now))
  /\ (forall (m : LRUCacheMap.t) entry now,
        LRUCacheMap.map_get (LRUCacheMap.cache m) k = Some entry ->
        (LRUCacheMap.get m k now).1
        = (if ttl_exceeded (LRUCacheMap.ttl m) now (LRUCacheMap.created entry)
           then None else Some (LRUCacheMap.value entry))
        /\ (ttl_exceeded (LRUCacheMap.ttl m) now (LRUCacheMap.created entry)
            = false ->
            LRUCacheMap.map_get
              (LRUCacheMap.cache (LRUCacheMap.get m k now).2) k
            = Some (LRUCacheMap.mkEntry (LRUCacheMap.value entry) now
                      (LRUCacheMap.created entry)))).
Proof.
  intros Hr Hl. pose proof (reachable_Inv c Hr) as HI.
  split; [|split; [|split; [|split; [|split]]]].
  - intros t now -> Ht. unfold ttl_exceeded. simpl.
    destruct (Z.eqb_spec t 0); [lia|done].
  - intros now Hdead.
    destruct (get_expired c k v la now HI Hl Hdead) as [? ?].
    destruct (has_expired c k v la now HI Hl Hdead) as [? ?]. done.
  - intros now Hlive.
    destruct (get_live c k v la now HI Hl Hlive) as (? & ? & _).
    split; [done|]. split; [done|]. by eapply has_live.
  - intros times Hw. by eapply get_all_live.
  - intros k' v' now.
    destruct (set_refines c k' v' now HI) as (-> & _).
    apply lookup_set. by destruct HI as (_ & _ & ?).
  - intros m entry now. apply LRUCacheMapFacts.map_cache_created.
Qed.

(** C5 at a time to live of one hundred: gets at 50, 125 and 200 keep the
    entry set at 0; [has] at 125, with no access since the [set], finds it
    expired. *)
Lemma ttl_from_last_access_witness :
  (get_all (set (empty_cache 5 (Some (Int 100))) "key1" "value1" 0)
     "key1" [50; 125; 200]).1
  = [Some "value1"; Some "value1"; Some "value1"]
  /\ (has (set (empty_cache 5 (Some (Int 100))) "key1" "value1" 0)
        "key1" 125).1 = false.
Proof.
  destruct (ttl_from_last_access
              (set (empty_cache 5 (Some (Int 100))) "key1" "value1" 0)
              "key1" "value1" 0) as (_ & Hdead & _ & Hall & _).
  - apply (reachable_step _ (CallSet "key1" "value1") 0).
    by apply (reachable_constructor (mkCacheOptions (Int 5) (Some (Int 100)))).
  - reflexivity.
  - split.
    + apply (Hall [50; 125; 200]). simpl. done.
    + apply (Hdead 125). reflexivity.
Defined.

(** A cache built with [ttl: 0] never expires an entry; the second class
    counts from the creation of the entry, whatever [get] did since. *)
Lemma ttl_counterexample :
  constructor (mkCacheOptions (Int 5) (Some (Int 0)))
  = Ok (empty_cache 5 (Some (Int 0)))
  /\ (get (set (empty_cache 5 (Some (Int 0))) "key1" "value1" 0)
        "key1" 1000).1 = Some "value1"
  /\ (let c1 := LRUCacheMap.set
                  (LRUCacheMap.constructor
                     (mkCacheOptions (Int 5) (Some (Int 100))))
                  "key1" "value1" 0 in
      let r1 := LRUCacheMap.get c1 "key1" 50 in
      r1.1 = Some "value1" /\ (LRUCacheMap.get r1.2 "key1" 125).1 = None).
Proof. repeat split; vm_compute; reflexivity. Qed.

(** *** The constructor *)

Lemma constructor_maxSize_guard x :
  negb (number_truthy x) || negb (isInteger x) || number_le0 x = false
  <-> positive_integer x.
Proof.
  unfold positive_integer. destruct x as [z| | |]; simpl.
  - rewrite orb_false_r. destruct (Z.eqb_spec z 0) as [->|Hz]; simpl.
    + split; [done|]. intros (z & [= <-] & ?). lia.
    + rewrite Z.leb_gt. split; [eauto|]. by intros (z' & [= <-] & ?).
  - split; [done|]. by intros (z & ? & _).
  - split; [done|]. by intros (z & ? & _).
  - split; [done|]. by intros (z & ? & _).
Qed.

Lemma constructor_ttl_guard x :
  number_truthy x && (negb (isInteger x) || number_le0 x) = true
  <-> number_truthy x = true /\ ~ positive_integer x.
Proof.
  unfold positive_integer. destruct x as [z| | |]; simpl.
  - destruct (Z.eqb_spec z 0) as [->|Hz]; simpl.
    + split; [done|]. by intros [? _].
    + rewrite Z.leb_le. split.
      * intros Hle. split; [done|]. intros (z' & [= <-] & ?). lia.
      * intros [_ Hn]. destruct (Z_le_gt_dec z 0); [done|].
        exfalso. apply Hn. exists z. split; [done|lia].
  - split; [|done]. intros _. split; [done|]. by intros (z & ? & _).
  - split; [done|]. by intros [? _].
  - split; [|done]. intros _. split; [done|]. by intros (z & ? & _).
Qed.

(** Claim C9, as amended. The constructor of the first class throws
    exactly when [maxSize] is not a positive integer, or [ttl] is supplied,
    is neither [0] nor [NaN], and is not a positive integer. When it
    succeeds with [ttl] absent, [0] or [NaN], no entry ever expires: at any
    time [get] returns the value of a cached key, and [has] returns [true]
    and leaves the cache as it was. *)
Theorem constructor_throws_exactly (options : CacheOptions) :
  ((exists e, constructor options = Throw e) <->
     ~ positive_integer (opt_maxSize options)
     \/ exists ttl_, opt_ttl options = Some ttl_
                     /\ number_truthy ttl_ = true /\ ~ positive_integer ttl_)
  /\ (forall c, constructor options = Ok c ->
        (forall ttl_, opt_ttl options = Some ttl_ -> number_truthy ttl_ = false) ->
        forall calls k v la now,
          Model.lookup (entries (run c calls)) k = Some (k, v, la) ->
          (get (run c calls) k now).1 = Some v
          /\ has (run c calls) k now = (true, run c calls)).
Proof.
  split.
  - unfold constructor.
    destruct (negb (number_truthy (opt_maxSize options))
              || negb (isInteger (opt_maxSize options))
              || number_le0 (opt_maxSize options)) eqn:Hm.
    + split; [|unfold throw_error; eauto].
      intros _. left. intros Hp%constructor_maxSize_guard. congruence.
    + apply constructor_maxSize_guard in Hm as Hpos.
      destruct Hpos as (m & Hmax & Hm0). rewrite Hmax.
      destruct (opt_ttl options) as [ttl_|] eqn:Httl.
      * destruct (number_truthy ttl_ && (negb (isInteger ttl_) || number_le0 ttl_))
          eqn:Hg.
        -- split; [|unfold throw_error; eauto].
           intros _. right. exists ttl_. split; [done|].
           by apply constructor_ttl_guard.
        -- split; [by intros [e ?]|].
           intros [Hn|(ttl' & [= <-] & Hg')].
           ++ exfalso. apply Hn. exists m. done.
           ++ apply constructor_ttl_guard in Hg'. congruence.
      * split; [by intros [e ?]|].
        intros [Hn|(ttl' & ? & _)]; [|done].
        exfalso. apply Hn. exists m. done.
  - intros c Hc Hfalsy calls k v la now Hl.
    destruct (constructor_refines _ _ Hc) as (_ & HI0 & Httl & _).
    destruct (run_Inv c calls HI0) as [HI (_ & Ht & _)].
    assert (ttl_exceeded (ttl (run c calls)) now la = false) as Hlive.
    { rewrite Ht, Httl. unfold ttl_exceeded.
      destruct (opt_ttl options) as [ttl_|]; [|done].
      by rewrite (Hfalsy ttl_ eq_refl). }
    destruct (get_live _ k v la now HI Hl Hlive) as (? & _).
    split; [done|]. by eapply has_live.
Qed.

(** C9 at [ttl: 100.5], which is refused, and at an absent [ttl]. *)
Lemma constructor_throws_exactly_witness :
  (exists e, constructor (mkCacheOptions (Int 10) (Some (Fractional 100))) = Throw e)
  /\ (get (run (empty_cache 10 None) [(CallSet "key1" "value1", 0)])
        "key1" 1000000).1 = Some "value1".
Proof.
  split.
  - apply (proj1 (constructor_throws_exactly
                    (mkCacheOptions (Int 10) (Some (Fractional 100))))).
    right. exists (Fractional 100). split; [done|]. split; [done|].
    by intros (z & ? & _).
  - refine (proj1 (proj2 (constructor_throws_exactly
                            (mkCacheOptions (Int 10) None))
                     (empty_cache 10 None) eq_refl _
                     [(CallSet "key1" "value1", 0)] "key1" "value1" 0
                     1000000 _)).
    + by intros ttl_ ?.
    + reflexivity.
Defined.

(** [ttl: 0] is supplied and is not a positive integer, and the
    constructor accepts it. *)
Lemma constructor_counterexample :
  ~ positive_integer (Int 0)
  /\ constructor (mkCacheOptions (Int 10) (Some (Int 0)))
     = Ok (empty_cache 10 (Some (Int 0))).
Proof.
  split; [|reflexivity]. intros (z & [= <-] & ?). lia.
Qed.

End LRUCacheFacts.

(** ** Bytes: what the decoder returns and what the encoder writes *)

Module ByteFacts.

Import Base64 Base64Inv.

Lemma sextet_range c v : sextet c = Some v -> 0 <= v < 64.
Proof.
  unfold sextet.
  repeat match goal with
         | |- context [if ?b then _ else _] => destruct b eqn:?
         end; intros [= <-]; lia.
Qed.

Lemma sextets_range t : forall vs,
  sextets t = Some vs -> Forall (fun v => 0 <= v < 64) vs.
Proof.
  induction t as [|c t IH]; intros vs; cbn [sextets].
  - intros [= <-]. constructor.
  - destruct (sextet c) as [v|] eqn:Hc; [|done].
    destruct (sextets t) as [vs'|]; [|done]. intros [= <-].
    constructor; [by eapply sextet_range|by apply IH].
Qed.

Lemma list_ind4 {A} (P : list A -> Prop) :
  P [] -> (forall a, P [a]) -> (forall a b, P [a; b]) ->
  (forall a b c, P [a; b; c]) ->
  (forall a b c d r, P r -> P (a :: b :: c :: d :: r)) ->
  forall l, P l.
Proof.
  intros H0 H1 H2 H3 H4.
  assert (forall n l, (length l < n)%nat -> P l) as H.
  { induction n as [|n IH]; intros l Hl; [lia|].
    destruct l as [|a [|b [|c [|d r]]]]; [done|done|done|done|].
    apply H4, IH. cbn [length] in Hl. lia. }
  intros l. apply (H (S (length l))). lia.
Qed.

Lemma decode_sextets_spec vs :
  Forall (fun v => 0 <= v < 64) vs ->
  Forall byte (decode_sextets vs)
  /\ Z.of_nat (length (decode_sextets vs)) = 3 * Z.of_nat (length vs) / 4.
Proof.
  unfold byte. induction vs as [|a|a b|a b c|a b c d r IH] using list_ind4.
  - intros _. split; [constructor|done].
  - intros _. split; [constructor|done].
  - intros [Ha [Hb _]%Forall_cons]%Forall_cons. split; [|done].
    repeat constructor; Z.div_mod_to_equations; lia.
  - intros [Ha [Hb [Hc _]%Forall_cons]%Forall_cons]%Forall_cons.
    split; [|done]. repeat constructor; Z.div_mod_to_equations; lia.
  - intros [Ha [Hb [Hc [Hd Hr]%Forall_cons]%Forall_cons]%Forall_cons]%Forall_cons.
    destruct (IH Hr) as [IH1 IH2]. cbn [decode_sextets]. split.
    + repeat (constructor; [Z.div_mod_to_equations; lia|]). done.
    + cbn [length]. rewrite !Nat2Z.inj_succ, IH2.
      Z.div_mod_to_equations; lia.
Qed.

Lemma atob_bytes s bytes : atob s = Ok bytes -> Forall byte bytes.
Proof.
  unfold atob. destruct (_ =? 1); [done|].
  destruct (sextets _) as [vs|] eqn:Hvs; [|done]. intros [= <-].
  apply sextets_range in Hvs. by apply decode_sextets_spec.
Qed.

Lemma base64urlToArrayBuffer_bytes s bytes :
  base64urlToArrayBuffer s = Ok bytes -> Forall byte bytes.
Proof. apply atob_bytes. Qed.

Import JWKSClient.

Lemma byte_land z : byte (Z.land z 255).
Proof.
  unfold byte. change 255 with (Z.ones 8). rewrite Z.land_ones by lia.
  apply Z.mod_pos_bound. lia.
Qed.

Lemma byte_uint8 z : byte (uint8 z).
Proof. unfold byte, uint8. apply Z.mod_pos_bound. lia. Qed.

Lemma encodeLength_loop_bytes fuel : forall temp bytes,
  Forall byte bytes -> Forall byte (encodeLength_loop fuel temp bytes).
Proof.
  induction fuel as [|fuel IH]; intros temp bytes H; cbn [encodeLength_loop];
    [done|].
  destruct (temp >? 0); [|done]. apply IH. constructor; [apply byte_land|done].
Qed.

Lemma encodeLength_bytes len : Forall byte (encodeLength len).
Proof.
  unfold encodeLength. destruct (len <? 128).
  - constructor; [apply byte_uint8|constructor].
  - constructor; [apply byte_uint8|]. apply encodeLength_loop_bytes. constructor.
Qed.

Lemma encodeInteger_bytes bytes :
  Forall byte bytes -> Forall byte (encodeInteger bytes).
Proof.
  intros H. unfold encodeInteger. constructor; [unfold byte; lia|].
  apply Forall_app. split; [apply encodeLength_bytes|].
  destruct (needsPadding bytes); [constructor; [unfold byte; lia|done]|done].
Qed.

Lemma createRSAPublicKeyDER_bytes n e :
  Forall byte n -> Forall byte e -> Forall byte (createRSAPublicKeyDER n e).
Proof.
  intros Hn He. unfold createRSAPublicKeyDER.
  pose proof (encodeInteger_bytes n Hn). pose proof (encodeInteger_bytes e He).
  cbv zeta.
  assert (Forall byte rsaOID) as Hoid.
  { unfold rsaOID. repeat (constructor; [unfold byte; lia|]). constructor. }
  repeat first
    [ assumption
    | apply encodeLength_bytes
    | apply Forall_app; split
    | apply Forall_cons; split; [unfold byte; lia|] ].
Qed.

End ByteFacts.

(** ** The DER encoding and the strength of keys *)

Module DERFacts.

Import Base64Inv ByteFacts JWKSClient DER JWKSClientInv.

(** *** Values of byte strings *)

Lemma be_value_snoc bytes b : be_value (bytes ++ [b]) = be_value bytes * 256 + b.
Proof. unfold be_value. by rewrite fold_left_app. Qed.

Lemma be_value_zero_cons bytes : be_value (0 :: bytes) = be_value bytes.
Proof. done. Qed.

Lemma be_value_from acc bytes :
  fold_left (fun acc b => acc * 256 + b) bytes acc
  = acc * 256 ^ Z.of_nat (length bytes) + be_value bytes.
Proof.
  unfold be_value. revert acc.
  induction bytes as [|b bytes IH]; intros acc; cbn [fold_left length].
  - change (256 ^ Z.of_nat 0) with 1. lia.
  - rewrite IH, (IH (0 * 256 + b)), Nat2Z.inj_succ, Z.pow_succ_r by lia. lia.
Qed.

Lemma be_value_cons b bytes :
  be_value (b :: bytes) = b * 256 ^ Z.of_nat (length bytes) + be_value bytes.
Proof.
  unfold be_value at 1. cbn [fold_left]. rewrite be_value_from. lia.
Qed.

Lemma be_value_range bytes :
  Forall byte bytes -> 0 <= be_value bytes < 256 ^ Z.of_nat (length bytes).
Proof.
  induction 1 as [|b bytes Hb _ IH].
  - change (be_value []) with 0. change (256 ^ Z.of_nat (length [])) with 1. lia.
  - rewrite be_value_cons. cbn [length].
    rewrite Nat2Z.inj_succ, Z.pow_succ_r by lia. unfold byte in Hb. nia.
Qed.

Lemma pow_256 k : 0 <= k -> 256 ^ k = 2 ^ (8 * k).
Proof. intros H. by rewrite Z.pow_mul_r by lia. Qed.

(** *** Bits and bytes *)

Lemma bit_length_le bytes :
  Forall byte bytes -> 0 <= bit_length bytes <= Z.of_nat (length bytes) * 8.
Proof.
  intros H. pose proof (be_value_range bytes H) as Hv. unfold bit_length.
  cbv zeta. destruct (Z.leb_spec (be_value bytes) 0); [lia|].
  rewrite pow_256 in Hv by lia.
  pose proof (Z.log2_nonneg (be_value bytes)).
  assert (Z.log2 (be_value bytes) < 8 * Z.of_nat (length bytes)); [|lia].
  apply Z.log2_lt_pow2; lia.
Qed.

(** The bits fill the bytes exactly when the first byte has its top bit
    set. *)
Lemma bit_length_full b rest :
  Forall byte (b :: rest) ->
  bit_length (b :: rest) = Z.of_nat (length (b :: rest)) * 8 <-> 128 <= b.
Proof.
  intros H. pose proof (bit_length_le _ H) as Hle.
  apply Forall_cons in H as [Hb Hrest].
  pose proof (be_value_range rest Hrest) as Hr. unfold byte in Hb.
  unfold bit_length in *. cbv zeta in *. rewrite be_value_cons in *.
  cbn [length] in *. rewrite Nat2Z.inj_succ in *.
  set (k := Z.of_nat (length rest)) in *.
  rewrite pow_256 in * by lia.
  assert (0 < 2 ^ (8 * k)) as Hpos by (apply Z.pow_pos_nonneg; lia).
  set (v := b * 2 ^ (8 * k) + be_value rest) in *.
  destruct (Z.leb_spec v 0) as [Hv|Hv].
  - split; [lia|]. intros Hb'. subst v. nia.
  - split.
    + intros Heq. assert (Z.log2 v = 8 * k + 7) as Hlog by lia.
      destruct (Z_lt_le_dec b 128) as [Hlt|]; [|done]. exfalso.
      assert (v < 2 ^ (8 * k + 7)) as Hup.
      { rewrite Z.pow_add_r by lia. change (2 ^ 7) with 128. subst v. nia. }
      apply Z.log2_lt_pow2 in Hup; lia.
    + intros Hb'.
      assert (2 ^ (8 * k + 7) <= v) as Hlow.
      { rewrite Z.pow_add_r by lia. change (2 ^ 7) with 128. subst v. nia. }
      apply Z.log2_le_pow2 in Hlow; lia.
Qed.

(** Without a zero byte in front, at most seven bits of the first byte are
    idle. *)
Lemma bit_length_canonical bytes :
  Forall byte bytes -> canonical bytes = true -> (2 <= length bytes)%nat ->
  Z.of_nat (length bytes) * 8 - 7 <= bit_length bytes.
Proof.
  intros H Hc Hlen. pose proof (bit_length_le _ H) as Hle.
  destruct bytes as [|b [|c rest]]; [done|cbn [length] in *; lia|].
  clear Hlen.
  cbn [canonical] in Hc. apply negb_true_iff, Z.eqb_neq in Hc.
  remember (c :: rest) as tail_ eqn:Htail. clear Htail c rest.
  apply Forall_cons in H as [Hb Hrest].
  pose proof (be_value_range _ Hrest) as Hr. unfold byte in Hb.
  unfold bit_length in *. cbv zeta in *. rewrite be_value_cons in *.
  replace (Z.of_nat (length (b :: tail_))) with (Z.of_nat (length tail_) + 1)
    in * by (cbn [length]; lia).
  set (k := Z.of_nat (length tail_)) in *.
  assert (0 <= k) by (subst k; lia).
  rewrite pow_256 in * by lia.
  assert (0 < 2 ^ (8 * k)) as Hpos by (apply Z.pow_pos_nonneg; lia).
  set (v := b * 2 ^ (8 * k) + be_value tail_) in *.
  assert (2 ^ (8 * k) <= v) as Hlow by (subst v; nia).
  destruct (Z.leb_spec v 0); [lia|].
  apply Z.log2_le_pow2 in Hlow; lia.
Qed.

Lemma is_byte_spec b : is_byte b = true <-> byte b.
Proof. unfold is_byte, byte. lia. Qed.

Lemma forallb_is_byte bytes : Forall byte bytes -> forallb is_byte bytes = true.
Proof.
  induction 1 as [|b bytes Hb _ IH]; [done|]. cbn [forallb].
  by rewrite (proj2 (is_byte_spec b) Hb), IH.
Qed.

(** Writes the powers of two of the bounds as numerals, for [lia]. *)
Ltac numerals :=
  change (2 ^ 31) with 2147483648 in *;
  change (2 ^ 32) with 4294967296 in *;
  change (2 ^ 23) with 8388608 in *;
  change (2 ^ 8) with 256 in *.

Lemma toInt32_small z : 0 <= z < 2 ^ 31 -> toInt32 z = z.
Proof. intros H. unfold toInt32. numerals. rewrite Z.mod_small; lia. Qed.

Lemma encodeLength_loop_done fuel temp bytes :
  temp <= 0 -> encodeLength_loop fuel temp bytes = bytes.
Proof.
  intros H. destruct fuel; simpl; [done|].
  destruct (Z.gtb_spec temp 0); [lia|done].
Qed.

Lemma encodeLength_loop_step fuel temp bytes :
  0 < temp < 2 ^ 31 ->
  encodeLength_loop (S fuel) temp bytes
  = encodeLength_loop fuel (temp / 256) (temp mod 256 :: bytes).
Proof.
  intros H. cbn [encodeLength_loop]. destruct (Z.gtb_spec temp 0); [|lia].
  rewrite toInt32_small by lia.
  rewrite Z.shiftr_div_pow2 by lia.
  change 255 with (Z.ones 8). rewrite Z.land_ones by lia. done.
Qed.

(** The loop puts the big-endian digits of [temp] in front of [bytes],
    without a leading zero. *)
Lemma encodeLength_loop_spec fuel temp bytes :
  0 <= temp < 2 ^ 31 -> temp < 256 ^ Z.of_nat fuel ->
  exists digits,
    encodeLength_loop fuel temp bytes = digits ++ bytes
    /\ be_value digits = temp
    /\ (length digits <= fuel)%nat
    /\ (temp = 0 -> digits = [])
    /\ (0 < temp -> List.hd 0 digits <> 0)
    /\ Forall byte digits.
Proof.
  revert temp bytes. induction fuel as [|fuel IH]; intros temp bytes Ht Hf.
  - exists []. change (256 ^ Z.of_nat 0) with 1 in Hf.
    assert (temp = 0) as -> by lia. repeat split; done.
  - destruct (decide (temp = 0)) as [->|Hne].
    + exists []. rewrite encodeLength_loop_done by lia.
      repeat split; try done; cbn [length]; lia.
    + rewrite encodeLength_loop_step by lia.
      assert (0 <= temp / 256 < 2 ^ 31) as Hq.
      { numerals. split; [apply Z.div_pos; lia|].
        apply Z.div_lt_upper_bound; lia. }
      assert (temp / 256 < 256 ^ Z.of_nat fuel) as Hq'.
      { apply Z.div_lt_upper_bound; [lia|].
        rewrite Nat2Z.inj_succ, Z.pow_succ_r in Hf by lia. lia. }
      destruct (IH (temp / 256) (temp mod 256 :: bytes) Hq Hq')
        as (digits & -> & Hv & Hlen & Hz & Hnz & Hbytes).
      exists (digits ++ [temp mod 256]).
      split; [by rewrite <- app_assoc|].
      split; [rewrite be_value_snoc, Hv; pose proof (Z.div_mod temp 256); lia|].
      split; [rewrite length_app; simpl; lia|].
      split; [lia|]. split.
      { intros _.
        destruct (decide (temp / 256 = 0)) as [Hq0|Hq0].
        * rewrite (Hz Hq0). simpl.
          pose proof (Z.div_mod temp 256). lia.
        * destruct digits as [|d digits].
          -- change (be_value []) with 0 in Hv. lia.
          -- apply Hnz. lia. }
      apply Forall_app. split; [done|]. constructor; [|constructor].
      unfold byte. apply Z.mod_pos_bound. lia.
Qed.

(** One turn brings [temp] below [2 ^ 23], whatever it was; four turns
    end the loop, and more fuel changes nothing. *)
Lemma toInt32_range z : - 2 ^ 31 <= toInt32 z < 2 ^ 31.
Proof.
  unfold toInt32. numerals.
  pose proof (Z.mod_pos_bound (z + 2147483648) 4294967296). lia.
Qed.

Lemma encodeLength_loop_fuel fuel temp bytes :
  (4 <= fuel)%nat ->
  encodeLength_loop fuel temp bytes = encodeLength_loop 4 temp bytes.
Proof.
  intros Hfuel.
  assert (forall f t b, t < 256 ^ Z.of_nat f -> 0 <= t < 2 ^ 31 ->
            forall f', (f <= f')%nat ->
            encodeLength_loop f' t b = encodeLength_loop f t b) as Hstable.
  { induction f as [|f IH]; intros t b Ht Hr f' Hf'.
    - simpl in Ht. by rewrite encodeLength_loop_done by lia.
    - destruct f' as [|f']; [lia|].
      destruct (decide (t = 0)) as [->|Hne].
      + by rewrite !encodeLength_loop_done by lia.
      + rewrite !encodeLength_loop_step by lia. apply IH; [| |lia].
        * apply Z.div_lt_upper_bound; [lia|].
          rewrite Nat2Z.inj_succ, Z.pow_succ_r in Ht by lia. lia.
        * numerals. split; [apply Z.div_pos; lia|].
          apply Z.div_lt_upper_bound; lia. }
  destruct fuel as [|fuel]; [lia|].
  change (encodeLength_loop (S fuel) temp bytes)
    with (if temp >? 0
          then encodeLength_loop fuel (Z.shiftr (toInt32 temp) 8)
                 (Z.land (toInt32 temp) 255 :: bytes)
          else bytes).
  change (encodeLength_loop 4 temp bytes)
    with (if temp >? 0
          then encodeLength_loop 3 (Z.shiftr (toInt32 temp) 8)
                 (Z.land (toInt32 temp) 255 :: bytes)
          else bytes).
  destruct (temp >? 0); [|done].
  pose proof (toInt32_range temp) as Hr.
  assert (- 2 ^ 23 <= Z.shiftr (toInt32 temp) 8 < 2 ^ 23) as Hs.
  { rewrite Z.shiftr_div_pow2 by lia. numerals. split.
    - apply Z.div_le_lower_bound; lia.
    - apply Z.div_lt_upper_bound; lia. }
  destruct (Z_lt_le_dec (Z.shiftr (toInt32 temp) 8) 0) as [Hneg|Hpos].
  - by rewrite !encodeLength_loop_done by lia.
  - apply (Hstable 3%nat); [numerals; simpl; lia|numerals; lia|lia].
Qed.

Lemma encodeLength_short len : 0 <= len < 128 -> encodeLength len = [len].
Proof.
  intros H. unfold encodeLength, uint8.
  destruct (Z.ltb_spec len 128); [|lia]. by rewrite Z.mod_small by lia.
Qed.

Lemma encodeLength_long len :
  128 <= len < 2 ^ 31 ->
  exists digits,
    encodeLength len = (128 + Z.of_nat (length digits)) :: digits
    /\ (1 <= length digits <= 4)%nat
    /\ Forall byte digits
    /\ be_value digits = len
    /\ List.hd 0 digits <> 0.
Proof.
  intros H. unfold encodeLength.
  destruct (Z.ltb_spec len 128); [lia|].
  destruct (encodeLength_loop_spec 4 len [])
    as (digits & Hd & Hv & Hlen & _ & Hnz & Hbytes);
    [lia|numerals; simpl; lia|].
  rewrite app_nil_r in Hd. rewrite Hd. exists digits.
  assert (1 <= length digits)%nat as Hpos.
  { destruct digits; [|simpl; lia]. change (be_value []) with 0 in Hv. lia. }
  split; [|split; [lia|split; [done|split; [done|apply Hnz; lia]]]].
  f_equal.
  destruct digits as [|? [|? [|? [|? [|? ?]]]]]; simpl in Hlen, Hpos;
    try lia; reflexivity.
Qed.

Lemma length_encodeLength len :
  0 <= len < 2 ^ 31 -> (1 <= length (encodeLength len) <= 5)%nat.
Proof.
  intros H. destruct (Z_lt_le_dec len 128).
  - rewrite encodeLength_short by lia. simpl. lia.
  - destruct (encodeLength_long len) as (digits & -> & ? & _); [lia|].
    simpl. lia.
Qed.

Lemma read_length_encodeLength len rest :
  0 <= len < 2 ^ 31 -> read_length (encodeLength len ++ rest) = Some (len, rest).
Proof.
  intros H. destruct (Z_lt_le_dec len 128).
  - rewrite encodeLength_short by lia. cbn [app read_length].
    assert (is_byte len = true) as ->
      by (apply is_byte_spec; unfold byte; lia).
    cbn [negb]. by destruct (Z.ltb_spec len 128); [|lia].
  - destruct (encodeLength_long len) as (digits & -> & Hk & Hbytes & Hv & Hnz);
      [lia|].
    cbn [app read_length].
    assert (is_byte (128 + Z.of_nat (length digits)) = true) as ->
      by (apply is_byte_spec; unfold byte; lia).
    cbn [negb].
    destruct (Z.ltb_spec (128 + Z.of_nat (length digits)) 128); [lia|].
    destruct (Z.eqb_spec (128 + Z.of_nat (length digits)) 255); [lia|].
    replace (Z.to_nat (128 + Z.of_nat (length digits) - 128))
      with (length digits) by lia.
    cbv zeta. rewrite take_app_length, drop_app_length.
    destruct (Nat.eqb_spec (length digits) 0); [lia|].
    destruct (Nat.ltb_spec (length (digits ++ rest)) (length digits)).
    { rewrite length_app in *. lia. }
    cbn [orb]. rewrite forallb_is_byte by done. cbn [negb].
    destruct (Z.eqb_spec (List.hd 0 digits) 0); [done|].
    rewrite Hv. by destruct (Z.ltb_spec len 128); [lia|].
Qed.

Lemma read_tlv_encode tag contents rest :
  Z.of_nat (length contents) < 2 ^ 31 -> Forall byte contents ->
  read_tlv tag (tag :: encodeLength (Z.of_nat (length contents))
                  ++ contents ++ rest)
  = Some (contents, rest).
Proof.
  intros H Hbytes. cbn [read_tlv]. rewrite Z.eqb_refl.
  rewrite read_length_encodeLength by lia.
  destruct (Z.ltb_spec (Z.of_nat (length (contents ++ rest)))
              (Z.of_nat (length contents))).
  { rewrite length_app in *. lia. }
  rewrite Nat2Z.id. cbv zeta. rewrite take_app_length, drop_app_length.
  by rewrite forallb_is_byte.
Qed.

Lemma read_tlv_encode_all tag contents :
  Z.of_nat (length contents) < 2 ^ 31 -> Forall byte contents ->
  read_tlv tag (tag :: encodeLength (Z.of_nat (length contents)) ++ contents)
  = Some (contents, []).
Proof.
  intros H Hbytes. rewrite <- (app_nil_r contents) at 2.
  by apply read_tlv_encode.
Qed.

(** The contents written by [encodeInteger] denote the unsigned value of
    the bytes given; there are none for no bytes. *)
Lemma int_value_padded bytes :
  int_value (padded bytes)
  = match bytes with [] => None | _ :: _ => Some (be_value bytes) end.
Proof.
  unfold padded. destruct bytes as [|b bytes]; [done|]. cbn [needsPadding].
  destruct (Z.leb_spec 128 b) as [Hb|Hb]; cbn [int_value].
  - done.
  - by destruct (Z.leb_spec 128 b); [lia|].
Qed.

Lemma encodeInteger_eq bytes :
  encodeInteger bytes
  = 2 :: encodeLength (Z.of_nat (length (padded bytes))) ++ padded bytes.
Proof. done. Qed.

Lemma length_padded bytes :
  (length bytes <= length (padded bytes) <= S (length bytes))%nat.
Proof. unfold padded. destruct (needsPadding bytes); simpl; lia. Qed.

Lemma padded_bytes bytes : Forall byte bytes -> Forall byte (padded bytes).
Proof.
  intros H. unfold padded. destruct (needsPadding bytes); [|done].
  constructor; [unfold byte; lia|done].
Qed.

Lemma length_encodeInteger bytes :
  Z.of_nat (length bytes) < 2 ^ 30 ->
  (length bytes < length (encodeInteger bytes) <= length bytes + 7)%nat.
Proof.
  intros H. rewrite encodeInteger_eq. cbn [length]. rewrite length_app.
  pose proof (length_padded bytes).
  pose proof (length_encodeLength (Z.of_nat (length (padded bytes)))) as Hl.
  numerals. change (2 ^ 30) with 1073741824 in *. lia.
Qed.

Lemma read_tlv_rsaOID rest :
  read_tlv 48 (rsaOID ++ rest) = Some (rsaEncryption, rest).
Proof.
  change (rsaOID ++ rest)
    with (48 :: encodeLength (Z.of_nat (length rsaEncryption))
            ++ rsaEncryption ++ rest).
  apply read_tlv_encode; [done|].
  unfold rsaEncryption. repeat (constructor; [unfold byte; lia|]). constructor.
Qed.

(** Reading back what [createRSAPublicKeyDER] wrote. *)
Lemma read_integers_createRSAPublicKeyDER n e :
  Forall byte n -> Forall byte e ->
  Z.of_nat (length n) + Z.of_nat (length e) < 2 ^ 30 ->
  read_integers (createRSAPublicKeyDER n e) = Some (padded n, padded e).
Proof.
  intros Hbn Hbe H. change (2 ^ 30) with 1073741824 in H.
  pose proof (length_encodeInteger n) as Hn.
  pose proof (length_encodeInteger e) as He.
  change (2 ^ 30) with 1073741824 in Hn, He.
  specialize (Hn ltac:(lia)). specialize (He ltac:(lia)).
  pose proof (encodeInteger_bytes n Hbn) as Hin.
  pose proof (encodeInteger_bytes e Hbe) as Hie.
  unfold createRSAPublicKeyDER, read_integers.
  set (sequence := encodeInteger n ++ encodeInteger e).
  assert (length sequence
          = (length (encodeInteger n) + length (encodeInteger e))%nat)
    as Hseq by apply length_app.
  assert (Forall byte sequence) as Hbseq by (by apply Forall_app).
  set (rsaSequence := 48 :: encodeLength (Z.of_nat (length sequence))
                        ++ sequence).
  assert (length sequence < length rsaSequence <= length sequence + 6)%nat
    as Hrsa.
  { subst rsaSequence. cbn [length]. rewrite length_app.
    pose proof (length_encodeLength (Z.of_nat (length sequence))) as Hl.
    numerals. lia. }
  assert (Forall byte rsaSequence) as Hbrsa.
  { subst rsaSequence. constructor; [unfold byte; lia|].
    apply Forall_app. split; [apply encodeLength_bytes|done]. }
  set (bitString := 3 :: encodeLength (Z.of_nat (length rsaSequence) + 1)
                      ++ 0 :: rsaSequence).
  assert (length rsaSequence < length bitString <= length rsaSequence + 7)%nat
    as Hbits.
  { subst bitString. cbn [length]. rewrite length_app. cbn [length].
    pose proof (length_encodeLength (Z.of_nat (length rsaSequence) + 1)) as Hl.
    numerals. lia. }
  assert (Forall byte (0 :: rsaSequence)) as Hbkey
    by (constructor; [unfold byte; lia|done]).
  assert (Forall byte bitString) as Hbbits.
  { subst bitString. constructor; [unfold byte; lia|].
    apply Forall_app. split; [apply encodeLength_bytes|done]. }
  set (finalSequence := rsaOID ++ bitString).
  assert (length finalSequence = (15 + length bitString)%nat) as Hfinal
    by (subst finalSequence; by rewrite length_app).
  assert (Forall byte finalSequence) as Hbfinal.
  { subst finalSequence. apply Forall_app. split; [|done].
    unfold rsaOID. repeat (constructor; [unfold byte; lia|]). constructor. }
  rewrite read_tlv_encode_all by (numerals; first [lia|done]).
  subst finalSequence. rewrite read_tlv_rsaOID.
  rewrite bool_decide_eq_true_2 by done. cbn [negb].
  subst bitString.
  replace (Z.of_nat (length rsaSequence) + 1)
    with (Z.of_nat (length (0 :: rsaSequence))) by (cbn [length]; lia).
  rewrite read_tlv_encode_all by (cbn [length]; numerals; first [lia|done]).
  subst rsaSequence.
  rewrite read_tlv_encode_all by (numerals; first [lia|done]).
  subst sequence. rewrite !encodeInteger_eq.
  pose proof (length_padded n). pose proof (length_padded e).
  change ((2 :: encodeLength (Z.of_nat (length (padded n))) ++ padded n)
          ++ 2 :: encodeLength (Z.of_nat (length (padded e))) ++ padded e)
    with (2 :: (encodeLength (Z.of_nat (length (padded n))) ++ padded n)
            ++ 2 :: encodeLength (Z.of_nat (length (padded e))) ++ padded e).
  rewrite <- app_assoc.
  rewrite read_tlv_encode by (numerals; first [lia|by apply padded_bytes]).
  by rewrite read_tlv_encode_all by (numerals; first [lia|by apply padded_bytes]).
Qed.

Lemma read_spki_createRSAPublicKeyDER n e :
  Forall byte n -> Forall byte e ->
  Z.of_nat (length n) + Z.of_nat (length e) < 2 ^ 30 ->
  read_spki (createRSAPublicKeyDER n e)
  = match n, e with
    | _ :: _, _ :: _ => Some (be_value n, be_value e)
    | _, _ => None
    end.
Proof.
  intros Hn He H. unfold read_spki.
  rewrite read_integers_createRSAPublicKeyDER by done.
  rewrite !int_value_padded. by destruct n, e.
Qed.

(** When [encodeInteger] writes minimal contents: always, but for no bytes
    and for a zero byte in front of a byte below 0x80. *)
Lemma minimal_integer_padded_false bytes :
  minimal_integer (padded bytes) = false
  <-> bytes = [] \/ exists c rest, bytes = 0 :: c :: rest /\ c < 128.
Proof.
  unfold padded, needsPadding.
  destruct bytes as [|b [|c rest]].
  - split; [by left|done].
  - split; [|by intros [|(? & ? & ? & _)]].
    destruct (Z.leb_spec 128 b) as [Hb|Hb]; [|done].
    cbn [minimal_integer]. by destruct (Z.ltb_spec b 128); [lia|].
  - destruct (Z.leb_spec 128 b) as [Hb|Hb]; cbn [minimal_integer].
    + destruct (Z.ltb_spec b 128); [lia|]. cbn.
      split; [done|]. intros [|(? & ? & [= -> _ _] & _)]; [done|lia].
    + destruct (Z.eqb_spec b 255); [lia|]. cbn [andb negb]. rewrite andb_true_r.
      destruct (Z.eqb_spec b 0) as [->|Hb0]; cbn [andb negb].
      * destruct (Z.ltb_spec c 128); cbn [negb].
        -- split; [|done]. intros _. right. by exists c, rest.
        -- split; [done|]. intros [|(? & ? & [= -> _] & ?)]; [done|lia].
      * split; [done|]. intros [|(? & ? & [= -> _ _] & _)]; done.
Qed.

(** What [encodeInteger] writes for an integer in its shortest form is
    minimal. *)
Lemma minimal_integer_padded bytes :
  canonical bytes = true -> minimal_integer (padded bytes) = true.
Proof.
  intros Hc. destruct (minimal_integer (padded bytes)) eqn:Hm; [done|].
  apply minimal_integer_padded_false in Hm as [->|(c & rest & -> & _)]; done.
Qed.

Lemma read_spki_strict_createRSAPublicKeyDER n e :
  Forall byte n -> Forall byte e ->
  Z.of_nat (length n) + Z.of_nat (length e) < 2 ^ 30 ->
  read_spki_strict (createRSAPublicKeyDER n e)
  = if minimal_integer (padded n) && minimal_integer (padded e)
    then Some (be_value n, be_value e) else None.
Proof.
  intros Hn He H. unfold read_spki_strict.
  rewrite read_integers_createRSAPublicKeyDER by done.
  destruct (minimal_integer (padded n)) eqn:Hmn; [|done].
  destruct (minimal_integer (padded e)) eqn:Hme; [|done].
  rewrite !int_value_padded. cbn [andb].
  destruct n; [done|]. by destruct e.
Qed.

(** Claim C8, as amended. [encodeInteger] writes one zero byte before the
    bytes when the first byte is at least 0x80 and none otherwise;
    [encodeLength] writes a length below 128 as that one byte, and a length
    from 128 on (below 2 ^ 31, as the lengths of the arrays at hand are) as
    0x80 plus the count of the bytes that follow, which are the big-endian
    digits of the length, each a byte, without a leading zero; 200 gives
    0x81, 0xC8. Reading [createRSAPublicKeyDER n e] back as a
    SubjectPublicKeyInfo: the reader of DER returns the unsigned values of
    [n] and [e] exactly when the contents written for both are minimal, and
    nothing otherwise; they are minimal unless the bytes are none or begin
    with a zero byte followed by a byte below 0x80, so they are for every
    integer in its shortest form. A reader that tolerates redundant leading
    bytes returns the two values whenever [n] and [e] have at least one
    byte, and nothing otherwise. *)
Theorem der_encoding (bytes : list Z) :
  (forall b rest, bytes = b :: rest -> 128 <= b ->
     encodeInteger bytes
     = 2 :: encodeLength (Z.of_nat (length bytes) + 1) ++ 0 :: bytes)
  /\ ((bytes = [] \/ exists b rest, bytes = b :: rest /\ b < 128) ->
      encodeInteger bytes
      = 2 :: encodeLength (Z.of_nat (length bytes)) ++ bytes)
  /\ (forall len, 0 <= len < 128 -> encodeLength len = [len])
  /\ (forall len, 128 <= len < 2 ^ 31 ->
        exists digits,
          encodeLength len = (128 + Z.of_nat (length digits)) :: digits
          /\ (1 <= length digits <= 4)%nat
          /\ Forall byte digits
          /\ be_value digits = len
          /\ List.hd 0 digits <> 0)
  /\ encodeLength 200 = [129; 200]
  /\ (forall exponent,
        Forall byte bytes -> Forall byte exponent ->
        Z.of_nat (length bytes) + Z.of_nat (length exponent) < 2 ^ 30 ->
        read_spki_strict (createRSAPublicKeyDER bytes exponent)
        = (if minimal_integer (padded bytes)
              && minimal_integer (padded exponent)
           then Some (be_value bytes, be_value exponent) else None)
        /\ read_spki (createRSAPublicKeyDER bytes exponent)
           = match bytes, exponent with
             | _ :: _, _ :: _ => Some (be_value bytes, be_value exponent)
             | _, _ => None
             end)
  /\ (minimal_integer (padded bytes) = false
      <-> bytes = [] \/ exists c rest, bytes = 0 :: c :: rest /\ c < 128)
  /\ (canonical bytes = true -> minimal_integer (padded bytes) = true).
Proof.
  split; [|split; [|split; [|split; [|split; [|split; [|split]]]]]].
  - intros b rest -> Hb. unfold encodeInteger, needsPadding.
    destruct (Z.leb_spec 128 b); [|lia].
    do 3 f_equal. cbn [length]. lia.
  - intros [->|(b & rest & -> & Hb)]; [done|].
    unfold encodeInteger, needsPadding.
    by destruct (Z.leb_spec 128 b); [lia|].
  - apply encodeLength_short.
  - apply encodeLength_long.
  - reflexivity.
  - intros exponent Hb He Hlen. split.
    + by apply read_spki_strict_createRSAPublicKeyDER.
    + by apply read_spki_createRSAPublicKeyDER.
  - apply minimal_integer_padded_false.
  - apply minimal_integer_padded.
Qed.

Lemma Forall_byte_decide bytes : forallb is_byte bytes = true -> Forall byte bytes.
Proof.
  induction bytes as [|b bytes IH]; [constructor|]. cbn [forallb].
  intros [Hb Hr]%andb_true_iff. constructor; [by apply is_byte_spec|by apply IH].
Qed.

(** C8 at an integer with the top bit set, at 65537, and at a modulus of
    256 bytes in its shortest form. *)
Lemma der_encoding_witness :
  encodeInteger [128; 0; 1] = [2; 4; 0; 128; 0; 1]
  /\ encodeInteger [1; 0; 1] = [2; 3; 1; 0; 1]
  /\ read_spki_strict (createRSAPublicKeyDER (200 :: repeat 65 255) [1; 0; 1])
     = Some (be_value (200 :: repeat 65 255), 65537).
Proof.
  split; [|split].
  - apply (proj1 (der_encoding [128; 0; 1]) 128 [0; 1]); [done|lia].
  - apply (proj1 (proj2 (der_encoding [1; 0; 1]))). right.
    exists 1, [0; 1]. split; [done|lia].
  - apply (proj1 (proj1 (proj2 (proj2 (proj2 (proj2 (proj2
             (der_encoding (200 :: repeat 65 255)))))))
             [1; 0; 1]
             (Forall_byte_decide (200 :: repeat 65 255) eq_refl)
             (Forall_byte_decide [1; 0; 1] eq_refl) eq_refl)).
Defined.

(** The modulus of the key of the tests begins with a zero byte followed by
    0x41: [jwkToPem] accepts the key, and the INTEGER it writes for the
    modulus has a redundant leading zero, so that the reader of DER refuses
    the structure, which the tolerant reader takes. An exponent of four
    blanks decodes to no bytes, for which an INTEGER without contents is
    written, which no reader takes. *)
Lemma der_round_trip_counterexample :
  jwkToPem (test_jwk "test-key-id" 256)
  = Ok (pem_of (test_modulus 256) [1; 0; 1])
  /\ take 6 (encodeInteger (test_modulus 256)) = [2; 130; 1; 0; 0; 65]
  /\ read_spki_strict (createRSAPublicKeyDER (test_modulus 256) [1; 0; 1])
     = None
  /\ read_spki (createRSAPublicKeyDER (test_modulus 256) [1; 0; 1])
     = Some (be_value (test_modulus 256), 65537)
  /\ Base64.base64urlToArrayBuffer "    " = Ok []
  /\ encodeInteger [] = [2; 0]
  /\ read_spki (createRSAPublicKeyDER (200 :: repeat 65 255) []) = None
  /\ read_spki_strict (createRSAPublicKeyDER (200 :: repeat 65 255) []) = None.
Proof. repeat split; vm_compute; reflexivity. Qed.

(** *** Key strength *)

Lemma truthy_btoa bytes : bytes <> [] -> truthy (Base64.btoa bytes) = true.
Proof. destruct bytes as [|a [|b [|c r]]]; done. Qed.

(** Claim C7, as amended. For every JWK whose [n] and [e] are present and
    decode from base64url: [jwkToPem] throws the weak-key error exactly when
    eight times the number of bytes of the decoded modulus is below 2048,
    and returns the PEM text of the key exactly otherwise; a modulus of 128
    bytes is rejected as one of 1024 bits and one of 256 bytes is accepted.
    The number of bits of the modulus itself is at most that measure, and
    equal to it exactly when the first byte has its top bit set: a rejected
    modulus has fewer than 2048 bits and a modulus of at least 2048 bits is
    accepted, but a modulus of 256 bytes or more is accepted however few of
    its bits count. For a modulus without a zero byte in front the weak-key
    error is thrown exactly when it has at most 2040 bits. *)
Theorem weak_key_rejection (jwk : JWKSKey) (n_ e_ : string)
    (nBuffer eBuffer : list Z) :
  n jwk = Some n_ -> truthy n_ = true ->
  e jwk = Some e_ -> truthy e_ = true ->
  Base64.base64urlToArrayBuffer n_ = Ok nBuffer ->
  Base64.base64urlToArrayBuffer e_ = Ok eBuffer ->
  let keyBitLength := Z.of_nat (length nBuffer) * 8 in
  (jwkToPem jwk = throw_error (weak_key_message keyBitLength)
   <-> keyBitLength < 2048)
  /\ (jwkToPem jwk = Ok (pem_of nBuffer eBuffer) <-> 2048 <= keyBitLength)
  /\ (length nBuffer = 128%nat ->
      jwkToPem jwk = throw_error (weak_key_message 1024))
  /\ (length nBuffer = 256%nat -> jwkToPem jwk = Ok (pem_of nBuffer eBuffer))
  /\ 0 <= bit_length nBuffer <= keyBitLength
  /\ (bit_length nBuffer = keyBitLength
      <-> nBuffer = [] \/ needsPadding nBuffer = true)
  /\ (jwkToPem jwk = throw_error (weak_key_message keyBitLength) ->
      bit_length nBuffer < 2048)
  /\ (2048 <= bit_length nBuffer ->
      jwkToPem jwk = Ok (pem_of nBuffer eBuffer))
  /\ (canonical nBuffer = true ->
      (jwkToPem jwk = throw_error (weak_key_message keyBitLength)
       <-> bit_length nBuffer <= 2040)).
Proof.
  intros Hn Htn He Hte Hnb Heb keyBitLength.
  assert (jwkToPem jwk
          = if keyBitLength <? 2048
            then throw_error (weak_key_message keyBitLength)
            else Ok (pem_of nBuffer eBuffer)) as Hpem.
  { unfold jwkToPem, present. rewrite Hn, Htn, He, Hte, Hnb.
    cbn [Js.bind]. fold keyBitLength.
    destruct (keyBitLength <? 2048); [done|].
    rewrite Heb. cbn [Js.bind]. unfold Base64.arrayBufferToBase64.
    by rewrite truthy_btoa. }
  pose proof (base64urlToArrayBuffer_bytes _ _ Hnb) as Hbytes.
  pose proof (bit_length_le nBuffer Hbytes) as Hbits. fold keyBitLength in Hbits.
  assert (bit_length nBuffer = keyBitLength
          <-> nBuffer = [] \/ needsPadding nBuffer = true) as Hfull.
  { subst keyBitLength. destruct nBuffer as [|b rest].
    - split; [by left|done].
    - rewrite (bit_length_full b rest Hbytes). cbn [needsPadding].
      split; [intros ?; right; lia|]. intros [|?]; [done|lia]. }
  assert (canonical nBuffer = true -> 2048 <= keyBitLength ->
          keyBitLength - 7 <= bit_length nBuffer) as Hcan.
  { intros Hc Hge. apply bit_length_canonical; [done|done|].
    subst keyBitLength. lia. }
  rewrite Hpem.
  destruct (Z.ltb_spec keyBitLength 2048) as [Hlt|Hge].
  - split; [done|]. split; [split; [done|lia]|].
    split; [intros Hlen; subst keyBitLength; by rewrite Hlen|].
    split; [subst keyBitLength; lia|].
    split; [done|]. split; [done|]. split; [lia|]. split; [lia|].
    intros _. split; [|done]. intros _. subst keyBitLength. lia.
  - split; [split; [done|lia]|]. split; [done|].
    split; [subst keyBitLength; lia|]. split; [done|].
    split; [done|]. split; [done|]. split; [done|]. split; [done|].
    intros Hc. specialize (Hcan Hc Hge). split; [done|].
    intros Hbits'. subst keyBitLength. lia.
Qed.

(** C7 at the weak and the valid key of the tests. *)
Lemma weak_key_rejection_witness :
  jwkToPem (test_jwk "weak-key-id" 128)
  = throw_error "RSA key too weak: 1024 bits. 2048 bits minimum required."
  /\ jwkToPem (test_jwk "test-key-id" 256)
     = Ok (pem_of (test_modulus 256) [1; 0; 1]).
Proof.
  split.
  - refine (proj1 (proj2 (proj2 (weak_key_rejection
             (test_jwk "weak-key-id" 128) _ "AQAB" (test_modulus 128)
             [1; 0; 1] eq_refl _ eq_refl eq_refl _ _))) _);
      by vm_compute.
  - refine (proj1 (proj2 (proj2 (proj2 (weak_key_rejection
             (test_jwk "test-key-id" 256) _ "AQAB" (test_modulus 256)
             [1; 0; 1] eq_refl _ eq_refl eq_refl _ _)))) _);
      by vm_compute.
Defined.

(** The modulus of the valid key of the tests has 2039 bits, the modulus 1
    written on 256 bytes has one, and 0x7F followed by 255 bytes 0xFF is a
    modulus of 2047 bits without a zero byte in front: [jwkToPem] accepts
    all three. *)
Lemma weak_key_counterexample :
  Base64.base64urlToArrayBuffer (standard_to_url (Base64.btoa (test_modulus 256)))
  = Ok (test_modulus 256)
  /\ bit_length (test_modulus 256) = 2039
  /\ jwkToPem (test_jwk "test-key-id" 256)
     = Ok (pem_of (test_modulus 256) [1; 0; 1])
  /\ Base64.base64urlToArrayBuffer (standard_to_url (Base64.btoa padded_one))
     = Ok padded_one
  /\ bit_length padded_one = 1
  /\ jwkToPem (jwk_of "one" padded_one) = Ok (pem_of padded_one [1; 0; 1])
  /\ Base64.base64urlToArrayBuffer
       (standard_to_url (Base64.btoa (127 :: repeat 255 255)))
     = Ok (127 :: repeat 255 255)
  /\ canonical (127 :: repeat 255 255) = true
  /\ bit_length (127 :: repeat 255 255) = 2047
  /\ jwkToPem (jwk_of "short" (127 :: repeat 255 255))
     = Ok (pem_of (127 :: repeat 255 255) [1; 0; 1]).
Proof. repeat split; vm_compute; reflexivity. Qed.

End DERFacts.

(** ** The JWKS client *)

Module JWKSClientFacts.

Import JWKSClient LRUCacheInv LRUCacheFacts DERFacts JWKSClientInv.

Lemma remove_absent es k : Model.lookup es k = None -> Model.remove es k = es.
Proof.
  intros Hl%lookup_None_keys. unfold Model.remove.
  induction es as [|e es IH]; simpl; [done|].
  unfold Model.keys in Hl. simpl in Hl. apply not_elem_of_cons in Hl as [Hne Hl].
  unfold Model.has_key at 1.
  destruct (String.eqb_spec e.1.1 k); [congruence|]. simpl. by rewrite IH.
Qed.

Lemma values_nonempty_remove es k :
  values_nonempty es -> values_nonempty (Model.remove es k).
Proof.
  unfold values_nonempty, Model.remove. rewrite !Forall_forall.
  intros H e He. apply H. apply list_elem_of_In.
  apply list_elem_of_In in He. by apply filter_In in He as [? _].
Qed.

Lemma values_nonempty_lookup es k e :
  values_nonempty es -> Model.lookup es k = Some e -> e.1.2 <> "".
Proof.
  unfold values_nonempty, Model.lookup. rewrite Forall_forall.
  intros H [Hin _]%find_some. apply H. by apply list_elem_of_In.
Qed.

Lemma values_nonempty_removelast es :
  values_nonempty es -> values_nonempty (removelast es).
Proof.
  unfold values_nonempty. rewrite !Forall_forall.
  intros H e He. apply H. clear H.
  induction es as [|x [|y es] IH]; simpl in *.
  - by apply elem_of_nil in He.
  - by apply elem_of_nil in He.
  - apply elem_of_cons in He as [->|He]; [left|right; by apply IH].
Qed.

Lemma values_nonempty_get ttl es k now :
  values_nonempty es -> values_nonempty (Model.get ttl es k now).2.
Proof.
  intros H. unfold Model.get.
  destruct (Model.lookup es k) as [[[k0 v0] la0]|] eqn:Hl; [|done].
  pose proof (values_nonempty_lookup _ _ _ H Hl) as Hv.
  destruct (ttl_exceeded _ _ _); cbn [snd].
  - by apply values_nonempty_remove.
  - apply Forall_cons. split; [done|]. by apply values_nonempty_remove.
Qed.

Lemma values_nonempty_set maxSize es k v now :
  v <> "" -> values_nonempty es ->
  values_nonempty (Model.set maxSize es k v now).
Proof.
  intros Hv H. unfold Model.set.
  destruct (Model.lookup es k) as [[[k0 v0] la0]|] eqn:Hl.
  - pose proof (values_nonempty_lookup _ _ _ H Hl) as Hv0.
    apply Forall_cons. split; [done|]. by apply values_nonempty_remove.
  - cbv zeta. assert (values_nonempty ((k, v, now) :: es)) as H'
      by (by apply Forall_cons).
    destruct (_ >? _); [by apply values_nonempty_removelast|done].
Qed.

Lemma pem_nonempty jwk pem : jwkToPem jwk = Ok pem -> pem <> "".
Proof.
  unfold jwkToPem.
  destruct (present (n jwk)); [|done]. destruct (present (e jwk)); [|done].
  destruct (Base64.base64urlToArrayBuffer _); [|done]. cbn [Js.bind].
  destruct (_ <? _); [done|].
  destruct (Base64.base64urlToArrayBuffer _); [|done]. cbn [Js.bind].
  destruct (negb _); [done|]. intros Heq ->. discriminate Heq.
Qed.

Lemma selectKey_nonempty jwks kid_ pem : selectKey jwks kid_ = Ok pem -> pem <> "".
Proof.
  unfold selectKey. destruct jwks as [keys|]; [|done].
  destruct (List.find _ keys); [|done].
  destruct (negb _); [done|]. apply pem_nonempty.
Qed.

(** Every fetch with retry calls [fetch] at least once. *)
Lemma fetchJwksWithRetry_from_calls net remaining calls :
  (1 <= remaining)%nat ->
  (calls < (fetchJwksWithRetry_from net remaining calls).2)%nat.
Proof.
  revert calls. induction remaining as [|r IH]; intros calls Hr; [lia|].
  cbn [fetchJwksWithRetry_from].
  destruct (attempt_fetch (net calls)); [cbn [snd]; lia|].
  destruct r as [|r]; [cbn [snd]; lia|].
  specialize (IH (S calls) ltac:(lia)). lia.
Qed.

Lemma fetchJwksWithRetry_calls net calls :
  (calls < (fetchJwksWithRetry net calls).2)%nat.
Proof. apply fetchJwksWithRetry_from_calls. unfold jwksMaxAttempts. lia. Qed.

(** The three ways the initial lookup can end. *)
Lemma lookup_cases c kid_ t_get :
  client_ok c ->
  let g := LRUCache.get (cache c) kid_ t_get in
  Inv g.2 /\ values_nonempty (entries g.2)
  /\ ((exists v la, Model.lookup (entries (cache c)) kid_ = Some (kid_, v, la)
                   /\ present g.1 = Some v
                   /\ ttl_exceeded (LRUCache.ttl (cache c)) t_get la = false)
      \/ (present g.1 = None
          /\ entries g.2 = Model.remove (entries (cache c)) kid_
          /\ LRUCache.cache g.2 !! kid_ = None)).
Proof.
  intros [HI Hv] g.
  destruct (get_refines (cache c) kid_ t_get HI) as (Hr & He & HI' & _).
  fold g in Hr, He, HI'.
  split; [done|]. split; [rewrite He; by apply values_nonempty_get|].
  assert (kid_ ∉ keys g.2 -> LRUCache.cache g.2 !! kid_ = None) as Hnone.
  { intros Hk. destruct (LRUCache.cache g.2 !! kid_) eqn:Hc; [|done].
    exfalso. apply Hk. apply (Inv_cache_lookup _ _ HI'). eauto. }
  unfold Model.get in Hr, He.
  destruct (Model.lookup (entries (cache c)) kid_) as [[[k0 v0] la0]|] eqn:Hl.
  - pose proof (lookup_Some_key _ _ _ Hl) as Hk. simpl in Hk. subst k0.
    pose proof (values_nonempty_lookup _ _ _ Hv Hl) as Hv0. simpl in Hv0.
    destruct (ttl_exceeded _ _ _) eqn:Ht; cbn [fst snd] in Hr, He.
    + right. rewrite Hr. split; [done|]. split; [done|].
      apply Hnone. unfold keys. rewrite He. apply notin_keys_remove.
    + left. exists v0, la0. split; [done|]. split; [|done].
      rewrite Hr. unfold present. by destruct v0.
  - cbn [fst snd] in Hr, He. right. rewrite Hr. split; [done|].
    split; [by rewrite He, remove_absent|].
    apply Hnone. unfold keys. rewrite He. by apply lookup_None_keys.
Qed.

Lemma getSigningKey_unfold net c calls kid_ t_get t_set :
  getSigningKey net c calls kid_ t_get t_set
  = let g := LRUCache.get (cache c) kid_ t_get in
    match present g.1 with
    | Some key => (Ok key, mkClient g.2 (jwksUri c), calls)
    | None =>
        let f := fetchJwksWithRetry net calls in
        match (let! jwks := f.1 in selectKey jwks kid_) with
        | Throw error => (Throw error, mkClient g.2 (jwksUri c), f.2)
        | Ok publicKey =>
            (Ok publicKey,
             mkClient (LRUCache.set g.2 kid_ publicKey t_set) (jwksUri c),
             f.2)
        end
    end.
Proof.
  unfold getSigningKey.
  destruct (LRUCache.get (cache c) kid_ t_get) as [r c1].
  by destruct (fetchJwksWithRetry net calls) as [f n].
Qed.

Lemma client_ok_getSigningKey net c calls kid_ t_get t_set :
  client_ok c -> client_ok (getSigningKey net c calls kid_ t_get t_set).1.2.
Proof.
  intros Hok. rewrite getSigningKey_unfold. cbv zeta.
  destruct (lookup_cases c kid_ t_get Hok) as (HI & Hv & _).
  destruct (present _) as [key|]; [done|].
  destruct (Js.bind _ _) as [publicKey|error] eqn:Hsel; [|done].
  unfold client_ok. cbn [fst snd cache].
  assert (publicKey <> "") as Hpk.
  { destruct (fetchJwksWithRetry net calls).1 as [jwks|]; [|done].
    by apply selectKey_nonempty in Hsel. }
  destruct (set_refines _ kid_ publicKey t_set HI) as (He & HI' & _).
  split; [done|]. rewrite He. by apply values_nonempty_set.
Qed.

Lemma reachable_ok c : reachable c -> client_ok c.
Proof.
  induction 1 as [config c Hc|net c calls kid_ t_get t_set _ IH|c _ IH].
  - unfold constructor in Hc.
    destruct (cfg_jwksUri config) as [uri|]; [|done].
    destruct (negb _); [done|].
    destruct (LRUCache.constructor _) as [c0|] eqn:Hc0; [|done].
    injection Hc as <-. unfold client_ok. cbn [cache].
    destruct (constructor_refines _ _ Hc0) as (He & HI & _).
    split; [done|]. rewrite He. apply Forall_nil_2.
  - by apply client_ok_getSigningKey.
  - destruct IH as [HI _]. unfold client_ok, clear. cbn [cache].
    destruct (clear_refines _ HI) as (He & HI' & _).
    split; [done|]. rewrite He. apply Forall_nil_2.
Qed.

(** Claim C6, as amended. For every reachable client: when
    [getSigningKey] fails, nothing was written to the cache, which is as
    the initial lookup left it: the entries of the other identifiers are as
    they were, there is no entry for the identifier, and the cache is
    unchanged if the identifier was not cached (an expired entry of the
    identifier is dropped by the lookup); at least one fetch was made, and a
    later call for the same identifier fetches again. When it succeeds, the
    key came from the cache, or it was fetched, found, checked and encoded,
    and it is the value now stored for the identifier. *)
Theorem failed_key_is_not_cached (net : network) (c : JWKSClient.t)
    (calls : nat) (kid_ : string) (t_get t_set : Z) :
  reachable c ->
  let '(result, c', calls') := getSigningKey net c calls kid_ t_get t_set in
  match result with
  | Throw _ =>
      cache c' = (LRUCache.get (cache c) kid_ t_get).2
      /\ entries (cache c') = Model.remove (entries (cache c)) kid_
      /\ LRUCache.cache (cache c') !! kid_ = None
      /\ (LRUCache.cache (cache c) !! kid_ = None -> c' = c)
      /\ (calls < calls')%nat
      /\ forall net2 t3 t4,
           (calls' < (getSigningKey net2 c' calls' kid_ t3 t4).2)%nat
  | Ok publicKey =>
      (calls' = calls
       /\ exists la, Model.lookup (entries (cache c)) kid_
                     = Some (kid_, publicKey, la))
      \/ (exists jwks,
            (fetchJwksWithRetry net calls).1 = Ok jwks
            /\ selectKey jwks kid_ = Ok publicKey
            /\ cache c'
               = LRUCache.set (LRUCache.get (cache c) kid_ t_get).2 kid_
                   publicKey t_set
            /\ Model.lookup (entries (cache c')) kid_
               = Some (kid_, publicKey, t_set))
  end.
Proof.
  intros Hr. pose proof (reachable_ok c Hr) as Hok.
  rewrite getSigningKey_unfold. cbv zeta.
  destruct (lookup_cases c kid_ t_get Hok) as (HI & Hv & Hcases).
  destruct Hcases as [(v & la & Hl & -> & _)|(-> & He & Hnone)].
  { left. split; [done|]. eauto. }
  destruct (Js.bind _ _) as [publicKey|error] eqn:Hsel.
  - right. destruct (fetchJwksWithRetry net calls).1 as [jwks|] eqn:Hf;
      [|done].
    exists jwks. split; [done|]. split; [done|]. split; [done|].
    cbn [cache].
    destruct (set_refines _ kid_ publicKey t_set HI) as (-> & _).
    rewrite lookup_set by (by destruct HI as (_ & _ & ?)).
    unfold stored. rewrite He.
    assert (Model.lookup (Model.remove (entries (cache c)) kid_) kid_ = None)
      as ->; [|done].
    apply lookup_None_keys, notin_keys_remove.
  - cbn [cache]. split; [done|]. split; [done|]. split; [done|].
    split; [|split].
    + intros Habs. unfold LRUCache.get. rewrite Habs. by destruct c.
    + apply fetchJwksWithRetry_calls.
    + intros net2 t3 t4. rewrite getSigningKey_unfold. cbv zeta.
      cbn [cache].
      assert (LRUCache.get (LRUCache.get (cache c) kid_ t_get).2 kid_ t3
              = (None, (LRUCache.get (cache c) kid_ t_get).2)) as ->.
      { unfold LRUCache.get at 1. by rewrite Hnone. }
      cbn [fst snd present].
      match goal with
      | |- context [match ?b with Ok _ => _ | Throw _ => _ end] => destruct b
      end; cbn [snd]; apply fetchJwksWithRetry_calls.
Qed.

Lemma test_client_reachable ttl_ :
  (forall x, ttl_ = Some x -> number_truthy x = false) -> reachable (test_client ttl_).
Proof.
  intros H.
  apply (reachable_new (mkConfig (Some "https://issuer/jwks") None ttl_)).
  unfold constructor. cbn [cfg_jwksUri cfg_cacheMaxSize cfg_cacheTtl].
  change (negb (truthy (trim "https://issuer/jwks"))) with false. cbv iota.
  unfold LRUCache.constructor.
  cbn [opt_maxSize opt_ttl number_truthy isInteger number_le0 negb orb].
  change (20 <=? 0) with false. change (20 =? 0) with false. cbn [negb orb].
  destruct ttl_ as [x|]; [|done].
  rewrite (H x eq_refl). done.
Qed.

(** C6 at a new client and a network that is down. *)
Lemma failed_key_is_not_cached_witness :
  let '(result, c', calls') :=
    getSigningKey net_down (test_client None) 0 "test-key-id" 5 6 in
  c' = test_client None /\ (0 < calls')%nat.
Proof.
  pose proof (failed_key_is_not_cached net_down (test_client None) 0
                "test-key-id" 5 6
                (test_client_reachable None ltac:(done))) as H.
  destruct (getSigningKey net_down (test_client None) 0 "test-key-id" 5 6)
    as [[result c'] calls'] eqn:Hg.
  assert (exists e, result = Throw e) as [e ->].
  { vm_compute in Hg. injection Hg as <- _ _. eauto. }
  destruct H as (_ & _ & _ & Hsame & Hcalls & _).
  split; [|done]. apply Hsame. reflexivity.
Defined.

(** With a time to live of one hundred, a key cached at 0 has expired at
    500: the lookup of the failing call drops it, and the cache is not as
    it was before the call. *)
Lemma failed_lookup_counterexample :
  let c0 := test_client (Some (Int 100)) in
  let r1 := getSigningKey net_up c0 0 "test-key-id" 0 0 in
  let r2 := getSigningKey net_down r1.1.2 r1.2 "test-key-id" 500 500 in
  (exists key, r1.1.1 = Ok key)
  /\ getCacheStats r1.1.2 = (1, 20)
  /\ (exists error, r2.1.1 = Throw error)
  /\ getCacheStats r2.1.2 = (0, 20)
  /\ cache r2.1.2 <> cache r1.1.2.
Proof.
  cbv zeta.
  assert (getCacheStats
            (getSigningKey net_up (test_client (Some (Int 100))) 0
               "test-key-id" 0 0).1.2 = (1, 20)) as H1 by (by vm_compute).
  assert (getCacheStats
            (getSigningKey net_down
               (getSigningKey net_up (test_client (Some (Int 100))) 0
                  "test-key-id" 0 0).1.2
               (getSigningKey net_up (test_client (Some (Int 100))) 0
                  "test-key-id" 0 0).2 "test-key-id" 500 500).1.2
          = (0, 20)) as H2 by (by vm_compute).
  split; [vm_compute; eauto|]. split; [done|].
  split; [vm_compute; eauto|]. split; [done|].
  intros Heq. unfold getCacheStats in H1, H2. rewrite Heq in H2. congruence.
Qed.

End JWKSClientFacts.

(** * Further properties of the code *)

(** ** The linked-list cache: structure, removal, recency *)

Module LRUCacheLaws.

Import LRUCache LRUCacheInv LRUCacheFacts.

Lemma keys_ents h l : Model.keys (ents h l) = List.map (fun p => (dat h p).1.1) l.
Proof. unfold Model.keys, ents. by rewrite List.map_map. Qed.

Lemma Inv_NoDup_keys c : Inv c -> NoDup (keys c).
Proof.
  intros (Hs & _). unfold keys. rewrite (shape_entries c _ Hs), keys_ents.
  pose proof (shape_nodup _ _ Hs) as Hnd.
  apply NoDup_cons in Hnd as [_ Hnd]. apply NoDup_app in Hnd as (Hnd & _ & _).
  apply (NoDup_fmap_2_strong (fun p => (dat (heap c) p).1.1)); [|done].
  intros p q Hp Hq. by apply (shape_key_inj c (order c)).
Qed.

(** Property X1. In every reachable cache of the first class the list
    between the two sentinels is well formed: following [next] from [head]
    visits distinct nodes and ends at [tail], [prev] mirrors [next], the
    hash map sends each key to the node of the list that holds it and to no
    other, no key occurs twice, and [size()] is the number of nodes, at most
    [maxSize]. *)
Theorem linked_list_well_formed (c : t) :
  reachable c ->
  let l := order c in
  NoDup (head c :: l ++ [tail c])
  /\ chain (heap c) (head c :: l ++ [tail c])
  /\ (forall k p,
        cache c !! k = Some p
        <-> p ∈ l /\ exists n, heap c !! p = Some n /\ key n = k)
  /\ NoDup (keys c)
  /\ size_ c = Z.of_nat (length l)
  /\ size_ c <= maxSize c.
Proof.
  intros Hr l. pose proof (reachable_Inv c Hr) as HI.
  destruct HI as (Hs & Hlen & Hmax).
  split; [apply (shape_nodup _ _ Hs)|].
  split; [apply (shape_chain _ _ Hs)|].
  split.
  { intros k p. rewrite (shape_index _ _ Hs k p). split.
    - intros [Hp Hk]. split; [done|].
      destruct (shape_allocated c l p Hs) as [n Hn].
      { apply elem_of_cons. right. apply elem_of_app. by left. }
      exists n. split; [done|]. unfold dat in Hk.
      by rewrite (lookup_total_correct _ _ _ Hn) in Hk.
    - intros [Hp (n & Hn & Hk)]. split; [done|]. unfold dat.
      by rewrite (lookup_total_correct _ _ _ Hn). }
  split; [by apply Inv_NoDup_keys|].
  split; [|unfold size_; rewrite (shape_size _ _ Hs); done].
  unfold size_. by rewrite (shape_size _ _ Hs).
Qed.

(** X1 at a cache of capacity two holding two keys. *)
Lemma linked_list_well_formed_witness :
  let c := set (set (empty_cache 2 None) "a" "1" 1) "b" "2" 2 in
  NoDup (keys c) /\ size_ c <= maxSize c.
Proof.
  cbv zeta.
  destruct (linked_list_well_formed
              (set (set (empty_cache 2 None) "a" "1" 1) "b" "2" 2))
    as (_ & _ & _ & Hnd & _ & Hsz); [|done].
  apply (reachable_step _ (CallSet "b" "2") 2).
  apply (reachable_step _ (CallSet "a" "1") 1).
  by apply (reachable_constructor (mkCacheOptions (Int 2) None)).
Defined.

(** *** Removal *)

Lemma lookup_remove_ne es k k' :
  k' <> k -> Model.lookup (Model.remove es k) k' = Model.lookup es k'.
Proof.
  intros Hne. unfold Model.lookup, Model.remove.
  induction es as [|e es IH]; [done|]. cbn [List.filter List.find].
  destruct (Model.has_key k e) eqn:Hk; cbn [negb List.find].
  - apply has_key_true in Hk.
    assert (Model.has_key k' e = false) as -> by (apply has_key_false; congruence).
    done.
  - destruct (Model.has_key k' e); [done|apply IH].
Qed.

Lemma remove_notin es k : k ∉ Model.keys es -> Model.remove es k = es.
Proof.
  unfold Model.remove, Model.keys. induction es as [|e es IH]; [done|].
  cbn [List.map List.filter]. intros [Hne Hin]%not_elem_of_cons.
  assert (Model.has_key k e = false) as -> by (apply has_key_false; congruence).
  cbn [negb]. by rewrite IH.
Qed.

Lemma length_remove es k :
  NoDup (Model.keys es) -> k ∈ Model.keys es ->
  S (length (Model.remove es k)) = length es.
Proof.
  unfold Model.keys. induction es as [|e es IH]; cbn [List.map].
  - intros _ Hin. by apply elem_of_nil in Hin.
  - intros [Hnotin Hnd]%NoDup_cons Hin. unfold Model.remove.
    cbn [List.filter]. destruct (Model.has_key k e) eqn:Hk; cbn [negb length].
    + apply has_key_true in Hk. subst k.
      fold (Model.remove es e.1.1). by rewrite remove_notin.
    + apply has_key_false in Hk.
      apply elem_of_cons in Hin as [?|Hin]; [congruence|].
      fold (Model.remove es k). by rewrite IH.
Qed.

Lemma get_absent c k now : cache c !! k = None -> get c k now = (None, c).
Proof. intros H. unfold get. by rewrite H. Qed.

Lemma has_absent c k now : cache c !! k = None -> has c k now = (false, c).
Proof. intros H. unfold has. by rewrite H. Qed.

Lemma Inv_cache_None c k : Inv c -> cache c !! k = None <-> k ∉ keys c.
Proof.
  intros HI. rewrite <- (Inv_cache_lookup c k HI).
  by rewrite eq_None_not_Some.
Qed.

(** Property X2. In every reachable cache of the first class, [delete(k)]
    answers [true] exactly when [k] is cached; it removes the entry of [k]
    and no other, keeps values, time stamps and order of the rest, lowers
    [size()] by one when it answers [true], leaves the cache as it was when
    [k] is not cached, and afterwards [get(k)] is [undefined] and [has(k)]
    is [false]. *)
Theorem delete_removes_one_key (c : t) (k : string) :
  reachable c ->
  let r := delete_ c k in
  (r.1 = true <-> k ∈ keys c)
  /\ entries r.2 = Model.remove (entries c) k
  /\ (forall k', k' <> k ->
        Model.lookup (entries r.2) k' = Model.lookup (entries c) k')
  /\ size_ r.2 = size_ c - (if r.1 then 1 else 0)
  /\ (forall now, get r.2 k now = (None, r.2) /\ has r.2 k now = (false, r.2))
  /\ (k ∉ keys c -> r.2 = c)
  /\ reachable r.2.
Proof.
  intros Hr r. pose proof (reachable_Inv c Hr) as HI.
  destruct (delete_refines c k HI) as (H1 & H2 & HI' & _). fold r in H1, H2, HI'.
  assert (entries r.2 = Model.remove (entries c) k) as Hent.
  { rewrite H2. unfold Model.delete.
    destruct (Model.lookup (entries c) k) eqn:Hl; [done|].
    apply lookup_None_keys in Hl. by rewrite remove_notin. }
  assert (k ∉ keys r.2) as Hnotin.
  { unfold keys. rewrite Hent. apply notin_keys_remove. }
  split; [|split; [done|split; [|split; [|split; [|split]]]]].
  - rewrite H1. unfold Model.delete.
    destruct (Model.lookup (entries c) k) eqn:Hl; cbn [fst].
    + split; [intros _|done]. apply dec_stable. intros Hn.
      apply lookup_None_keys in Hn. congruence.
    + split; [done|]. intros Hin. by apply lookup_None_keys in Hl.
  - intros k' Hne. rewrite Hent. by apply lookup_remove_ne.
  - rewrite (Inv_size _ HI'), (Inv_size _ HI), Hent, H1. unfold Model.delete.
    destruct (Model.lookup (entries c) k) eqn:Hl; cbn [fst].
    + assert (k ∈ Model.keys (entries c)) as Hin.
      { apply dec_stable. intros Hn. apply lookup_None_keys in Hn. congruence. }
      pose proof (length_remove _ k (Inv_NoDup_keys c HI) Hin). lia.
    + apply lookup_None_keys in Hl. rewrite remove_notin by done. lia.
  - intros now. apply (Inv_cache_None _ k HI') in Hnotin.
    split; [by apply get_absent|by apply has_absent].
  - intros Hk. apply (Inv_cache_None c k HI) in Hk.
    subst r. unfold delete_. by rewrite Hk.
  - apply (reachable_step c (CallDelete k) 0 Hr).
Qed.

(** X2 at a cache holding two keys, one of which is deleted. *)
Lemma delete_removes_one_key_witness :
  let c := set (set (empty_cache 2 None) "a" "1" 1) "b" "2" 2 in
  keys (delete_ c "a").2 = ["b"] /\ size_ (delete_ c "a").2 = 1.
Proof.
  cbv zeta.
  destruct (delete_removes_one_key
              (set (set (empty_cache 2 None) "a" "1" 1) "b" "2" 2) "a")
    as (_ & Hent & _ & Hsize & _).
  - apply (reachable_step _ (CallSet "b" "2") 2).
    apply (reachable_step _ (CallSet "a" "1") 1).
    by apply (reachable_constructor (mkCacheOptions (Int 2) None)).
  - split; [unfold keys; rewrite Hent|rewrite Hsize]; vm_compute; reflexivity.
Defined.

(** Property X3. In every reachable cache of the first class, [clear()]
    leaves no entry ([size()] is 0; [get], [has] and [delete] find nothing)
    and keeps [maxSize] and [ttl]; the cache is usable again: a [set] after
    it stores exactly its entry. *)
Theorem clear_empties (c : t) :
  reachable c ->
  let c' := clear c in
  size_ c' = 0 /\ entries c' = []
  /\ maxSize c' = maxSize c /\ ttl c' = ttl c
  /\ (forall k now, get c' k now = (None, c') /\ has c' k now = (false, c')
                    /\ delete_ c' k = (false, c'))
  /\ (forall k v now, entries (set c' k v now) = [(k, v, now)])
  /\ reachable c'.
Proof.
  intros Hr c'. pose proof (reachable_Inv c Hr) as HI.
  destruct (clear_refines c HI) as (Hent & HI' & Hm & Ht & _).
  fold c' in Hent, HI', Hm, Ht.
  split; [by rewrite (Inv_size _ HI'), Hent|].
  split; [done|]. split; [done|]. split; [done|].
  assert (forall k, cache c' !! k = None) as Hnone by (intros k; apply lookup_empty).
  split; [|split].
  - intros k now. split; [by apply get_absent|].
    split; [by apply has_absent|]. unfold delete_. by rewrite Hnone.
  - intros k v now. destruct (set_refines c' k v now HI') as (-> & _).
    rewrite Hent. unfold Model.set. cbn [Model.lookup List.find length].
    destruct HI' as (_ & _ & Hmax).
    destruct (Z.gtb_spec (Z.of_nat 1) (maxSize c')); [lia|done].
  - apply (reachable_step c CallClear 0 Hr).
Qed.

(** X3 at a cache holding two keys. *)
Lemma clear_empties_witness :
  let c := set (set (empty_cache 2 None) "a" "1" 1) "b" "2" 2 in
  size_ (clear c) = 0 /\ entries (set (clear c) "c" "3" 3) = [("c", "3", 3)].
Proof.
  cbv zeta.
  destruct (clear_empties (set (set (empty_cache 2 None) "a" "1" 1) "b" "2" 2))
    as (Hsize & _ & _ & _ & _ & Hset & _).
  - apply (reachable_step _ (CallSet "b" "2") 2).
    apply (reachable_step _ (CallSet "a" "1") 1).
    by apply (reachable_constructor (mkCacheOptions (Int 2) None)).
  - split; [exact Hsize|apply Hset].
Defined.

(** *** Recency *)

Lemma lookup_cons_ne e es k : e.1.1 <> k ->
  Model.lookup (e :: es) k = Model.lookup es k.
Proof.
  intros Hne. unfold Model.lookup. cbn [List.find].
  by assert (Model.has_key k e = false) as -> by (by apply has_key_false).
Qed.

(** Property X4. In every reachable cache of the first class, a [get(k)]
    that returns a value moves [k] to the front, stamps it with the time of
    the call and changes no other entry; when [maxSize] is at least 2, [k]
    then survives the next [set], whatever key that stores. *)
Theorem get_moves_to_front (c : t) (k v : string) (now : Z) :
  reachable c -> (get c k now).1 = Some v ->
  let c' := (get c k now).2 in
  entries c' = (k, v, now) :: Model.remove (entries c) k
  /\ keys c' = k :: List.filter (other_than k) (keys c)
  /\ size_ c' = size_ c
  /\ (forall k', k' <> k ->
        Model.lookup (entries c') k' = Model.lookup (entries c) k')
  /\ (2 <= maxSize c -> forall k' v' now', k ∈ keys (set c' k' v' now')).
Proof.
  intros Hr Hget c'. pose proof (reachable_Inv c Hr) as HI.
  destruct (get_refines c k now HI) as (H1 & H2 & HI' & Hm & _).
  fold c' in H2, HI', Hm. rewrite H1 in Hget. unfold Model.get in Hget, H2.
  destruct (Model.lookup (entries c) k) as [[[k0 v0] la]|] eqn:Hl; [|done].
  destruct (ttl_exceeded (ttl c) now la); [done|].
  cbn [fst snd] in Hget, H2. injection Hget as ->.
  assert (keys c' = k :: List.filter (other_than k) (keys c)) as Hkeys.
  { unfold keys. rewrite H2. cbn [Model.keys List.map fst].
    f_equal. apply keys_remove. }
  split; [done|]. split; [done|]. split; [|split].
  - rewrite (Inv_size _ HI'), (Inv_size _ HI), H2. cbn [length].
    assert (k ∈ Model.keys (entries c)) as Hin.
    { apply dec_stable. intros Hn. apply lookup_None_keys in Hn. congruence. }
    pose proof (length_remove _ k (Inv_NoDup_keys c HI) Hin). lia.
  - intros k' Hne. rewrite H2, lookup_cons_ne by (cbn; congruence).
    by apply lookup_remove_ne.
  - intros Hmax k' v' now'. rewrite (keys_set_refines c' k' v' now' HI').
    rewrite Hm, Hkeys. destruct (decide (k' = k)) as [->|Hne].
    + destruct (Z.to_nat (maxSize c)) as [|m] eqn:Hm'; [lia|].
      cbn [take]. apply elem_of_cons. by left.
    + cbn [List.filter]. unfold other_than at 1.
      assert (String.eqb k k' = false) as -> by (apply String.eqb_neq; congruence).
      cbn [negb].
      destruct (Z.to_nat (maxSize c)) as [|[|m]] eqn:Hm'; [lia|lia|].
      cbn [take]. apply elem_of_cons. right. apply elem_of_cons. by left.
Qed.

(** X4 at a full cache of capacity two whose older key is read. *)
Lemma get_moves_to_front_witness :
  let c := set (set (empty_cache 2 None) "a" "1" 1) "b" "2" 2 in
  keys (get c "a" 3).2 = ["a"; "b"]
  /\ "a" ∈ keys (set (get c "a" 3).2 "c" "3" 4).
Proof.
  cbv zeta.
  destruct (get_moves_to_front
              (set (set (empty_cache 2 None) "a" "1" 1) "b" "2" 2) "a" "1" 3)
    as (_ & Hkeys & _ & _ & Hstay).
  - apply (reachable_step _ (CallSet "b" "2") 2).
    apply (reachable_step _ (CallSet "a" "1") 1).
    by apply (reachable_constructor (mkCacheOptions (Int 2) None)).
  - reflexivity.
  - split; [rewrite Hkeys; vm_compute; reflexivity|].
    apply Hstay. vm_compute. discriminate.
Defined.

(** *** What [set] does to the entries *)

Lemma lookup_snoc es e k :
  Model.lookup (es ++ [e]) k = Model.lookup es k
  \/ (Model.lookup es k = None /\ e.1.1 = k).
Proof.
  unfold Model.lookup. induction es as [|e' es IH]; cbn [app List.find].
  - destruct (Model.has_key k e) eqn:Hk; [|by left].
    right. split; [done|by apply has_key_true].
  - destruct (Model.has_key k e'); [by left|done].
Qed.

(** Property X5. In every reachable cache of the first class, [set(k, v)]
    has one of three effects: for a cached key, the entry goes to the front
    with its old value and the new time; for a new key and room left, the
    new entry is put in front; for a new key and a full cache, the new entry
    is put in front and the last entry is dropped. No other entry changes: a
    key other than [k] keeps its entry or, being the last of a full cache,
    loses it. *)
Theorem set_effect (c : t) (k v : string) (now : Z) :
  reachable c ->
  let c' := set c k v now in
  (forall v0 la, Model.lookup (entries c) k = Some (k, v0, la) ->
     entries c' = (k, v0, now) :: Model.remove (entries c) k
     /\ size_ c' = size_ c)
  /\ (k ∉ keys c -> size_ c < maxSize c ->
      entries c' = (k, v, now) :: entries c)
  /\ (k ∉ keys c -> size_ c = maxSize c ->
      exists front victim,
        entries c = front ++ [victim]
        /\ entries c' = (k, v, now) :: front)
  /\ (forall k', k' <> k ->
        Model.lookup (entries c') k' = Model.lookup (entries c) k'
        \/ (Model.lookup (entries c') k' = None
            /\ (k ∉ keys c) /\ size_ c = maxSize c
            /\ List.last (keys c) k = k')).
Proof.
  intros Hr c'. pose proof (reachable_Inv c Hr) as HI.
  destruct (set_refines c k v now HI) as (Hent & HI' & _). fold c' in Hent, HI'.
  pose proof (Inv_size c HI) as Hsize.
  assert (1 <= maxSize c) as Hmax by (by destruct HI as (_ & _ & ?)).
  assert (forall v0 la, Model.lookup (entries c) k = Some (k, v0, la) ->
            entries c' = (k, v0, now) :: Model.remove (entries c) k) as Hhit.
  { intros v0 la Hl. rewrite Hent. unfold Model.set. by rewrite Hl. }
  assert (k ∉ keys c -> size_ c < maxSize c ->
          entries c' = (k, v, now) :: entries c) as Hroom.
  { intros Hk%lookup_None_keys Hlt. rewrite Hent. unfold Model.set.
    rewrite Hk. cbn [length].
    destruct (Z.gtb_spec (Z.of_nat (S (length (entries c)))) (maxSize c));
      [lia|done]. }
  assert (k ∉ keys c -> size_ c = maxSize c ->
          exists front victim,
            entries c = front ++ [victim]
            /\ entries c' = (k, v, now) :: front) as Hfull.
  { intros Hk%lookup_None_keys Heq.
    assert (entries c = [] \/ exists l x, entries c = l ++ [x]) as [He|He].
    { destruct (entries c) as [|x l _] using rev_ind; eauto. }
    { rewrite He in Hsize. cbn [length] in Hsize. lia. }
    destruct He as (l & x & He). exists l, x. split; [done|].
    rewrite Hent. unfold Model.set. rewrite Hk. rewrite He in *. cbn [length].
    destruct (Z.gtb_spec (Z.of_nat (S (length (l ++ [x])))) (maxSize c));
      [|lia].
    change ((k, v, now) :: l ++ [x]) with (((k, v, now) :: l) ++ [x]).
    by rewrite removelast_last. }
  split; [|split; [done|split; [done|]]].
  - intros v0 la Hl. split; [by eapply Hhit|].
    rewrite (Inv_size _ HI'), Hsize, (Hhit v0 la Hl). cbn [length].
    assert (k ∈ Model.keys (entries c)) as Hin.
    { apply dec_stable. intros Hn. apply lookup_None_keys in Hn. congruence. }
    pose proof (length_remove _ k (Inv_NoDup_keys c HI) Hin). lia.
  - intros k' Hne.
    destruct (Model.lookup (entries c) k) as [[[k0 v0] la]|] eqn:Hl.
    + apply lookup_Some_key in Hl as Hk0. cbn in Hk0. subst k0.
      left. rewrite (Hhit v0 la eq_refl), lookup_cons_ne by (cbn; congruence).
      by apply lookup_remove_ne.
    + apply lookup_None_keys in Hl.
      pose proof (Inv_length c HI) as Hle.
      destruct (decide (size_ c = maxSize c)) as [Heq|Hneq].
      * destruct (Hfull Hl Heq) as (front & victim & Hc & Hc').
        rewrite Hc', lookup_cons_ne by (cbn; congruence). rewrite Hc.
        destruct (lookup_snoc front victim k') as [->|[Hnone Hv]]; [by left|].
        right. split; [done|]. split; [done|]. split; [done|].
        unfold keys. rewrite Hc. unfold Model.keys. rewrite List.map_app.
        cbn [List.map]. by rewrite last_last.
      * left. rewrite Hroom by (done || lia).
        by rewrite lookup_cons_ne by (cbn; congruence).
Qed.

(** X5 at a repeated [set] of a cached key. *)
Lemma set_effect_witness :
  let c := set (set (empty_cache 2 None) "a" "1" 1) "b" "2" 2 in
  entries (set c "a" "9" 3) = [("a", "1", 3); ("b", "2", 2)].
Proof.
  cbv zeta.
  destruct (set_effect (set (set (empty_cache 2 None) "a" "1" 1) "b" "2" 2)
              "a" "9" 3) as (Hhit & _).
  - apply (reachable_step _ (CallSet "b" "2") 2).
    apply (reachable_step _ (CallSet "a" "1") 1).
    by apply (reachable_constructor (mkCacheOptions (Int 2) None)).
  - destruct (Hhit "1" 1) as [-> _]; vm_compute; reflexivity.
Defined.

End LRUCacheLaws.

(** ** The [Map] cache: capacity and eviction *)

Module LRUCacheMapLaws.

Import LRUCacheMap LRUCacheMapOps.

Lemma length_map_delete_le m k : (length (map_delete m k) <= length m)%nat.
Proof.
  induction m as [|[k' e] m IH]; cbn [map_delete length]; [done|].
  destruct (String.eqb k' k); cbn [length]; lia.
Qed.

Lemma length_map_delete_lt m k :
  k ∈ List.map fst m -> (length (map_delete m k) < length m)%nat.
Proof.
  induction m as [|[k' e] m IH]; cbn [map_delete length List.map fst].
  - intros H. by apply elem_of_nil in H.
  - intros H. destruct (String.eqb_spec k' k) as [->|Hne].
    + pose proof (length_map_delete_le m k). lia.
    + apply elem_of_cons in H as [?|H]; [congruence|].
      cbn [length]. specialize (IH H). lia.
Qed.

Lemma length_map_update m k f : length (map_update m k f) = length m.
Proof.
  induction m as [|[k' e] m IH]; cbn [map_update length]; [done|].
  destruct (String.eqb k' k); cbn [length]; by rewrite ?IH.
Qed.

Lemma keys_map_update m k f :
  List.map fst (map_update m k f) = List.map fst m.
Proof.
  induction m as [|[k' e] m IH]; cbn [map_update List.map fst]; [done|].
  destruct (String.eqb k' k); cbn [List.map fst]; by rewrite ?IH.
Qed.

Lemma keys_map_delete m k :
  List.map fst (map_delete m k)
  = List.filter (fun k' => negb (String.eqb k' k)) (List.map fst m).
Proof.
  induction m as [|[k' e] m IH]; cbn [map_delete List.map fst List.filter];
    [done|].
  destruct (String.eqb k' k); cbn [negb List.map fst]; by rewrite IH.
Qed.

Lemma Forall_filter_keep {A} (P : A -> Prop) f l :
  Forall P l -> Forall P (List.filter f l).
Proof.
  induction 1 as [|x l Hx Hl IH]; cbn [List.filter]; [done|].
  destruct (f x); [by constructor|done].
Qed.

Lemma map_get_None m k : map_get m k = None <-> k ∉ List.map fst m.
Proof.
  induction m as [|[k' e] m IH]; cbn [map_get List.map fst].
  - split; [intros _; apply not_elem_of_nil|done].
  - rewrite not_elem_of_cons. destruct (String.eqb_spec k' k) as [->|Hne].
    + split; [done|]. by intros [? _].
    + rewrite IH. split; [intros ?; split; [congruence|done]|by intros [_ ?]].
Qed.

(** The scan answers a key of the map, or the key it started with. *)
Lemma oldest_elem m k0 t0 : oldest m k0 t0 ∈ k0 :: List.map fst m.
Proof.
  revert k0 t0. induction m as [|[k e] m IH]; intros k0 t0;
    cbn [oldest List.map fst].
  - apply elem_of_cons. by left.
  - destruct (match t0 with None => true | Some t => lastAccessed e <? t end).
    + apply elem_of_cons. right. apply IH.
    + specialize (IH k0 t0). apply elem_of_cons in IH as [->|IH].
      * apply elem_of_cons. by left.
      * apply elem_of_cons. right. apply elem_of_cons. by right.
Qed.

Lemma oldest_elem_nonempty m : m <> [] -> oldest m "" None ∈ List.map fst m.
Proof.
  destruct m as [|[k e] m]; [done|]. intros _. cbn [oldest]. apply oldest_elem.
Qed.

(** While no strictly older entry follows, the scan keeps what it has. *)
Lemma oldest_keeps m k0 t0 :
  Forall (fun x => t0 <= lastAccessed x.2) m -> oldest m k0 (Some t0) = k0.
Proof.
  induction 1 as [|[k e] m Hx Hm IH]; cbn [oldest]; [done|].
  cbn [snd] in Hx. destruct (Z.ltb_spec (lastAccessed e) t0); [lia|done].
Qed.

(** The entry the scan answers is as old as any. *)
Lemma oldest_least m k0 t0 :
  (oldest m k0 (Some t0) = k0
   /\ Forall (fun x => t0 <= lastAccessed x.2) m)
  \/ exists e, (oldest m k0 (Some t0), e) ∈ m
               /\ lastAccessed e < t0
               /\ Forall (fun x => lastAccessed e <= lastAccessed x.2) m.
Proof.
  revert k0 t0. induction m as [|[k e] m IH]; intros k0 t0; cbn [oldest].
  - left. by split.
  - destruct (Z.ltb_spec (lastAccessed e) t0) as [Hlt|Hge].
    + right. destruct (IH k (lastAccessed e)) as [[-> Hall]|(e' & Hin & Hlt' & Hall)].
      * exists e. split; [apply elem_of_cons; by left|]. split; [done|].
        constructor; [done|done].
      * exists e'. split; [apply elem_of_cons; by right|]. split; [lia|].
        constructor; [cbn; lia|done].
    + destruct (IH k0 t0) as [[-> Hall]|(e' & Hin & Hlt' & Hall)].
      * left. split; [done|]. constructor; [done|done].
      * right. exists e'. split; [apply elem_of_cons; by right|].
        split; [done|]. constructor; [cbn; lia|done].
Qed.

Lemma named_keys m : named m <-> Forall (fun k => k <> "") (List.map fst m).
Proof. unfold named. by rewrite Forall_fmap. Qed.

Lemma named_map_delete m k : named m -> named (map_delete m k).
Proof.
  rewrite !named_keys, keys_map_delete. apply Forall_filter_keep.
Qed.

Lemma named_map_update m k f : named m -> named (map_update m k f).
Proof. by rewrite !named_keys, keys_map_update. Qed.

Lemma truthy_ne s : s <> "" -> truthy s = true.
Proof. by destruct s. Qed.

Lemma evict_named c :
  named (cache c) -> cache c <> [] ->
  named (cache (evictLeastRecentlyUsed c))
  /\ (length (cache (evictLeastRecentlyUsed c)) < length (cache c))%nat.
Proof.
  intros Hn Hne. unfold evictLeastRecentlyUsed.
  pose proof (oldest_elem_nonempty _ Hne) as Hin.
  assert (oldest (cache c) "" None <> "") as Hk.
  { apply named_keys in Hn. rewrite Forall_forall in Hn. by apply Hn. }
  rewrite (truthy_ne _ Hk). cbn [cache].
  split; [by apply named_map_delete|by apply length_map_delete_lt].
Qed.

Lemma step_capacity c o now m :
  maxSize c = Int m -> 0 <= m -> stores_named_key o ->
  named (cache c) -> size_ c <= m ->
  maxSize (step c o now) = Int m
  /\ named (cache (step c o now)) /\ size_ (step c o now) <= m.
Proof.
  intros Hm Hm0 Ho Hn Hsz. unfold size_ in *.
  destruct o as [k v|k|k|k|]; cbn [step stores_named_key] in *.
  - unfold set. destruct (map_get (cache c) k) eqn:Hg.
    + cbn [cache maxSize]. split; [done|].
      split; [by apply named_map_update|]. by rewrite length_map_update.
    + cbn [cache maxSize]. rewrite Hm. cbn [Z_gt_number].
      assert (named (cache c ++ [(k, mkEntry v now now)])) as Hn'.
      { apply Forall_app. split; [done|]. by constructor. }
      destruct (Z.ltb_spec m (Z.of_nat (length (cache c ++ [(k, mkEntry v now now)]))))
        as [Hlt|Hge].
      * set (c1 := mkCache _ _ _).
        destruct (evict_named c1 Hn') as [Hn'' Hlen].
        { subst c1. cbn [cache]. by destruct (cache c). }
        split; [|split; [done|]].
        -- unfold evictLeastRecentlyUsed.
           by destruct (truthy (oldest (cache c1) "" None)).
        -- subst c1. cbn [cache] in Hlen. rewrite length_app in Hlen.
           cbn [length] in Hlen. lia.
      * cbn [cache maxSize]. by split.
  - unfold get. destruct (map_get (cache c) k) as [entry|]; [|done].
    destruct (ttl_exceeded (ttl c) now (created entry)); cbn [snd cache maxSize].
    + split; [done|]. split; [by apply named_map_delete|].
      pose proof (length_map_delete_le (cache c) k). lia.
    + split; [done|]. split; [by apply named_map_update|].
      by rewrite length_map_update.
  - unfold has. destruct (map_get (cache c) k) as [entry|]; [|done].
    destruct (ttl_exceeded (ttl c) now (created entry)); cbn [snd cache maxSize];
      [|done].
    split; [done|]. split; [by apply named_map_delete|].
    pose proof (length_map_delete_le (cache c) k). lia.
  - unfold delete_. cbn [snd cache maxSize].
    split; [done|]. split; [by apply named_map_delete|].
    pose proof (length_map_delete_le (cache c) k). lia.
  - unfold clear. cbn [cache maxSize length]. split; [done|]. split; [|lia].
    constructor.
Qed.

(** Property X6. In the [Map] cache (second class) built with an integer
    [maxSize] of at least 0, [size()] stays at most [maxSize] through every
    sequence of [set], [get], [has], [delete] and [clear], provided no key
    that is stored is the empty string. *)
Theorem map_cache_capacity (options : CacheOptions) (m : Z)
    (calls : list (LRUCacheInv.call * Z)) :
  opt_maxSize options = Int m -> 0 <= m ->
  Forall (fun x => stores_named_key x.1) calls ->
  size_ (run (constructor options) calls) <= m
  /\ getStats (run (constructor options) calls)
     = (size_ (run (constructor options) calls), Int m).
Proof.
  intros Hm Hm0 Hcalls.
  assert (maxSize (run (constructor options) calls) = Int m
          /\ named (cache (run (constructor options) calls))
          /\ size_ (run (constructor options) calls) <= m) as (H1 & _ & H3).
  { unfold run.
    assert (maxSize (constructor options) = Int m
            /\ named (cache (constructor options))
            /\ size_ (constructor options) <= m) as H0.
    { unfold constructor, size_. cbn [cache maxSize length].
      split; [done|]. split; [constructor|lia]. }
    revert H0. generalize (constructor options) as c.
    induction Hcalls as [|[o now] calls Ho _ IH]; intros c (H1 & H2 & H3);
      cbn [fold_left]; [done|].
    apply IH. cbn [fst snd] in *. by apply step_capacity. }
  split; [done|]. unfold getStats. by rewrite H1.
Qed.

(** X6 at two keys set into a cache of capacity one. *)
Lemma map_cache_capacity_witness :
  size_ (run (constructor (mkCacheOptions (Int 1) None))
           [(LRUCacheInv.CallSet "a" "1", 1); (LRUCacheInv.CallSet "b" "2", 2)])
  <= 1.
Proof.
  apply (map_cache_capacity (mkCacheOptions (Int 1) None) 1
           [(LRUCacheInv.CallSet "a" "1", 1); (LRUCacheInv.CallSet "b" "2", 2)]).
  - reflexivity.
  - lia.
  - repeat constructor; discriminate.
Defined.

(** *** The empty string as a key *)

Lemma set_blocked c e0 rest k v now :
  cache c = ("", e0) :: rest ->
  Forall (fun x => lastAccessed e0 <= lastAccessed x.2) rest ->
  k <> "" -> k ∉ List.map fst rest -> lastAccessed e0 <= now ->
  set c k v now
  = mkCache (("", e0) :: rest ++ [(k, mkEntry v now now)]) (maxSize c) (ttl c).
Proof.
  intros Hc Hrest Hk Hnotin Hnow. unfold set.
  assert (map_get (cache c) k = None) as ->.
  { apply map_get_None. rewrite Hc. cbn [List.map fst].
    apply not_elem_of_cons. split; [done|done]. }
  rewrite Hc. cbn [maxSize cache]. set (c1 := mkCache _ _ _).
  assert (evictLeastRecentlyUsed c1 = c1) as Hev.
  { unfold evictLeastRecentlyUsed. subst c1. cbn [cache app oldest].
    rewrite oldest_keeps; [done|].
    apply Forall_app. split; [done|]. by constructor. }
  rewrite Hev. by destruct (Z_gt_number _ _).
Qed.

Lemma set_all_blocked sets : forall c e0 rest,
  cache c = ("", e0) :: rest ->
  Forall (fun x => lastAccessed e0 <= lastAccessed x.2) rest ->
  NoDup (List.map fst rest ++ List.map (fun x => x.1.1) sets) ->
  Forall (fun x => x.1.1 <> "" /\ lastAccessed e0 <= x.2) sets ->
  cache (set_all c sets) = ("", e0) :: rest ++ List.map new_entry sets.
Proof.
  induction sets as [|[[k v] now] sets IH]; intros c e0 rest Hc Hrest Hnd Hall.
  - cbn [set_all fold_left List.map]. by rewrite app_nil_r.
  - cbn [set_all fold_left fst snd List.map] in *.
    apply Forall_cons in Hall as [[Hk Hnow] Hall]. cbn [fst snd] in Hk, Hnow.
    assert (k ∉ List.map fst rest) as Hnotin.
    { apply NoDup_app in Hnd as (_ & Hdis & _). intros Hin.
      apply (Hdis k Hin). apply elem_of_cons. by left. }
    rewrite (set_blocked c e0 rest k v now) by done.
    fold (set_all (mkCache (("", e0) :: rest ++ [(k, mkEntry v now now)])
                     (maxSize c) (ttl c)) sets).
    rewrite (IH _ e0 (rest ++ [(k, mkEntry v now now)])).
    + by rewrite <- app_assoc.
    + done.
    + apply Forall_app. split; [done|]. by constructor.
    + rewrite List.map_app, <- app_assoc. done.
    + done.
Qed.

(** Property X7. In the [Map] cache (second class), the empty string as the
    least recently used key stops eviction: after a [set] of the empty
    string on a new cache, every [set] of a further, distinct key at a later
    or equal time adds an entry and removes none, whatever [maxSize] is,
    because [evictLeastRecentlyUsed] tests [if (oldestKey)]. *)
Theorem map_cache_unnamed_key_blocks_eviction (options : CacheOptions)
    (v0 : string) (t0 : Z) (sets : list (string * string * Z)) :
  NoDup (List.map (fun x => x.1.1) sets) ->
  Forall (fun x => x.1.1 <> "" /\ t0 <= x.2) sets ->
  let c := set_all (set (constructor options) "" v0 t0) sets in
  cache c = ("", mkEntry v0 t0 t0) :: List.map new_entry sets
  /\ size_ c = 1 + Z.of_nat (length sets).
Proof.
  intros Hnd Hall c.
  assert (cache (set (constructor options) "" v0 t0)
          = [("", mkEntry v0 t0 t0)]) as H1.
  { unfold set, constructor. cbn [cache map_get app maxSize].
    destruct (Z_gt_number _ _); [|done].
    unfold evictLeastRecentlyUsed. by cbn [cache oldest truthy]. }
  assert (cache c = ("", mkEntry v0 t0 t0) :: List.map new_entry sets) as Hc.
  { subst c. by rewrite (set_all_blocked sets _ (mkEntry v0 t0 t0) [] H1). }
  split; [done|]. unfold size_. rewrite Hc. cbn [length].
  rewrite length_map. lia.
Qed.

(** X7 at a cache of capacity one that ends with three entries. *)
Lemma map_cache_unnamed_key_blocks_eviction_witness :
  size_ (set_all (set (constructor (mkCacheOptions (Int 1) None)) "" "v" 0)
           [("a", "1", 1); ("b", "2", 2)]) = 3.
Proof.
  apply (map_cache_unnamed_key_blocks_eviction (mkCacheOptions (Int 1) None)
           "v" 0 [("a", "1", 1); ("b", "2", 2)]).
  - apply (bool_decide_unpack (NoDup _)). vm_compute. exact I.
  - repeat constructor; (discriminate || lia).
Defined.

(** *** Which entry goes *)

Lemma NoDup_keys_map_delete m k :
  NoDup (List.map fst m) -> NoDup (List.map fst (map_delete m k)).
Proof.
  rewrite keys_map_delete. intros H.
  induction H as [|x l Hx Hl IH]; cbn [List.filter]; [constructor|].
  destruct (negb (String.eqb x k)); [|done].
  constructor; [|done]. rewrite list_elem_of_In, filter_In, <- list_elem_of_In.
  by intros [? _].
Qed.

Lemma length_map_delete_NoDup m k :
  NoDup (List.map fst m) -> k ∈ List.map fst m ->
  S (length (map_delete m k)) = length m.
Proof.
  induction m as [|[k' e] m IH]; cbn [List.map fst map_delete length].
  - intros _ H. by apply elem_of_nil in H.
  - intros [Hnotin Hnd]%NoDup_cons Hin.
    destruct (String.eqb_spec k' k) as [->|Hne].
    + f_equal. clear IH Hin Hnd.
      induction m as [|[k'' e'] m IH]; cbn [map_delete List.map fst] in *;
        [done|].
      apply not_elem_of_cons in Hnotin as [Hne Hnotin].
      destruct (String.eqb_spec k'' k); [congruence|].
      cbn [length]. by rewrite IH.
    + apply elem_of_cons in Hin as [?|Hin]; [congruence|].
      cbn [length]. by rewrite IH.
Qed.

Lemma step_NoDup c o now : NoDup (keys c) -> NoDup (keys (step c o now)).
Proof.
  unfold keys. intros Hnd. destruct o as [k v|k|k|k|]; cbn [step].
  - unfold set. destruct (map_get (cache c) k) eqn:Hg; cbn [cache maxSize].
    + by rewrite keys_map_update.
    + assert (NoDup (List.map fst (cache c ++ [(k, mkEntry v now now)]))) as H.
      { rewrite List.map_app. cbn [List.map fst]. apply NoDup_app.
        split; [done|]. split; [|apply NoDup_singleton].
        intros x Hx ->%list_elem_of_singleton. by apply map_get_None in Hg. }
      destruct (Z_gt_number _ _); [|done]. unfold evictLeastRecentlyUsed.
      cbn [cache]. destruct (truthy _); [|done]. cbn [cache].
      by apply NoDup_keys_map_delete.
  - unfold get. destruct (map_get (cache c) k) as [entry|]; [|done].
    destruct (ttl_exceeded _ _ _); cbn [snd cache].
    + by apply NoDup_keys_map_delete.
    + by rewrite keys_map_update.
  - unfold has. destruct (map_get (cache c) k) as [entry|]; [|done].
    destruct (ttl_exceeded _ _ _); cbn [snd cache]; [|done].
    by apply NoDup_keys_map_delete.
  - unfold delete_. cbn [snd cache]. by apply NoDup_keys_map_delete.
  - unfold clear. cbn [cache List.map]. constructor.
Qed.

Lemma run_NoDup calls : forall c, NoDup (keys c) -> NoDup (keys (run c calls)).
Proof.
  induction calls as [|[o now] calls IH]; intros c H; [done|].
  cbn [run fold_left fst snd]. apply IH. by apply step_NoDup.
Qed.

Lemma run_named (calls : list (LRUCacheInv.call * Z)) : forall c m,
  Forall (fun x => stores_named_key x.1) calls ->
  maxSize c = Int m -> 0 <= m -> named (cache c) -> size_ c <= m ->
  maxSize (run c calls) = Int m
  /\ named (cache (run c calls)) /\ size_ (run c calls) <= m.
Proof.
  induction calls as [|[o now] calls IH]; intros c m Hcalls H1 H0 H2 H3;
    [done|].
  apply Forall_cons in Hcalls as [Ho Hcalls]. cbn [run fold_left fst snd] in *.
  destruct (step_capacity c o now m H1 H0 Ho H2 H3) as (? & ? & ?).
  by apply IH.
Qed.

(** Property X8. In the [Map] cache (second class) built with an integer
    [maxSize] of at least 0 and used with non-empty keys, a [set] of a new
    key into a full cache removes exactly one entry, one whose
    [lastAccessed] is least among the entries including the new one, and
    [size()] is [maxSize] afterwards. *)
Theorem map_cache_evicts_least_recent (options : CacheOptions) (m : Z)
    (calls : list (LRUCacheInv.call * Z)) (k v : string) (now : Z) :
  opt_maxSize options = Int m -> 0 <= m ->
  Forall (fun x => stores_named_key x.1) calls ->
  let c := run (constructor options) calls in
  k <> "" -> k ∉ keys c -> size_ c = m ->
  exists victim e,
    (victim, e) ∈ cache c ++ [(k, mkEntry v now now)]
    /\ Forall (fun x => lastAccessed e <= lastAccessed x.2)
         (cache c ++ [(k, mkEntry v now now)])
    /\ cache (set c k v now)
       = map_delete (cache c ++ [(k, mkEntry v now now)]) victim
    /\ size_ (set c k v now) = m.
Proof.
  intros Hm Hm0 Hcalls c Hk Hnotin Hfull.
  destruct (run_named calls (constructor options) m Hcalls) as (H1 & H2 & H3).
  { done. } { done. } { constructor. } { unfold size_. cbn. lia. }
  fold c in H1, H2, H3.
  assert (NoDup (keys c)) as Hnd.
  { apply run_NoDup. unfold keys. cbn. constructor. }
  set (l := cache c ++ [(k, mkEntry v now now)]).
  assert (named l) as Hnl.
  { apply Forall_app. split; [done|]. by constructor. }
  assert (NoDup (List.map fst l)) as Hndl.
  { subst l. rewrite List.map_app. cbn [List.map fst]. apply NoDup_app.
    split; [done|]. split; [|apply NoDup_singleton].
    by intros x Hx ->%list_elem_of_singleton. }
  assert (exists e, (oldest l "" None, e) ∈ l
                    /\ Forall (fun x => lastAccessed e <= lastAccessed x.2) l)
    as (e & Hin & Hleast).
  { destruct l as [|[k1 e1] l'] eqn:Hl.
    { subst l. by destruct (cache c). }
    cbn [oldest].
    destruct (oldest_least l' k1 (lastAccessed e1))
      as [[-> Hall]|(e' & Hin & Hlt & Hall)].
    - exists e1. split; [apply elem_of_cons; by left|].
      constructor; [cbn; lia|done].
    - exists e'. split; [apply elem_of_cons; by right|].
      constructor; [cbn; lia|done]. }
  exists (oldest l "" None), e. split; [done|]. split; [done|].
  assert (cache (set c k v now) = map_delete l (oldest l "" None)) as Hset.
  { unfold set. apply map_get_None in Hnotin as ->. cbn [maxSize cache].
    rewrite H1. cbn [Z_gt_number]. fold l.
    assert (Z.of_nat (length l) = m + 1) as Hlen.
    { subst l. rewrite length_app. cbn [length]. unfold size_ in Hfull. lia. }
    destruct (Z.ltb_spec m (Z.of_nat (length l))); [|lia].
    unfold evictLeastRecentlyUsed. cbn [cache].
    assert (oldest l "" None <> "") as Hne.
    { rewrite (named_keys l) in Hnl. rewrite Forall_forall in Hnl.
      apply Hnl. apply list_elem_of_In, in_map_iff. exists (oldest l "" None, e).
      split; [done|]. by apply list_elem_of_In. }
    by rewrite (truthy_ne _ Hne). }
  split; [done|]. unfold size_. rewrite Hset.
  assert (oldest l "" None ∈ List.map fst l) as Hin'.
  { apply list_elem_of_In, in_map_iff. exists (oldest l "" None, e).
    split; [done|]. by apply list_elem_of_In. }
  pose proof (length_map_delete_NoDup l _ Hndl Hin') as Hlen.
  subst l. rewrite length_app in Hlen. cbn [length] in Hlen.
  unfold size_ in Hfull. lia.
Qed.

(** X8 at a full cache of capacity two. *)
Lemma map_cache_evicts_least_recent_witness :
  let c := run (constructor (mkCacheOptions (Int 2) None))
             [(LRUCacheInv.CallSet "a" "1", 1); (LRUCacheInv.CallSet "b" "2", 2);
              (LRUCacheInv.CallGet "a", 3)] in
  size_ (set c "c" "3" 4) = 2.
Proof.
  cbv zeta.
  destruct (map_cache_evicts_least_recent (mkCacheOptions (Int 2) None) 2
              [(LRUCacheInv.CallSet "a" "1", 1); (LRUCacheInv.CallSet "b" "2", 2);
               (LRUCacheInv.CallGet "a", 3)] "c" "3" 4)
    as (victim & e & _ & _ & _ & Hsize).
  - reflexivity.
  - lia.
  - repeat constructor; discriminate.
  - discriminate.
  - vm_compute. intros H. repeat (apply elem_of_cons in H as [H|H]; [discriminate|]).
    by apply elem_of_nil in H.
  - reflexivity.
  - exact Hsize.
Defined.

End LRUCacheMapLaws.

(** ** Base64: encoding and decoding *)

Module Base64Laws.

Import Base64 Base64Inv ByteFacts.

Abbreviation sol := string_of_list_ascii.
Abbreviation los := list_ascii_of_string.

Lemma sol_app l1 l2 : sol (l1 ++ l2) = sol l1 +:+ sol l2.
Proof. induction l1 as [|c l1 IH]; [done|]. cbn [app sol]. by rewrite IH. Qed.

Lemma length_sol l : String.length (sol l) = length l.
Proof. induction l as [|c l IH]; [done|]. cbn. by rewrite IH. Qed.

Lemma sextet_plain c v :
  sextet c = Some v ->
  is_ascii_whitespace c = false /\ c <> "="%char /\ c <> "-"%char
  /\ c <> "_"%char.
Proof.
  destruct c as [[] [] [] [] [] [] [] []]; vm_compute; intros H;
    try discriminate H; repeat split; discriminate.
Qed.

Lemma sextet_digit v : 0 <= v < 64 -> sextet (digit v) = Some v.
Proof.
  intros Hv. assert (exists n, v = Z.of_nat n /\ (n < 64)%nat) as (n & -> & Hn).
  { exists (Z.to_nat v). lia. }
  do 64 (destruct n as [|n]; [reflexivity|]). lia.
Qed.

Lemma los_sol l : los (sol l) = l.
Proof. apply list_ascii_of_string_of_list_ascii. Qed.

Lemma sol_los s : sol (los s) = s.
Proof. apply string_of_list_ascii_of_string. Qed.

Lemma append_nil_r s : s +:+ "" = s.
Proof.
  induction s as [|c s IH]; [done|].
  change (String c (s +:+ "") = String c s). by rewrite IH.
Qed.

Lemma remove_whitespace_sol l :
  Forall (fun c => is_ascii_whitespace c = false) l ->
  remove_whitespace (sol l) = sol l.
Proof.
  induction 1 as [|c l Hc Hl IH]; [done|].
  cbn [sol remove_whitespace]. by rewrite Hc, IH.
Qed.

Lemma sextets_sol l vs :
  Forall2 (fun c v => sextet c = Some v) l vs -> sextets (sol l) = Some vs.
Proof.
  induction 1 as [|c v l vs Hc Hl IH]; [done|].
  cbn [sol sextets]. by rewrite Hc, IH.
Qed.

Lemma sextets_bad l c l' : sextet c = None -> sextets (sol (l ++ c :: l')) = None.
Proof.
  intros Hc. induction l as [|d l IH]; cbn [app sol sextets].
  - by rewrite Hc.
  - rewrite IH. by destruct (sextet d).
Qed.

(** *** Trailing equals signs *)

Lemma strip_padding_none D :
  Forall (fun c => c <> "="%char) D -> strip_padding (sol D) = sol D.
Proof.
  intros HD. unfold strip_padding.
  destruct (_ =? 0); [|done]. rewrite los_sol.
  destruct D as [|c D _] using rev_ind; [done|].
  apply Forall_app in HD as [_ HD]. rewrite Forall_singleton in HD.
  rewrite rev_unit.
  destruct c as [[] [] [] [] [] [] [] []]; try reflexivity. by destruct HD.
Qed.

Lemma strip_padding_one D :
  Forall (fun c => c <> "="%char) D ->
  (Z.of_nat (length D) + 1) mod 4 = 0 ->
  strip_padding (sol (D ++ ["="%char])) = sol D.
Proof.
  intros HD Hlen. unfold strip_padding.
  rewrite length_sol, length_app. cbn [length].
  replace (Z.of_nat (length D + 1)) with (Z.of_nat (length D) + 1) by lia.
  rewrite Hlen. cbn [Z.eqb]. rewrite los_sol, rev_unit.
  destruct D as [|c D _] using rev_ind; [done|].
  apply Forall_app in HD as [_ HD]. rewrite Forall_singleton in HD.
  rewrite rev_unit.
  destruct c as [[] [] [] [] [] [] [] []];
    cbn [rev app]; by rewrite rev_involutive.
Qed.

Lemma strip_padding_pair D :
  (Z.of_nat (length D) + 2) mod 4 = 0 ->
  strip_padding (sol (D ++ ["="%char; "="%char])) = sol D.
Proof.
  intros Hlen. unfold strip_padding.
  rewrite length_sol, length_app. cbn [length].
  replace (Z.of_nat (length D + 2)) with (Z.of_nat (length D) + 2) by lia.
  rewrite Hlen. cbn [Z.eqb]. rewrite los_sol.
  change (D ++ ["="%char; "="%char]) with (D ++ ["="%char] ++ ["="%char]).
  rewrite app_assoc, !rev_unit. by rewrite rev_involutive.
Qed.

Lemma strip_padding_triple D :
  (Z.of_nat (length D) + 3) mod 4 = 0 ->
  strip_padding (sol (D ++ ["="%char; "="%char; "="%char]))
  = sol (D ++ ["="%char]).
Proof.
  intros Hlen. unfold strip_padding.
  rewrite length_sol, length_app. cbn [length].
  replace (Z.of_nat (length D + 3)) with (Z.of_nat (length D) + 3) by lia.
  rewrite Hlen. cbn [Z.eqb]. rewrite los_sol.
  change (D ++ ["="%char; "="%char; "="%char])
    with (D ++ ["="%char] ++ ["="%char] ++ ["="%char]).
  rewrite !app_assoc, !rev_unit. cbn [rev app]. by rewrite rev_involutive.
Qed.

(** [atob] of digits followed by the padding their number asks for. *)
Lemma atob_padded D P vs :
  Forall2 (fun c v => sextet c = Some v) D vs ->
  (length D mod 4 = 0 /\ P = []
   \/ length D mod 4 = 3 /\ P = ["="%char]
   \/ length D mod 4 = 2 /\ P = ["="%char; "="%char])%nat ->
  atob (sol (D ++ P)) = Ok (decode_sextets vs).
Proof.
  intros HD HP.
  assert (Forall (fun c => is_ascii_whitespace c = false /\ c <> "="%char) D)
    as Hplain.
  { clear HP. induction HD as [|c v D vs Hc _ IH]; constructor; [|done].
    by destruct (sextet_plain c v Hc) as (? & ? & _). }
  assert (Forall (fun c => c <> "="%char) D) as Hne
    by (eapply Forall_impl; [exact Hplain|]; by intros ? [_ ?]).
  assert (Forall (fun c => is_ascii_whitespace c = false) (D ++ P)) as Hws.
  { apply Forall_app. split.
    - eapply Forall_impl; [exact Hplain|]. by intros ? [? _].
    - destruct HP as [[_ ->]|[[_ ->]|[_ ->]]]; repeat constructor. }
  unfold atob. rewrite remove_whitespace_sol by done.
  assert (strip_padding (sol (D ++ P)) = sol D) as ->.
  { destruct HP as [[Hm ->]|[[Hm ->]|[Hm ->]]].
    - rewrite app_nil_r. by apply strip_padding_none.
    - apply strip_padding_one; [done|].
      rewrite <- (Nat2Z.id (length D)) in Hm.
      apply (f_equal Z.of_nat) in Hm. rewrite Nat2Z.inj_mod in Hm.
      rewrite Z2Nat.id in Hm by lia. change (Z.of_nat 4) with 4 in Hm.
      change (Z.of_nat 3) with 3 in Hm.
      rewrite Z.add_mod, Hm by lia. done.
    - apply strip_padding_pair.
      rewrite <- (Nat2Z.id (length D)) in Hm.
      apply (f_equal Z.of_nat) in Hm. rewrite Nat2Z.inj_mod in Hm.
      rewrite Z2Nat.id in Hm by lia. change (Z.of_nat 4) with 4 in Hm.
      change (Z.of_nat 2) with 2 in Hm.
      rewrite Z.add_mod, Hm by lia. done. }
  rewrite length_sol.
  assert ((Z.of_nat (length D) mod 4 =? 1) = false) as ->.
  { apply Z.eqb_neq.
    assert (Z.of_nat (length D) mod 4 = Z.of_nat (length D mod 4)) as ->
      by (by rewrite Nat2Z.inj_mod).
    destruct HP as [[-> _]|[[-> _]|[-> _]]]; lia. }
  by rewrite (sextets_sol D vs).
Qed.

(** *** What [btoa] writes *)

Lemma list_ind3 {A} (P : list A -> Prop) :
  P [] -> (forall a, P [a]) -> (forall a b, P [a; b]) ->
  (forall a b c r, P r -> P (a :: b :: c :: r)) ->
  forall l, P l.
Proof.
  intros H0 H1 H2 H3.
  assert (forall n l, (length l < n)%nat -> P l) as H.
  { induction n as [|n IH]; intros l Hl; [lia|].
    destruct l as [|a [|b [|c r]]]; [done|done|done|].
    apply H3, IH. cbn [length] in Hl. lia. }
  intros l. apply (H (S (length l))). lia.
Qed.

Lemma btoa_shape bytes :
  Forall byte bytes ->
  btoa bytes = sol (List.map digit (encode_sextets bytes) ++ pad_chars bytes)
  /\ Forall (fun v => 0 <= v < 64) (encode_sextets bytes)
  /\ decode_sextets (encode_sextets bytes) = bytes
  /\ (length (encode_sextets bytes) mod 4 = 0 /\ pad_chars bytes = []
      \/ length (encode_sextets bytes) mod 4 = 3
         /\ pad_chars bytes = ["="%char]
      \/ length (encode_sextets bytes) mod 4 = 2
         /\ pad_chars bytes = ["="%char; "="%char])%nat.
Proof.
  unfold byte. induction bytes as [|a|a b|a b c r IH] using list_ind3.
  - intros _. repeat split; [constructor|by left].
  - intros [Ha _]%Forall_cons. split; [done|]. split.
    { repeat constructor; Z.div_mod_to_equations; lia. }
    split; [|right; by right].
    cbn [encode_sextets decode_sextets]. f_equal.
    Z.div_mod_to_equations; lia.
  - intros [Ha [Hb _]%Forall_cons]%Forall_cons. split; [done|]. split.
    { repeat constructor; Z.div_mod_to_equations; lia. }
    split; [|right; by left].
    cbn [encode_sextets decode_sextets].
    f_equal; [|f_equal]; Z.div_mod_to_equations; lia.
  - intros [Ha [Hb [Hc Hr]%Forall_cons]%Forall_cons]%Forall_cons.
    destruct (IH Hr) as (IH1 & IH2 & IH3 & IH4).
    split; [|split; [|split]].
    + cbn [btoa encode_sextets pad_chars List.map app sol]. by rewrite IH1.
    + cbn [encode_sextets].
      repeat (constructor; [Z.div_mod_to_equations; lia|]). done.
    + cbn [encode_sextets decode_sextets]. rewrite IH3.
      f_equal; [|f_equal; [|f_equal]]; Z.div_mod_to_equations; lia.
    + cbn [encode_sextets pad_chars length].
      replace (S (S (S (S (length (encode_sextets r))))) mod 4)%nat
        with (length (encode_sextets r) mod 4)%nat; [done|].
      change (S (S (S (S (length (encode_sextets r))))))
        with (4 + length (encode_sextets r))%nat.
      rewrite <- Nat.Div0.add_mod_idemp_l. done.
Qed.

Lemma Forall2_digit vs :
  Forall (fun v => 0 <= v < 64) vs ->
  Forall2 (fun c v => sextet c = Some v) (List.map digit vs) vs.
Proof.
  induction 1 as [|v vs Hv _ IH]; constructor; [by apply sextet_digit|done].
Qed.

Lemma atob_btoa bytes : Forall byte bytes -> atob (btoa bytes) = Ok bytes.
Proof.
  intros H. destruct (btoa_shape bytes H) as (-> & H2 & H3 & H4).
  rewrite (atob_padded _ _ (encode_sextets bytes)).
  - by rewrite H3.
  - by apply Forall2_digit.
  - by rewrite length_map.
Qed.

(** *** The two alphabets *)

Lemma url_to_standard_sol l :
  url_to_standard (sol l) = sol (List.map to_standard l).
Proof. induction l as [|c l IH]; [done|]. cbn [sol url_to_standard List.map]. by rewrite IH. Qed.

Lemma to_standard_plain c v : sextet c = Some v -> to_standard c = c.
Proof.
  intros (_ & _ & H1 & H2)%sextet_plain. unfold to_standard.
  destruct (Ascii.eqb_spec c "-"); [done|].
  by destruct (Ascii.eqb_spec c "_").
Qed.

Lemma to_standard_to_url c v : sextet c = Some v -> to_standard (to_url c) = c.
Proof.
  destruct c as [[] [] [] [] [] [] [] []]; vm_compute; intros H;
    try discriminate H; reflexivity.
Qed.

Lemma map_to_standard_digits D vs :
  Forall2 (fun c v => sextet c = Some v) D vs -> List.map to_standard D = D.
Proof.
  induction 1 as [|c v D vs Hc _ IH]; [done|].
  cbn [List.map]. by rewrite (to_standard_plain c v), IH.
Qed.

Lemma map_to_standard_to_url D vs :
  Forall2 (fun c v => sextet c = Some v) D vs ->
  List.map to_standard (List.map to_url D) = D.
Proof.
  induction 1 as [|c v D vs Hc _ IH]; [done|].
  cbn [List.map]. by rewrite (to_standard_to_url c v), IH.
Qed.

Lemma standard_to_url_sol D P vs :
  Forall2 (fun c v => sextet c = Some v) D vs ->
  Forall (fun c => c = "="%char) P ->
  JWKSClientInv.standard_to_url (sol (D ++ P)) = sol (List.map to_url D).
Proof.
  intros HD HP. induction HD as [|c v D vs Hc _ IH].
  - cbn [app List.map sol]. induction HP as [|c P -> _ IH]; [done|].
    cbn [sol JWKSClientInv.standard_to_url]. by rewrite IH.
  - cbn [app List.map sol JWKSClientInv.standard_to_url]. rewrite IH.
    destruct (sextet_plain c v Hc) as (_ & Hne & _).
    destruct (Ascii.eqb_spec c "="); [done|]. done.
Qed.

Lemma padding_of_length s :
  padding s
  = match (Z.of_nat (String.length s) mod 4) with
    | 3 => "="
    | 2 => "=="
    | 1 => "==="
    | _ => ""
    end.
Proof.
  unfold padding.
  pose proof (Z.mod_pos_bound (Z.of_nat (String.length s)) 4 ltac:(lia)) as H.
  assert (Z.of_nat (String.length s) mod 4 = 0
          \/ Z.of_nat (String.length s) mod 4 = 1
          \/ Z.of_nat (String.length s) mod 4 = 2
          \/ Z.of_nat (String.length s) mod 4 = 3) as [->|[->|[->| ->]]] by lia;
    reflexivity.
Qed.

Lemma mod4_Z n : Z.of_nat n mod 4 = Z.of_nat (n mod 4).
Proof. by rewrite Nat2Z.inj_mod. Qed.

Lemma padding_matches l P :
  (length l mod 4 = 0 /\ P = []
   \/ length l mod 4 = 3 /\ P = ["="%char]
   \/ length l mod 4 = 2 /\ P = ["="%char; "="%char])%nat ->
  padding (sol l) = sol P.
Proof.
  intros H. rewrite padding_of_length, length_sol, mod4_Z.
  by destruct H as [[-> ->]|[[-> ->]|[-> ->]]].
Qed.

(** Property X9. For every sequence of bytes (values from 0 to 255),
    [base64urlToArrayBuffer] gives back the bytes [arrayBufferToBase64]
    encoded, both from the standard text and from its base64url form (minus
    and underscore for plus and slash, padding dropped), and
    [base64urlDecode] gives the binary string of those bytes. *)
Theorem base64_round_trip (bytes : list Z) :
  Forall byte bytes ->
  base64urlToArrayBuffer (arrayBufferToBase64 bytes) = Ok bytes
  /\ base64urlToArrayBuffer
       (JWKSClientInv.standard_to_url (arrayBufferToBase64 bytes))
     = Ok bytes
  /\ base64urlDecode (arrayBufferToBase64 bytes)
     = Ok (sol (List.map of_code bytes)).
Proof.
  intros H. unfold arrayBufferToBase64.
  destruct (btoa_shape bytes H) as (Hb & H2 & H3 & H4).
  pose proof (Forall2_digit _ H2) as HD.
  set (D := List.map digit (encode_sextets bytes)) in *.
  set (P := pad_chars bytes) in *.
  assert (Forall (fun c => c = "="%char) P) as HP.
  { subst P. destruct H4 as [[_ ->]|[[_ ->]|[_ ->]]]; repeat constructor. }
  assert (List.map to_standard (D ++ P) = D ++ P) as Hstd.
  { rewrite List.map_app, (map_to_standard_digits D _ HD). f_equal.
    clear -HP. induction HP as [|c P -> _ IH]; [done|].
    cbn [List.map]. by rewrite IH. }
  assert (url_to_standard (btoa bytes) +:+ padding (btoa bytes) = btoa bytes)
    as Hplain.
  { rewrite Hb, url_to_standard_sol, Hstd.
    rewrite (padding_matches (D ++ P) []); [apply append_nil_r|].
    left. split; [|done]. rewrite length_app.
    subst D. rewrite length_map.
    destruct H4 as [[Hm ->]|[[Hm ->]|[Hm ->]]]; cbn [length];
      rewrite <- Nat.Div0.add_mod_idemp_l, Hm; done. }
  split; [|split].
  - unfold base64urlToArrayBuffer. rewrite Hplain. by apply atob_btoa.
  - unfold base64urlToArrayBuffer.
    rewrite Hb, (standard_to_url_sol D P _ HD HP).
    rewrite url_to_standard_sol, (map_to_standard_to_url D _ HD).
    rewrite (padding_matches _ P) by (subst D; by rewrite !length_map).
    rewrite <- sol_app, <- Hb. by apply atob_btoa.
  - unfold base64urlDecode. rewrite Hplain, (atob_btoa bytes H). done.
Qed.

(** X9 at four bytes. *)
Lemma base64_round_trip_witness :
  base64urlToArrayBuffer (JWKSClientInv.standard_to_url
                            (arrayBufferToBase64 [1; 0; 1; 255]))
  = Ok [1; 0; 1; 255].
Proof.
  refine (proj1 (proj2 (base64_round_trip [1; 0; 1; 255] _))).
  repeat constructor; unfold byte; lia.
Defined.

(** *** Decoding any string *)

Lemma all_url_chars_los s : all_url_chars s <-> Forall url_char (los s).
Proof.
  induction s as [|c s IH]; cbn [all_url_chars los].
  - split; [constructor|done].
  - rewrite Forall_cons, IH. done.
Qed.

Lemma Forall2_sextet_exists l :
  Forall url_char l ->
  exists vs, Forall2 (fun c v => sextet c = Some v) (List.map to_standard l) vs.
Proof.
  induction 1 as [|c l [v Hc] _ [vs IH]]; [by exists []|].
  exists (v :: vs). by constructor.
Qed.

Lemma occurs_los c s : occurs c s <-> c ∈ los s.
Proof.
  induction s as [|d s IH]; cbn [occurs los].
  - by rewrite elem_of_nil.
  - by rewrite elem_of_cons, IH.
Qed.

Lemma los_app s t : los (s +:+ t) = los s ++ los t.
Proof.
  induction s as [|c s IH]; [done|].
  change (los (String c (s +:+ t)) = c :: los s ++ los t).
  cbn [los]. by rewrite IH.
Qed.

Lemma los_url_to_standard s :
  los (url_to_standard s) = List.map to_standard (los s).
Proof.
  induction s as [|c s IH]; [done|]. cbn [url_to_standard los List.map].
  by rewrite IH.
Qed.

Lemma los_remove_whitespace s :
  los (remove_whitespace s)
  = List.filter (fun c => negb (is_ascii_whitespace c)) (los s).
Proof.
  induction s as [|c s IH]; [done|]. cbn [remove_whitespace los List.filter].
  destruct (is_ascii_whitespace c); cbn [negb los]; by rewrite IH.
Qed.

Lemma sextets_los_bad s c : c ∈ los s -> sextet c = None -> sextets s = None.
Proof.
  intros Hin Hc. apply list_elem_of_split in Hin as (l1 & l2 & Hl).
  rewrite <- (sol_los s), Hl. by apply sextets_bad.
Qed.

(** What [strip_padding] takes away is one or two equals signs. *)
Lemma strip_padding_cases s :
  exists P, Forall (fun c => c = "="%char) P
            /\ los s = los (strip_padding s) ++ P.
Proof.
  unfold strip_padding. destruct (_ =? 0); [|exists []; by rewrite app_nil_r].
  destruct (rev (los s)) as [|a r1] eqn:Hr.
  { exists []. by rewrite app_nil_r. }
  apply (f_equal (@rev ascii)) in Hr. rewrite rev_involutive in Hr.
  cbn [rev] in Hr.
  destruct (Ascii.eqb_spec a "=") as [->|Ha].
  - destruct r1 as [|b r2].
    { exists ["="%char]. split; [by repeat constructor|]. by rewrite Hr. }
    destruct (Ascii.eqb_spec b "=") as [->|Hb].
    + exists ["="%char; "="%char]. split; [by repeat constructor|].
      rewrite los_sol, Hr. cbn [rev]. by rewrite <- app_assoc.
    + exists ["="%char]. split; [by repeat constructor|].
      rewrite Hr.
      destruct b as [[] [] [] [] [] [] [] []]; by rewrite los_sol.
  - exists []. split; [constructor|]. rewrite app_nil_r.
    destruct a as [[] [] [] [] [] [] [] []]; done.
Qed.

(** Property X10. For a string of characters of the base64url or standard
    alphabet, [base64urlToArrayBuffer] throws when the length is 1 modulo 4
    and otherwise returns floor(3 * length / 4) bytes, each from 0 to 255; a
    string that holds any other character, white space and the equals sign
    apart, makes it throw. *)
Theorem base64url_decoding (s : string) :
  let n := Z.of_nat (String.length s) in
  (all_url_chars s -> n mod 4 = 1 ->
   base64urlToArrayBuffer s = throw_error not_correctly_encoded)
  /\ (all_url_chars s -> n mod 4 <> 1 ->
      exists bytes,
        base64urlToArrayBuffer s = Ok bytes
        /\ Z.of_nat (length bytes) = 3 * n / 4 /\ Forall byte bytes)
  /\ (forall c, occurs c s -> ~ url_char c -> c <> "="%char ->
        is_ascii_whitespace c = false ->
        base64urlToArrayBuffer s = throw_error not_correctly_encoded).
Proof.
  intros n. unfold base64urlToArrayBuffer.
  assert (all_url_chars s ->
          exists D vs,
            url_to_standard s = sol D
            /\ Forall2 (fun c v => sextet c = Some v) D vs
            /\ length D = String.length s) as Hshape.
  { intros Hs%all_url_chars_los.
    destruct (Forall2_sextet_exists _ Hs) as [vs Hvs].
    exists (List.map to_standard (los s)), vs.
    split; [by rewrite <- los_url_to_standard, sol_los|]. split; [done|].
    rewrite length_map.
    transitivity (String.length (sol (los s)));
      [by rewrite length_sol|by rewrite sol_los]. }
  pose proof (Z.mod_pos_bound n 4 ltac:(lia)) as Hn.
  split; [|split].
  - intros Hs H1. destruct (Hshape Hs) as (D & vs & -> & HD & Hlen).
    rewrite padding_of_length. fold n. rewrite H1.
    change "===" with (sol ["="%char; "="%char; "="%char]).
    rewrite <- sol_app. unfold atob.
    assert (Forall (fun c => is_ascii_whitespace c = false /\ c <> "="%char) D)
      as Hplain.
    { clear -HD. induction HD as [|c v D vs Hc _ IH]; constructor; [|done].
      by destruct (sextet_plain c v Hc) as (? & ? & _). }
    rewrite remove_whitespace_sol.
    2:{ apply Forall_app. split; [|by repeat constructor].
        eapply Forall_impl; [exact Hplain|]. by intros ? [? _]. }
    rewrite strip_padding_triple by (rewrite Hlen; fold n; by rewrite Z.add_mod, H1 by lia).
    rewrite length_sol, length_app. cbn [length].
    replace (Z.of_nat (length D + 1)) with (n + 1) by (subst n; lia).
    rewrite Z.add_mod, H1 by lia. cbn [Z.eqb].
    change ((1 + 1 mod 4) mod 4 =? 1) with false. cbn iota.
    by rewrite sextets_bad.
  - intros Hs H1. destruct (Hshape Hs) as (D & vs & -> & HD & Hlen).
    assert (Forall (fun v => 0 <= v < 64) vs) as Hvs.
    { clear -HD. induction HD as [|c v D vs Hc _ IH]; constructor; [|done].
      by eapply sextet_range. }
    destruct (decode_sextets_spec vs Hvs) as [Hb Hl].
    exists (decode_sextets vs). split; [|split; [|done]].
    + rewrite padding_of_length. fold n.
      assert (n mod 4 = Z.of_nat (length D mod 4)) as Hm
        by (subst n; by rewrite Hlen, mod4_Z).
      assert (n mod 4 = 0 \/ n mod 4 = 2 \/ n mod 4 = 3) as [H0|[H0|H0]] by lia;
        rewrite H0 in *.
      * rewrite append_nil_r. rewrite <- (app_nil_r D).
        apply atob_padded; [done|]. left. split; [lia|done].
      * change "==" with (sol ["="%char; "="%char]). rewrite <- sol_app.
        apply atob_padded; [done|]. right. right. split; [lia|done].
      * change "=" with (sol ["="%char]). rewrite <- sol_app.
        apply atob_padded; [done|]. right. left. split; [lia|done].
    + rewrite Hl. f_equal. f_equal. apply Forall2_length in HD.
      subst n. lia.
  - intros c Hc Hurl Hne Hws.
    assert (sextet c = None /\ to_standard c = c) as [Hnone Hstd].
    { unfold url_char in Hurl. unfold to_standard in *.
      destruct (Ascii.eqb_spec c "-") as [->|?]; [by destruct Hurl|].
      destruct (Ascii.eqb_spec c "_") as [->|?]; [by destruct Hurl|].
      split; [|done]. by apply eq_None_not_Some. }
    set (t := url_to_standard s +:+ padding s).
    assert (c ∈ los (strip_padding (remove_whitespace t))) as Hin.
    { destruct (strip_padding_cases (remove_whitespace t)) as (P & HP & Heq).
      assert (c ∈ los (remove_whitespace t)) as Hin.
      { rewrite los_remove_whitespace, list_elem_of_In, filter_In,
          <- list_elem_of_In.
        split; [|by rewrite Hws]. subst t.
        rewrite los_app, los_url_to_standard. apply elem_of_app. left.
        rewrite <- Hstd. apply list_elem_of_In, in_map, list_elem_of_In.
        by apply occurs_los. }
      rewrite Heq in Hin. apply elem_of_app in Hin as [?|Hin]; [done|].
      rewrite Forall_forall in HP. by specialize (HP c Hin). }
    unfold atob. fold t. destruct (_ =? 1); [done|].
    by rewrite (sextets_los_bad _ c).
Qed.

(** X10 at a string with a question mark. *)
Lemma base64url_decoding_witness :
  base64urlToArrayBuffer "AQAB?" = throw_error not_correctly_encoded.
Proof.
  apply (proj2 (proj2 (base64url_decoding "AQAB?")) "?"%char).
  - cbn. tauto.
  - vm_compute. by intros [? ?].
  - discriminate.
  - reflexivity.
Defined.

End Base64Laws.

(** ** The JWKS client: fetching and caching *)

Module JWKSClientLaws.

Import JWKSClient LRUCacheInv LRUCacheFacts LRUCacheLaws JWKSClientInv.
Import JWKSClientFacts.

Lemma fetchJwksWithRetry_from_spec net : forall remaining calls,
  (1 <= remaining)%nat ->
  (exists i jwks,
     (i < remaining)%nat
     /\ attempt_fetch (net (calls + i)%nat) = Ok jwks
     /\ (forall j, (j < i)%nat ->
           exists e, attempt_fetch (net (calls + j)%nat) = Throw e)
     /\ fetchJwksWithRetry_from net remaining calls
        = (Ok jwks, S (calls + i)))
  \/ (exists e,
        (forall j, (j < remaining)%nat ->
           exists e', attempt_fetch (net (calls + j)%nat) = Throw e')
        /\ attempt_fetch (net (calls + remaining - 1)%nat) = Throw e
        /\ fetchJwksWithRetry_from net remaining calls
           = (throw_error
                ("Failed to fetch JWKS after " +:+ pretty jwksMaxAttempts
                 +:+ " attempts: " +:+ message_or e "Unknown error"),
              (calls + remaining)%nat)).
Proof.
  induction remaining as [|r IH]; intros calls Hr; [lia|].
  cbn [fetchJwksWithRetry_from].
  destruct (attempt_fetch (net calls)) as [jwks|e] eqn:Ha.
  { left. exists 0%nat, jwks. rewrite Nat.add_0_r.
    split; [lia|]. split; [done|]. split; [intros j ?; lia|done]. }
  destruct r as [|r].
  { right. exists e. split.
    - intros j Hj. assert (j = 0%nat) as -> by lia. rewrite Nat.add_0_r. eauto.
    - replace (calls + 1 - 1)%nat with calls by lia. split; [done|].
      by rewrite Nat.add_1_r. }
  destruct (IH (S calls) ltac:(lia))
    as [(i & jwks & Hi & Hok & Hbefore & ->)|(e' & Hall & Hlast & ->)].
  - left. exists (S i), jwks. split; [lia|].
    replace (calls + S i)%nat with (S calls + i)%nat by lia.
    split; [done|]. split; [|done].
    intros [|j] Hj; [rewrite Nat.add_0_r; eauto|].
    replace (calls + S j)%nat with (S calls + j)%nat by lia.
    apply Hbefore. lia.
  - right. exists e'. split; [|split].
    + intros [|j] Hj; [rewrite Nat.add_0_r; eauto|].
      replace (calls + S j)%nat with (S calls + j)%nat by lia.
      apply Hall. lia.
    + by replace (calls + S (S r) - 1)%nat with (S calls + S r - 1)%nat by lia.
    + f_equal. lia.
Qed.

(** Property X11. [fetchJwksWithRetry] calls [fetch] until an attempt
    succeeds, three times at most: either attempt [i] (counted from 0) is
    the first to succeed, its key set is returned and [i + 1] calls were
    made; or all three attempts fail, three calls were made and the error is
    "Failed to fetch JWKS after 3 attempts: " followed by the message of the
    last failure ("Unknown error" when that was not an [Error]). *)
Theorem fetch_retries_until_success (net : network) (calls : nat) :
  let r := fetchJwksWithRetry net calls in
  (exists i jwks,
     (i < jwksMaxAttempts)%nat
     /\ attempt_fetch (net (calls + i)%nat) = Ok jwks
     /\ (forall j, (j < i)%nat ->
           exists e, attempt_fetch (net (calls + j)%nat) = Throw e)
     /\ r = (Ok jwks, (calls + i + 1)%nat))
  \/ (exists e,
        (forall j, (j < jwksMaxAttempts)%nat ->
           exists e', attempt_fetch (net (calls + j)%nat) = Throw e')
        /\ attempt_fetch (net (calls + jwksMaxAttempts - 1)%nat) = Throw e
        /\ r = (throw_error
                  ("Failed to fetch JWKS after 3 attempts: "
                   +:+ message_or e "Unknown error"),
                (calls + jwksMaxAttempts)%nat)).
Proof.
  intros r. subst r. unfold fetchJwksWithRetry.
  destruct (fetchJwksWithRetry_from_spec net jwksMaxAttempts calls)
    as [(i & jwks & Hi & Hok & Hbefore & ->)|(e & Hall & Hlast & ->)].
  { unfold jwksMaxAttempts. lia. }
  - left. exists i, jwks. repeat (split; [done|]). f_equal. lia.
  - right. exists e. repeat (split; [done|]). done.
Qed.

(** *** Choosing the key *)

(** Property X12. [getSigningKey] takes the first key of the fetched set
    whose [kid] matches: when no earlier key has the identifier, the outcome
    is that of this key alone (the PEM conversion if its type is "RSA", the
    error "Only RSA keys are supported" if not), whatever follows it; a set
    with no key of that identifier gives the error that names the
    identifier. *)
Theorem selectKey_uses_first_match (before after : list JWKSKey)
    (jwk : JWKSKey) (kid_ : string) :
  Forall (fun k => kid k <> kid_) before ->
  (kid jwk = kid_ ->
   selectKey (Some (before ++ jwk :: after)) kid_
   = if String.eqb (kty jwk) "RSA" then jwkToPem jwk
     else throw_error "Only RSA keys are supported")
  /\ selectKey (Some before) kid_
     = throw_error
         ("Unable to find a signing key that matches '" +:+ kid_ +:+ "'").
Proof.
  intros Hb.
  assert (forall rest,
            List.find (fun k => String.eqb (kid k) kid_) (before ++ rest)
            = List.find (fun k => String.eqb (kid k) kid_) rest) as Hfind.
  { intros rest. induction Hb as [|k before Hk _ IH]; [done|].
    cbn [app List.find]. by destruct (String.eqb_spec (kid k) kid_). }
  split.
  - intros Hk. unfold selectKey. rewrite Hfind. cbn [List.find].
    rewrite Hk, String.eqb_refl. by destruct (String.eqb (kty jwk) "RSA").
  - unfold selectKey. rewrite <- (app_nil_r before), Hfind. done.
Qed.

(** X12 at a key set whose first match is not an RSA key. *)
Lemma selectKey_uses_first_match_witness :
  selectKey (Some [mkJWKSKey "EC" "kid-1" None None;
                   test_jwk "kid-1" 256]) "kid-1"
  = throw_error "Only RSA keys are supported".
Proof.
  refine (proj1 (selectKey_uses_first_match []
                   [test_jwk "kid-1" 256]
                   (mkJWKSKey "EC" "kid-1" None None) "kid-1" _) _).
  - constructor.
  - reflexivity.
Defined.

(** *** Serving from the cache *)

Lemma present_nonempty v : v <> "" -> present (Some v) = Some v.
Proof. by destruct v. Qed.

Lemma hit_served (c' : LRUCache.t) uri kid_ v la net calls t3 t4 :
  Inv c' -> Model.lookup (entries c') kid_ = Some (kid_, v, la) -> v <> "" ->
  ttl_exceeded (LRUCache.ttl c') t3 la = false ->
  getSigningKey net (mkClient c' uri) calls kid_ t3 t4
  = (Ok v, mkClient (LRUCache.get c' kid_ t3).2 uri, calls).
Proof.
  intros HI Hl Hv Hlive. rewrite getSigningKey_unfold. cbv zeta.
  cbn [cache jwksUri].
  destruct (get_live c' kid_ v la t3 HI Hl Hlive) as (-> & _).
  by rewrite present_nonempty.
Qed.

(** The key a successful call returned is at the front of the cache. *)
Lemma obtained_key_in_front net c calls kid_ key t1 t2 :
  reachable c ->
  (getSigningKey net c calls kid_ t1 t2).1.1 = Ok key ->
  exists cc la back,
    (getSigningKey net c calls kid_ t1 t2).1.2 = mkClient cc (jwksUri c)
    /\ client_ok (mkClient cc (jwksUri c))
    /\ entries cc = (kid_, key, la) :: back
    /\ (la = t1 \/ la = t2)
    /\ LRUCache.ttl cc = LRUCache.ttl (cache c)
    /\ LRUCache.maxSize cc = LRUCache.maxSize (cache c).
Proof.
  intros Hr Hkey. pose proof (reachable_ok c Hr) as Hok.
  pose proof (client_ok_getSigningKey net c calls kid_ t1 t2 Hok) as Hok'.
  revert Hkey Hok'.
  destruct (lookup_cases c kid_ t1 Hok) as (HI' & Hv' & Hcases).
  rewrite getSigningKey_unfold. cbv zeta.
  set (g := LRUCache.get (cache c) kid_ t1) in *.
  destruct Hok as [HI Hv].
  destruct (get_refines (cache c) kid_ t1 HI)
    as (_ & Hent & _ & (Hm & Httl & _)).
  fold g in Hent, Hm, Httl.
  destruct Hcases as [(v & la & Hl & Hp & Hlive)|(Hp & He & Hnone)].
  - rewrite Hp. cbn [fst snd]. intros [= ->] Hok'.
    exists g.2, t1, (Model.remove (entries (cache c)) kid_).
    split; [done|]. split; [done|]. split.
    { rewrite Hent. unfold Model.get. by rewrite Hl, Hlive. }
    split; [by left|done].
  - rewrite Hp.
    destruct (let! jwks := (fetchJwksWithRetry net calls).1 in selectKey jwks kid_)
      as [pk|e] eqn:Hsel; [|done].
    cbn [fst snd]. intros [= ->] Hok'.
    destruct (set_refines g.2 kid_ key t2 HI') as (Hset & HI'' & (Hm' & Ht' & _)).
    destruct (set_head (entries g.2) kid_ key t2 (LRUCache.maxSize g.2))
      as [rest Hhead]; [by destruct HI' as (_ & _ & ?)|].
    rewrite (stored_absent g.2 kid_ key HI' Hnone) in Hhead.
    exists (LRUCache.set g.2 kid_ key t2), t2, rest.
    split; [done|]. split; [done|]. split; [by rewrite Hset|].
    split; [by right|]. split; congruence.
Qed.

(** *** Counting identifiers *)

Lemma existsb_eqb k ks : existsb (String.eqb k) ks = true <-> k ∈ ks.
Proof.
  rewrite existsb_exists, list_elem_of_In. split.
  - by intros (x & Hx & ->%String.eqb_eq).
  - intros Hk. exists k. by rewrite String.eqb_refl.
Qed.

Lemma distinct_elem k ks : k ∈ distinct ks <-> k ∈ ks.
Proof.
  induction ks as [|x ks IH]; [done|]. cbn [distinct].
  destruct (existsb (String.eqb x) ks) eqn:Hx.
  - apply existsb_eqb in Hx. rewrite IH, elem_of_cons.
    split; [by right|]. by intros [->|].
  - by rewrite !elem_of_cons, IH.
Qed.

Lemma distinct_NoDup ks : NoDup (distinct ks).
Proof.
  induction ks as [|x ks IH]; [constructor|]. cbn [distinct].
  destruct (existsb (String.eqb x) ks) eqn:Hx; [done|].
  constructor; [|done]. rewrite distinct_elem. intros Hin%existsb_eqb.
  congruence.
Qed.

Lemma length_le_distinct (l ks : list string) :
  NoDup l -> (forall x, x ∈ l -> x ∈ ks) ->
  (length l <= length (distinct ks))%nat.
Proof.
  intros Hnd Hsub. apply submseteq_length, NoDup_submseteq; [done|].
  intros x Hx. apply distinct_elem. by apply Hsub.
Qed.

(** *** What lookups of other identifiers leave in place *)

Lemma kept_lookup es kid_ key la seen :
  kept es kid_ key la seen -> kid_ ∉ seen ->
  Model.lookup es kid_ = Some (kid_, key, la).
Proof.
  intros (front & back & -> & Hf) Hk. unfold Model.lookup.
  induction Hf as [|e front He _ IH]; cbn [app List.find].
  - unfold Model.has_key. cbn [fst]. by rewrite String.eqb_refl.
  - destruct (Model.has_key kid_ e) eqn:Hh; [|done].
    apply has_key_true in Hh. congruence.
Qed.

Lemma kept_mono es kid_ key la seen seen' :
  (forall x, x ∈ seen -> x ∈ seen') ->
  kept es kid_ key la seen -> kept es kid_ key la seen'.
Proof.
  intros Hsub (front & back & -> & Hf). exists front, back. split; [done|].
  eapply Forall_impl; [exact Hf|]. intros e He. by apply Hsub.
Qed.

Lemma kept_remove es kid_ key la seen k :
  k <> kid_ -> kept es kid_ key la seen ->
  kept (Model.remove es k) kid_ key la seen.
Proof.
  intros Hk (front & back & -> & Hf). unfold Model.remove.
  rewrite List.filter_app. cbn [List.filter].
  assert (negb (Model.has_key k (kid_, key, la)) = true) as ->.
  { apply negb_true_iff, has_key_false. cbn. congruence. }
  eexists _, _. split; [done|].
  induction Hf as [|e front He _ IH]; cbn [List.filter]; [constructor|].
  destruct (negb (Model.has_key k e)); [by constructor|done].
Qed.

Lemma kept_cons es kid_ key la seen k v now :
  k ∈ seen -> kept es kid_ key la seen ->
  kept ((k, v, now) :: es) kid_ key la seen.
Proof.
  intros Hk (front & back & -> & Hf). exists ((k, v, now) :: front), back.
  split; [done|]. by constructor.
Qed.

Lemma kept_get ttl es kid_ key la seen k now :
  k <> kid_ -> k ∈ seen -> kept es kid_ key la seen ->
  kept (Model.get ttl es k now).2 kid_ key la seen.
Proof.
  intros Hk Hin Hkept. unfold Model.get.
  destruct (Model.lookup es k) as [[[k0 v0] la0]|]; [|done].
  destruct (ttl_exceeded ttl now la0); cbn [snd].
  - by apply kept_remove.
  - by apply kept_cons, kept_remove.
Qed.

(** A new key pushes the others back by one place; the one that falls out
    is not [kid_] as long as fewer identifiers than the cache has places
    stand in front of it. *)
Lemma kept_set maxSize es kid_ key la seen k v now :
  k <> kid_ -> k ∈ seen -> kid_ ∉ seen ->
  NoDup (Model.keys es) -> k ∉ Model.keys es ->
  Z.of_nat (length (distinct seen)) < maxSize ->
  kept es kid_ key la seen ->
  kept (Model.set maxSize es k v now) kid_ key la seen.
Proof.
  intros Hk Hin Hkid Hnd Hnew Hroom (front & back & -> & Hf).
  unfold Model.set.
  rewrite (proj2 (lookup_None_keys _ k) Hnew). cbv zeta.
  destruct (Z.gtb_spec
              (Z.of_nat (length ((k, v, now) :: front ++ (kid_, key, la) :: back)))
              maxSize) as [Hgt|Hle].
  2:{ exists ((k, v, now) :: front), back. split; [done|]. by constructor. }
  assert (length (k :: Model.keys front) <= length (distinct seen))%nat as Hlen.
  { apply length_le_distinct.
    - unfold Model.keys in *. rewrite List.map_app in Hnd, Hnew.
      apply NoDup_app in Hnd as (Hnd & _ & _).
      constructor; [|done]. intros Hk'. apply Hnew.
      apply elem_of_app. by left.
    - intros x [->|Hx]%elem_of_cons; [done|].
      unfold Model.keys in Hx. apply list_elem_of_fmap in Hx as (e & -> & He).
      by apply (proj1 (Forall_forall _ _) Hf). }
  cbn [length] in Hlen, Hgt. unfold Model.keys in Hlen.
  rewrite List.length_map in Hlen. rewrite length_app in Hgt. cbn [length] in Hgt.
  destruct back as [|b back]; [cbn [length] in Hgt; lia|].
  exists ((k, v, now) :: front), (removelast (b :: back)). split.
  - assert ((k, v, now) :: front ++ (kid_, key, la) :: b :: back
            = ((k, v, now) :: front ++ [(kid_, key, la)]) ++ b :: back) as ->
      by (cbn [app]; by rewrite <- app_assoc).
    rewrite removelast_app by done. cbn [app]. by rewrite <- app_assoc.
  - by constructor.
Qed.

(** One call for another identifier. *)
Lemma kept_getSigningKey net c calls k tg ts kid_ key la seen :
  client_ok c -> k <> kid_ -> k ∈ seen -> kid_ ∉ seen ->
  Z.of_nat (length (distinct seen)) < LRUCache.maxSize (cache c) ->
  kept (entries (cache c)) kid_ key la seen ->
  let c' := (getSigningKey net c calls k tg ts).1.2 in
  kept (entries (cache c')) kid_ key la seen
  /\ client_ok c'
  /\ LRUCache.maxSize (cache c') = LRUCache.maxSize (cache c)
  /\ LRUCache.ttl (cache c') = LRUCache.ttl (cache c)
  /\ jwksUri c' = jwksUri c.
Proof.
  intros Hok Hk Hin Hkid Hroom Hkept c'.
  pose proof (client_ok_getSigningKey net c calls k tg ts Hok) as Hok'.
  fold c' in Hok'. subst c'. revert Hok'.
  destruct (lookup_cases c k tg Hok) as (HI' & _ & _).
  rewrite getSigningKey_unfold. cbv zeta.
  set (g := LRUCache.get (cache c) k tg) in *.
  destruct Hok as [HI Hv].
  destruct (get_refines (cache c) k tg HI) as (_ & Hent & _ & (Hm & Httl & _)).
  fold g in Hent, Hm, Httl.
  assert (kept (entries g.2) kid_ key la seen) as Hkept'.
  { rewrite Hent. by apply kept_get. }
  destruct (present g.1) as [hit|] eqn:Hp; [by cbn [fst snd cache jwksUri]|].
  destruct (let! jwks := (fetchJwksWithRetry net calls).1 in selectKey jwks k)
    as [pk|e] eqn:Hsel; [|by cbn [fst snd cache jwksUri]].
  cbn [fst snd cache jwksUri]. intros Hok'.
  destruct (set_refines g.2 k pk ts HI') as (Hset & _ & (Hm' & Ht' & _)).
  split; [|split; [done|split; [congruence|split; [congruence|done]]]].
  rewrite Hset.
  destruct (Model.lookup (entries g.2) k) as [[[k0 v0] la0]|] eqn:Hl.
  - unfold Model.set. rewrite Hl. by apply kept_cons, kept_remove.
  - apply kept_set; try done.
    + by apply (Inv_NoDup_keys g.2).
    + by apply lookup_None_keys.
    + congruence.
Qed.

Lemma lookups_cons c calls op ops :
  lookups c calls (op :: ops)
  = lookups (getSigningKey op.1.1.1 c calls (asked op) op.1.2 op.2).1.2
      (getSigningKey op.1.1.1 c calls (asked op) op.1.2 op.2).2 ops.
Proof. done. Qed.

Lemma kept_lookups kid_ key la seen ops : forall c calls,
  client_ok c -> kid_ ∉ seen ->
  Forall (fun op => asked op ∈ seen) ops ->
  Z.of_nat (length (distinct seen)) < LRUCache.maxSize (cache c) ->
  kept (entries (cache c)) kid_ key la seen ->
  let c' := (lookups c calls ops).1 in
  kept (entries (cache c')) kid_ key la seen
  /\ client_ok c'
  /\ LRUCache.ttl (cache c') = LRUCache.ttl (cache c)
  /\ jwksUri c' = jwksUri c.
Proof.
  induction ops as [|op ops IH]; intros c calls Hok Hkid Hops Hroom Hkept.
  { by cbn. }
  apply Forall_cons in Hops as [Hop Hops]. rewrite lookups_cons.
  set (r := getSigningKey op.1.1.1 c calls (asked op) op.1.2 op.2).
  destruct (kept_getSigningKey op.1.1.1 c calls (asked op) op.1.2 op.2
              kid_ key la seen)
    as (Hkept1 & Hok1 & Hm1 & Ht1 & Hu1); try done.
  { congruence. }
  fold r in Hkept1, Hok1, Hm1, Ht1, Hu1.
  destruct (IH r.1.2 r.2) as (Hk2 & Hok2 & Ht2 & Hu2); try done.
  { by rewrite Hm1. }
  cbv zeta in *. split; [done|]. split; [done|]. split; congruence.
Qed.

(** Property X13. For every reachable client: after a call of
    [getSigningKey] returned a key for an identifier, and after any calls
    for other identifiers, fewer of them than the cache has places, the next
    call for that identifier returns the same key without any call of
    [fetch], whatever the network does, provided the time to live has not
    passed since the first call. (Lookups of as many other identifiers as
    the cache has places can push the key out, and [clear] drops it.) *)
Theorem obtained_key_is_served_from_cache (net net' : network)
    (c : JWKSClient.t) (calls calls' : nat) (kid_ key : string)
    (t1 t2 t3 t4 : Z) (others : list lookup_call) :
  reachable c ->
  let r := getSigningKey net c calls kid_ t1 t2 in
  r.1.1 = Ok key ->
  Forall (fun op => asked op <> kid_) others ->
  Z.of_nat (length (distinct (List.map asked others)))
  < LRUCache.maxSize (cache c) ->
  ttl_exceeded (LRUCache.ttl (cache c)) t3 t1 = false ->
  ttl_exceeded (LRUCache.ttl (cache c)) t3 t2 = false ->
  let s := lookups r.1.2 r.2 others in
  let r' := getSigningKey net' s.1 calls' kid_ t3 t4 in
  r'.1.1 = Ok key /\ r'.2 = calls'.
Proof.
  intros Hr r Hkey Hothers Hroom Hlive1 Hlive2 s r'. subst r r' s.
  destruct (obtained_key_in_front net c calls kid_ key t1 t2 Hr Hkey)
    as (cc & la & back & -> & Hok & Hent & Hla & Httl & Hmax).
  assert (kid_ ∉ List.map asked others) as Hnot.
  { intros Hin. apply list_elem_of_fmap in Hin as (op & Hop & Hin).
    by apply (proj1 (Forall_forall _ _) Hothers op). }
  destruct (kept_lookups kid_ key la (List.map asked others) others
              (mkClient cc (jwksUri c))
              (getSigningKey net c calls kid_ t1 t2).2)
    as (Hkept & [HI Hv] & Ht & _); try done.
  { apply Forall_forall. intros op Hop. by apply list_elem_of_fmap_2. }
  { cbn [cache]. by rewrite Hmax. }
  { cbn [cache]. rewrite Hent. by exists [], back. }
  cbv zeta in Hkept, HI, Hv, Ht. cbn [cache] in Ht.
  set (s := lookups _ _ others) in *.
  destruct s.1 as [cs uri] eqn:Hs. cbn [cache] in *.
  pose proof (kept_lookup _ _ _ _ _ Hkept Hnot) as Hl.
  pose proof (values_nonempty_lookup _ _ _ Hv Hl) as Hne. cbn in Hne.
  rewrite (hit_served cs uri kid_ key la); [done|done|done|done|].
  rewrite Ht, Httl. by destruct Hla as [-> | ->].
Qed.

(** X13 at a key fetched once, asked for again while the network is down
    and after a failed lookup of another identifier. *)
Lemma obtained_key_is_served_from_cache_witness :
  let r := getSigningKey net_up (test_client None) 0 "test-key-id" 1 2 in
  let s := lookups r.1.2 r.2 [(net_down, "other", 3, 4)] in
  (getSigningKey net_down s.1 s.2 "test-key-id" 5 6).1.1
  = Ok (pem_of (test_modulus 256) [1; 0; 1]).
Proof.
  cbv zeta.
  refine (proj1 (obtained_key_is_served_from_cache net_up net_down
                   (test_client None) 0 _ "test-key-id" _ 1 2 5 6
                   [(net_down, "other", 3, 4)] _ _ _ _ _ _)).
  - by apply test_client_reachable.
  - vm_compute. reflexivity.
  - repeat constructor. vm_compute. discriminate.
  - vm_compute. reflexivity.
  - reflexivity.
  - reflexivity.
Defined.

(** *** Emptying the cache *)

(** Property X14. For every reachable client, [clear()] leaves the cache
    empty with its capacity unchanged, and the next [getSigningKey] makes at
    least one call of [fetch], whatever identifier it asks for. *)
Theorem clear_forces_refetch (net : network) (c : JWKSClient.t) (calls : nat)
    (kid_ : string) (t1 t2 : Z) :
  reachable c ->
  getCacheStats (clear c) = (0, LRUCache.maxSize (cache c))
  /\ (calls < (getSigningKey net (clear c) calls kid_ t1 t2).2)%nat
  /\ reachable (clear c).
Proof.
  intros Hr. split; [|split].
  - unfold getCacheStats, LRUCache.getStats, LRUCache.size_, clear.
    cbn [cache LRUCache.clear LRUCache.cache LRUCache.maxSize]. done.
  - rewrite getSigningKey_unfold. cbv zeta.
    assert (LRUCache.get (cache (clear c)) kid_ t1 = (None, cache (clear c)))
      as ->.
    { unfold LRUCache.get, clear. cbn [cache LRUCache.clear LRUCache.cache].
      by rewrite lookup_empty. }
    cbn [fst present].
    pose proof (fetchJwksWithRetry_calls net calls).
    by destruct (let! jwks := _ in _).
  - by constructor.
Qed.

(** X14 at a client that had fetched a key. *)
Lemma clear_forces_refetch_witness :
  let r := getSigningKey net_up (test_client None) 0 "test-key-id" 1 2 in
  (r.2 < (getSigningKey net_up (clear r.1.2) r.2 "test-key-id" 3 4).2)%nat.
Proof.
  cbv zeta.
  refine (proj1 (proj2 (clear_forces_refetch net_up _ _ "test-key-id" 3 4 _))).
  constructor. by apply test_client_reachable.
Defined.

(** *** What the client keeps *)

(** Property X15. For every reachable client the cache holds at most
    [maxSize] keys, every cached value is a non-empty string, and a cached
    identifier whose entry has not expired is answered with its value
    without any call of [fetch]. *)
Theorem client_cache_invariant (c : JWKSClient.t) :
  reachable c ->
  0 <= (getCacheStats c).1 <= (getCacheStats c).2
  /\ forall kid_ v la,
       Model.lookup (entries (cache c)) kid_ = Some (kid_, v, la) ->
       v <> ""
       /\ forall net calls t t',
            ttl_exceeded (LRUCache.ttl (cache c)) t la = false ->
            (getSigningKey net c calls kid_ t t').1.1 = Ok v
            /\ (getSigningKey net c calls kid_ t t').2 = calls.
Proof.
  intros Hr. destruct (reachable_ok c Hr) as [HI Hv]. split.
  - unfold getCacheStats, LRUCache.getStats. cbn [fst snd].
    rewrite (Inv_size _ HI). pose proof (Inv_length _ HI). lia.
  - intros kid_ v la Hl.
    pose proof (values_nonempty_lookup _ _ _ Hv Hl) as Hne. cbn in Hne.
    split; [done|]. intros net calls t t' Hlive.
    destruct c as [cc uri]. cbn [cache] in *.
    by rewrite (hit_served cc uri kid_ v la).
Qed.

(** X15 at a client that has fetched one key. *)
Lemma client_cache_invariant_witness :
  let r := getSigningKey net_up (test_client None) 0 "test-key-id" 1 2 in
  0 <= (getCacheStats r.1.2).1 <= (getCacheStats r.1.2).2.
Proof.
  cbv zeta. refine (proj1 (client_cache_invariant _ _)).
  constructor. by apply test_client_reachable.
Defined.

(** *** Construction *)

Lemma cache_constructor_cases options :
  match LRUCache.constructor options with
  | Ok c =>
      exists m, opt_maxSize options = Int m /\ 0 < m
                /\ c = empty_cache m (opt_ttl options)
                /\ forall ttl_, opt_ttl options = Some ttl_ ->
                     number_truthy ttl_ = false \/ positive_integer ttl_
  | Throw _ =>
      ~ positive_integer (opt_maxSize options)
      \/ exists ttl_, opt_ttl options = Some ttl_
                      /\ number_truthy ttl_ = true /\ ~ positive_integer ttl_
  end.
Proof.
  unfold LRUCache.constructor.
  destruct (negb (number_truthy (opt_maxSize options))
            || negb (isInteger (opt_maxSize options))
            || number_le0 (opt_maxSize options)) eqn:Hm.
  { left. intros Hp%constructor_maxSize_guard. congruence. }
  apply constructor_maxSize_guard in Hm as (m & Hmax & Hm0). rewrite Hmax.
  destruct (opt_ttl options) as [ttl_|] eqn:Httl.
  - destruct (number_truthy ttl_ && (negb (isInteger ttl_) || number_le0 ttl_))
      eqn:Hg.
    + right. exists ttl_. split; [done|]. by apply constructor_ttl_guard.
    + exists m. split; [done|]. split; [done|]. split; [done|].
      intros ? [= <-]. destruct (number_truthy ttl_) eqn:Ht; [|by left].
      right. destruct ttl_ as [z| | |]; try done. cbn in Hg, Ht.
      exists z. split; [done|]. destruct (Z.leb_spec z 0); [|done].
      by destruct (z =? 0).
  - exists m. split; [done|]. split; [done|]. split; [done|]. done.
Qed.

(** Property X16. The constructor of the JWKS client throws exactly when
    [jwksUri] is missing or blank, or [cacheMaxSize ?? 20] is not a positive
    integer, or [cacheTtl] is given, is neither 0 nor NaN, and is not a
    positive integer; when it succeeds the client has the given address, an
    empty cache of that capacity (20 by default) and the given time to live. *)
Theorem client_constructor_exact (config : JWKSClientConfig) :
  let maxSize_ := default (Int 20) (cfg_cacheMaxSize config) in
  ((exists e, constructor config = Throw e) <->
     (forall uri, cfg_jwksUri config = Some uri -> truthy (trim uri) = false)
     \/ ~ positive_integer maxSize_
     \/ exists ttl_, cfg_cacheTtl config = Some ttl_
                     /\ number_truthy ttl_ = true /\ ~ positive_integer ttl_)
  /\ (forall c, constructor config = Ok c ->
        cfg_jwksUri config = Some (jwksUri c)
        /\ maxSize_ = Int (LRUCache.maxSize (cache c))
        /\ getCacheStats c = (0, LRUCache.maxSize (cache c))
        /\ LRUCache.ttl (cache c) = cfg_cacheTtl config
        /\ reachable c).
Proof.
  intros maxSize_. unfold constructor.
  change (match cfg_cacheMaxSize config with Some m => m | None => Int 20 end)
    with maxSize_.
  pose proof (cache_constructor_cases
                (mkCacheOptions maxSize_ (cfg_cacheTtl config))) as Hc.
  cbn [opt_maxSize opt_ttl] in Hc.
  destruct (cfg_jwksUri config) as [uri|] eqn:Huri.
  2:{ split; [|done]. split; [|unfold throw_error; eauto].
      intros _. left. by intros ? [=]. }
  destruct (truthy (trim uri)) eqn:Ht; cbn [negb].
  2:{ split; [|done]. split; [|unfold throw_error; eauto].
      intros _. left. by intros ? [= <-]. }
  destruct (LRUCache.constructor _) as [cc|e] eqn:Hcc; cbn [bind].
  - destruct Hc as (m & Hm & Hm0 & -> & Httl). split.
    + split; [by intros [? ?]|].
      intros [Hblank|[Hn|(ttl_ & Hs & Htr & Hn)]].
      * specialize (Hblank uri eq_refl). congruence.
      * destruct Hn. exists m. by split.
      * destruct (Httl ttl_ Hs); [congruence|done].
    + intros c [= <-]. cbn [jwksUri cache]. split; [done|].
      split; [done|]. split; [done|]. split; [done|].
      apply (reachable_new config). unfold constructor.
      rewrite Huri, Ht. cbn [negb].
      change (match cfg_cacheMaxSize config with Some m => m | None => Int 20 end)
        with maxSize_.
      by rewrite Hcc.
  - split; [|done]. split; [|eauto]. intros _. right. exact Hc.
Qed.

(** X16 at a configuration that leaves the capacity out. *)
Lemma client_constructor_exact_witness :
  getCacheStats (test_client None) = (0, 20).
Proof.
  refine (proj1 (proj2 (proj2 (proj2
            (client_constructor_exact
               (mkConfig (Some "https://issuer/jwks") None None))
            (test_client None) _)))).
  reflexivity.
Defined.

End JWKSClientLaws.

(** ** PEM: from the JWK to the key handed to the platform *)

Module PemLaws.

Import Base64 Base64Inv ByteFacts Base64Laws JWKSClient JWKSClientInv Crypto.
Import ValidatorFacts DERFacts.

Lemma createRSAPublicKeyDER_nonempty n e : createRSAPublicKeyDER n e <> [].
Proof. done. Qed.

(** *** The characters of the PEM body *)

Lemma base64_char_digit v : base64_char (digit v).
Proof.
  unfold base64_char, digit. generalize (Z.to_nat v) as k. intros k.
  do 64 (destruct k as [|k]; [left; by eexists|]). by right.
Qed.

Lemma all_base64_chars_btoa bytes : all_base64_chars (btoa bytes).
Proof.
  induction bytes as [|a|a b|a b c r IH] using list_ind3;
    cbn [btoa all_base64_chars];
    repeat (split; [apply base64_char_digit || (by right)|]); done.
Qed.

Lemma base64_char_plain c :
  base64_char c ->
  is_space c = false /\ is_ascii_whitespace c = false /\ c <> "-"%char
  /\ c <> ascii_of_nat 10.
Proof.
  intros [[v Hv]| ->]; [|by repeat split].
  revert Hv. destruct c as [[] [] [] [] [] [] [] []]; vm_compute; intros H;
    try discriminate H; repeat split; discriminate.
Qed.

Lemma all_base64_chars_occurs s d :
  all_base64_chars s -> occurs d s -> base64_char d.
Proof.
  induction s as [|c s IH]; cbn [all_base64_chars occurs]; [done|].
  intros [Hc Hs] [->|Hd]; [done|by apply IH].
Qed.

(** *** Searching and cutting strings *)

Lemma append_assoc a b c : (a +:+ b) +:+ c = a +:+ (b +:+ c).
Proof.
  induction a as [|x a IH]; [done|].
  rewrite !append_String. by rewrite IH.
Qed.

Lemma prefix_refl p : String.prefix p p = true.
Proof.
  induction p as [|c p IH]; [done|]. cbn [String.prefix].
  by destruct (ascii_dec c c).
Qed.

Lemma includes_prefix s p : String.prefix p s = true -> includes s p = true.
Proof. intros H. destruct s; cbn [includes]; by rewrite H. Qed.

Lemma includes_app_r x p : includes (x +:+ p) p = true.
Proof.
  induction x as [|c x IH].
  - rewrite append_empty. apply includes_prefix, prefix_refl.
  - rewrite append_String. cbn [includes]. rewrite IH. apply orb_true_r.
Qed.

Lemma remove_first_eq p s :
  remove_first p s
  = if String.prefix p s then substring_from (String.length p) s
    else match s with
         | EmptyString => EmptyString
         | String c s' => String c (remove_first p s')
         end.
Proof. by destruct s. Qed.

Lemma remove_first_prefix p x : remove_first p (p +:+ x) = x.
Proof.
  rewrite remove_first_eq.
  change (String.prefix p (p +:+ x)) with (startsWith (p +:+ x) p).
  by rewrite startsWith_app, substring_from_app.
Qed.

Lemma occurs_app d a b : occurs d (a +:+ b) <-> occurs d a \/ occurs d b.
Proof.
  induction a as [|c a IH].
  - rewrite append_empty. cbn [occurs]. tauto.
  - rewrite append_String. cbn [occurs]. rewrite IH. tauto.
Qed.

Lemma remove_first_suffix c p z :
  (forall d, occurs d z -> d <> c) ->
  remove_first (String c p) (z +:+ String c p) = z.
Proof.
  induction z as [|d z IH]; intros Hz.
  - rewrite append_empty, remove_first_eq, prefix_refl.
    rewrite <- (append_nil_r (String c p)) at 2.
    apply substring_from_app.
  - rewrite append_String, remove_first_eq. cbn [String.prefix].
    destruct (ascii_dec c d) as [->|Hne].
    { exfalso. apply (Hz d); [by left|done]. }
    rewrite IH; [done|]. intros d' Hd'. apply Hz. by right.
Qed.

Lemma remove_space_app a b :
  remove_space (a +:+ b) = remove_space a +:+ remove_space b.
Proof.
  induction a as [|c a IH]; [done|].
  rewrite append_String. cbn [remove_space].
  destruct (is_space c); [done|]. by rewrite append_String, IH.
Qed.

Lemma remove_space_wrap_lines s : forall room,
  all_base64_chars s -> remove_space (wrap_lines room s) = s.
Proof.
  induction s as [|c s IH]; intros room; [done|].
  cbn [all_base64_chars wrap_lines]. intros [Hc Hs].
  destruct (base64_char_plain c Hc) as (Hsp & _).
  destruct room as [|room]; cbn [remove_space].
  - change (is_space (ascii_of_nat 10)) with true. cbn iota.
    by rewrite Hsp, IH.
  - by rewrite Hsp, IH.
Qed.

Lemma occurs_wrap_lines d s : forall room,
  occurs d (wrap_lines room s) -> d = ascii_of_nat 10 \/ occurs d s.
Proof.
  induction s as [|c s IH]; intros room; cbn [wrap_lines occurs]; [tauto|].
  destruct room as [|room]; cbn [occurs].
  - intros [?|[?|H]]; [by left|right; by left|].
    destruct (IH _ H); [by left|right; by right].
  - intros [?|H]; [right; by left|].
    destruct (IH _ H); [by left|right; by right].
Qed.

(** *** From the PEM text back to the DER bytes *)

Lemma pem_contents (b64 : string) :
  all_base64_chars b64 ->
  let pem := pemHeader +:+ newline +:+ wrap_lines 64 b64 +:+ newline
             +:+ pemFooter in
  includes pem pemHeader = true /\ includes pem pemFooter = true
  /\ remove_space (remove_first pemFooter (remove_first pemHeader pem)) = b64.
Proof.
  intros Hb. cbv zeta. split; [|split].
  - apply includes_prefix.
    change (String.prefix pemHeader ?s) with (startsWith s pemHeader).
    apply startsWith_app.
  - rewrite <- !append_assoc. apply includes_app_r.
  - rewrite remove_first_prefix.
    rewrite <- (append_assoc newline), <- (append_assoc (newline +:+ _)).
    change pemFooter with (String "-"%char "----END PUBLIC KEY-----").
    rewrite remove_first_suffix.
    + rewrite !remove_space_app. change (remove_space newline) with "".
      rewrite append_empty, append_nil_r. by apply remove_space_wrap_lines.
    + intros d [[[->|[]]|Hd]%occurs_app|[->|[]]]%occurs_app; [done| |done].
      apply occurs_wrap_lines in Hd as [->|Hd]; [done|].
      by destruct (base64_char_plain d (all_base64_chars_occurs _ _ Hb Hd))
        as (_ & _ & ? & _).
Qed.

Section ImportKey.

Variable CryptoKey : Type.
Variable importKey : list Z -> Exc CryptoKey.

Lemma importRSAPublicKey_pem_of nBuffer eBuffer :
  Forall byte nBuffer -> Forall byte eBuffer ->
  importRSAPublicKey CryptoKey importKey (pem_of nBuffer eBuffer)
  = match importKey (createRSAPublicKeyDER nBuffer eBuffer) with
    | Ok key => Ok key
    | Throw error =>
        throw_error ("Failed to import RSA public key: "
                     +:+ message_or error "Unknown error")
    end.
Proof.
  intros Hn He. unfold importRSAPublicKey, pem_of.
  destruct (pem_contents (btoa (createRSAPublicKeyDER nBuffer eBuffer)))
    as (-> & -> & ->); [apply all_base64_chars_btoa|].
  cbn [negb orb]. rewrite atob_btoa by (by apply createRSAPublicKeyDER_bytes).
  cbn [bind]. by destruct (importKey _).
Qed.

End ImportKey.

Lemma Ok_inj {A} (a b : A) : Ok a = Ok b -> a = b.
Proof. by intros [= ->]. Qed.

Lemma jwkToPem_Ok jwk pem :
  jwkToPem jwk = Ok pem ->
  exists n_ e_ nBuffer eBuffer,
    n jwk = Some n_ /\ e jwk = Some e_
    /\ base64urlToArrayBuffer n_ = Ok nBuffer
    /\ base64urlToArrayBuffer e_ = Ok eBuffer
    /\ 2048 <= Z.of_nat (length nBuffer) * 8
    /\ pem = pem_of nBuffer eBuffer.
Proof.
  unfold jwkToPem, present.
  destruct (n jwk) as [n_|] eqn:Hn; [|done].
  destruct (truthy n_); [|done].
  destruct (e jwk) as [e_|] eqn:He; [|done].
  destruct (truthy e_); [|done].
  destruct (base64urlToArrayBuffer n_) as [nBuffer|] eqn:Hnb; [|done].
  cbn [bind].
  destruct (Z.ltb_spec (Z.of_nat (length nBuffer) * 8) 2048) as [|Hbits];
    [done|].
  destruct (base64urlToArrayBuffer e_) as [eBuffer|] eqn:Heb; [|done].
  cbn [bind]. unfold arrayBufferToBase64.
  rewrite truthy_btoa by apply createRSAPublicKeyDER_nonempty. cbn [negb].
  intros Heq%Ok_inj. exists n_, e_, nBuffer, eBuffer.
  split; [reflexivity|]. split; [reflexivity|]. split; [exact Hnb|].
  split; [exact Heb|]. split; [exact Hbits|]. symmetry. exact Heq.
Qed.

(** Property X19. Whenever [jwkToPem] returns a PEM text,
    [importRSAPublicKey] applied to that text hands to
    [crypto.subtle.importKey] exactly the DER bytes [createRSAPublicKeyDER]
    built from the decoded [n] and [e] of the JWK, and returns its key or
    wraps its failure. *)
Theorem pem_imports_the_encoded_key (CryptoKey : Type)
    (importKey : list Z -> Exc CryptoKey) (jwk : JWKSKey) (pem : string) :
  jwkToPem jwk = Ok pem ->
  exists n_ e_ nBuffer eBuffer,
    n jwk = Some n_ /\ e jwk = Some e_
    /\ base64urlToArrayBuffer n_ = Ok nBuffer
    /\ base64urlToArrayBuffer e_ = Ok eBuffer
    /\ 2048 <= Z.of_nat (length nBuffer) * 8
    /\ pem = pem_of nBuffer eBuffer
    /\ importRSAPublicKey CryptoKey importKey pem
       = match importKey (createRSAPublicKeyDER nBuffer eBuffer) with
         | Ok key => Ok key
         | Throw error =>
             throw_error ("Failed to import RSA public key: "
                          +:+ message_or error "Unknown error")
         end.
Proof.
  intros (n_ & e_ & nBuffer & eBuffer & Hn & He & Hnb & Heb & Hbits & ->)
    %jwkToPem_Ok.
  exists n_, e_, nBuffer, eBuffer. repeat (split; [done|]).
  apply importRSAPublicKey_pem_of; by eapply atob_bytes.
Qed.

(** X19 at the 2048-bit key of the tests and a platform that keeps the
    bytes. *)
Lemma pem_imports_the_encoded_key_witness :
  importRSAPublicKey (list Z) Ok (pem_of (test_modulus 256) [1; 0; 1])
  = Ok (createRSAPublicKeyDER (test_modulus 256) [1; 0; 1]).
Proof.
  destruct (pem_imports_the_encoded_key (list Z) Ok
              (test_jwk "test-key-id" 256)
              (pem_of (test_modulus 256) [1; 0; 1]))
    as (n_ & e_ & nBuffer & eBuffer & Hn & He & Hnb & Heb & _ & _ & Himp).
  - by vm_compute.
  - rewrite Himp.
    assert (nBuffer = test_modulus 256) as ->.
    { injection Hn as <-. vm_compute in Hnb. by injection Hnb as <-. }
    assert (eBuffer = [1; 0; 1]) as ->.
    { injection He as <-. vm_compute in Heb. by injection Heb as <-. }
    reflexivity.
Defined.



(** *** The lines of the PEM text *)

Lemma split_cons_ne sep c s :
  c <> sep ->
  split sep (String c s)
  = match split sep s with
    | p :: ps => String c p :: ps
    | [] => [String c EmptyString]
    end.
Proof.
  intros Hne. cbn [split]. by destruct (Ascii.eqb_spec c sep).
Qed.

Lemma split_cons_eq sep s : split sep (String sep s) = "" :: split sep s.
Proof. cbn [split]. by rewrite Ascii.eqb_refl. Qed.

Lemma split_nonempty sep s : split sep s <> [].
Proof.
  induction s as [|c s IH]; [done|]. cbn [split].
  destruct (Ascii.eqb c sep); [done|]. by destruct (split sep s).
Qed.

Lemma split_app_sep sep x y :
  split sep (x +:+ String sep y) = split sep x ++ split sep y.
Proof.
  induction x as [|c x IH].
  - by rewrite append_empty, split_cons_eq.
  - rewrite append_String. destruct (decide (c = sep)) as [->|Hne].
    + by rewrite !split_cons_eq, IH.
    + rewrite !split_cons_ne, IH by done.
      pose proof (split_nonempty sep x). by destruct (split sep x).
Qed.

Lemma wrap_lines_lines s : forall room,
  (forall d, occurs d s -> d <> ascii_of_nat 10) ->
  exists l0 ls,
    lines (wrap_lines room s) = l0 :: ls
    /\ (String.length l0 <= room)%nat
    /\ (ls <> [] -> String.length l0 = room)
    /\ (ls = [] -> l0 = s)
    /\ Forall (fun l => (1 <= String.length l <= 64)%nat) ls
    /\ Forall (fun l => String.length l = 64%nat) (removelast ls)
    /\ fold_right append "" (l0 :: ls) = s.
Proof.
  unfold lines. induction s as [|c s IH]; intros room Hs.
  { exists "", []. cbn. repeat split; (done || lia || constructor). }
  assert (c <> ascii_of_nat 10) as Hc by (apply Hs; by left).
  assert (forall d, occurs d s -> d <> ascii_of_nat 10) as Hs'
    by (intros d Hd; apply Hs; by right).
  destruct room as [|room]; cbn [wrap_lines].
  - destruct (IH 63%nat Hs') as (p & ps & Hsplit & Hlen & Hfull & Hone & Hall
                                  & Hlast & Hcat).
    exists "", (String c p :: ps).
    rewrite split_cons_eq, split_cons_ne, Hsplit by done.
    split; [done|]. split; [done|]. split; [done|]. split; [done|].
    split; [|split].
    + constructor; [cbn [String.length]; lia|done].
    + destruct ps as [|q ps]; [constructor|].
      change (removelast (String c p :: q :: ps))
        with (String c p :: removelast (q :: ps)).
      constructor; [|done]. cbn [String.length]. by rewrite Hfull.
    + cbn [fold_right] in *. by rewrite append_empty, append_String, Hcat.
  - destruct (IH room Hs') as (p & ps & Hsplit & Hlen & Hfull & Hone & Hall
                                 & Hlast & Hcat).
    exists (String c p), ps. rewrite split_cons_ne, Hsplit by done.
    split; [done|]. split; [cbn [String.length]; lia|].
    split; [intros H; cbn [String.length]; by rewrite Hfull|].
    split; [intros H; by rewrite Hone|].
    split; [done|]. split; [done|].
    cbn [fold_right] in *. by rewrite append_String, Hcat.
Qed.

Lemma newline_append x : newline +:+ x = String (ascii_of_nat 10) x.
Proof. reflexivity. Qed.

Lemma lines_pemHeader : split (ascii_of_nat 10) pemHeader = [pemHeader].
Proof. by vm_compute. Qed.

Lemma lines_pemFooter : split (ascii_of_nat 10) pemFooter = [pemFooter].
Proof. by vm_compute. Qed.

(** Property X18. Whenever [jwkToPem] returns, the text has the header line
    first and the footer line last; between them there is at least one line,
    every line has from 1 to 64 characters, every line but the last has 64,
    and the lines hold base64 characters only. *)
Theorem pem_lines (jwk : JWKSKey) (pem : string) :
  jwkToPem jwk = Ok pem ->
  exists body,
    lines pem = pemHeader :: body ++ [pemFooter]
    /\ body <> []
    /\ Forall (fun l => (1 <= String.length l <= 64)%nat) body
    /\ Forall (fun l => String.length l = 64%nat) (removelast body)
    /\ all_base64_chars (fold_right append "" body).
Proof.
  intros (n_ & e_ & nBuffer & eBuffer & Hn & He & Hnb & Heb & Hbits & ->)
    %jwkToPem_Ok.
  unfold pem_of. set (b64 := btoa (createRSAPublicKeyDER nBuffer eBuffer)).
  pose proof (all_base64_chars_btoa (createRSAPublicKeyDER nBuffer eBuffer))
    as Hb. fold b64 in Hb.
  assert (b64 <> "") as Hne.
  { apply truthy_true, truthy_btoa, createRSAPublicKeyDER_nonempty. }
  clearbody b64.
  destruct (wrap_lines_lines b64 64)
    as (l0 & ls & Hsplit & Hlen & Hfull & Hone & Hall & Hlast & Hcat).
  { intros d Hd.
    by destruct (base64_char_plain d (all_base64_chars_occurs _ _ Hb Hd))
      as (_ & _ & _ & ?). }
  exists (l0 :: ls). split; [|split; [discriminate|split; [|split]]].
  - unfold lines in *. rewrite !newline_append, !split_app_sep, Hsplit.
    by rewrite lines_pemHeader, lines_pemFooter.
  - constructor; [|done]. split; [|done].
    destruct ls as [|l1 ls]; [|rewrite Hfull by discriminate; lia].
    rewrite (Hone eq_refl). destruct b64 as [|c b64]; [by destruct Hne|].
    cbn [String.length]. lia.
  - destruct ls as [|l1 ls]; [constructor|].
    change (removelast (l0 :: l1 :: ls)) with (l0 :: removelast (l1 :: ls)).
    constructor; [by apply Hfull|done].
  - by rewrite Hcat.
Qed.

(** X18 at the 2048-bit key of the tests. *)
Lemma pem_lines_witness :
  exists body,
    lines (pem_of (test_modulus 256) [1; 0; 1])
    = pemHeader :: body ++ [pemFooter]
    /\ Forall (fun l => (1 <= String.length l <= 64)%nat) body.
Proof.
  destruct (pem_lines (test_jwk "test-key-id" 256)
              (pem_of (test_modulus 256) [1; 0; 1]))
    as (body & Hlines & _ & Hlen & _).
  - by vm_compute.
  - exists body. by split.
Defined.

(** *** Verifying a signature *)

(** Property X20. [importRSAPublicKey] throws "Failed to import RSA public
    key: Invalid PEM format - missing headers" when the text lacks the
    header or the footer marker, whatever the platform does; every error it
    throws is an [Error] whose message starts with "Failed to import RSA
    public key: "; and when it returns a key, both markers were present and
    the key is what [importKey] made of the decoded contents. *)
Theorem import_failures_are_wrapped (CryptoKey : Type)
    (importKey : list Z -> Exc CryptoKey) (pemKey : string) :
  (includes pemKey pemHeader = false \/ includes pemKey pemFooter = false ->
   importRSAPublicKey CryptoKey importKey pemKey
   = throw_error ("Failed to import RSA public key: "
                  +:+ "Invalid PEM format - missing headers"))
  /\ (forall error,
        importRSAPublicKey CryptoKey importKey pemKey = Throw error ->
        exists cause,
          error = ErrorObject ("Failed to import RSA public key: " +:+ cause))
  /\ (forall key,
        importRSAPublicKey CryptoKey importKey pemKey = Ok key ->
        includes pemKey pemHeader = true /\ includes pemKey pemFooter = true
        /\ exists der,
             atob (remove_space
                     (remove_first pemFooter (remove_first pemHeader pemKey)))
             = Ok der
             /\ importKey der = Ok key).
Proof.
  unfold importRSAPublicKey. split; [|split].
  - intros [-> | ->]; cbn [negb orb]; [done|].
    by destruct (negb (includes pemKey pemHeader)).
  - intros error.
    match goal with
    | |- context [try_catch ?b _] => destruct b as [key|e]
    end; cbn [try_catch]; [done|].
    intros [= <-]. eauto.
  - intros key.
    destruct (includes pemKey pemHeader); cbn [negb orb]; [|done].
    destruct (includes pemKey pemFooter); cbn [negb]; [|done].
    destruct (atob _) as [der|]; cbn [bind try_catch]; [|done].
    destruct (importKey der) as [k|] eqn:Hk; [|done].
    intros [= <-]. eauto.
Qed.

(** X20 at a text without markers. *)
Lemma import_failures_are_wrapped_witness :
  importRSAPublicKey (list Z) Ok "not a key"
  = throw_error
      "Failed to import RSA public key: Invalid PEM format - missing headers".
Proof.
  apply (proj1 (import_failures_are_wrapped (list Z) Ok "not a key")).
  left. reflexivity.
Defined.

(** Property X21. [verifyRS256Signature] never throws, and it answers [true]
    exactly when data, signature and key text are not empty, [crypto.subtle]
    is available, the signature decodes from base64url, the key imports, and
    [crypto.subtle.verify] answers [true] for that key, the decoded
    signature and the UTF-8 bytes of the data. *)
Theorem verifyRS256Signature_answers (CryptoKey : Type)
    (crypto_available : bool) (importKey : list Z -> Exc CryptoKey)
    (verify : CryptoKey -> list Z -> list Z -> Exc bool)
    (data signature publicKeyPem : string) :
  exists answer,
    verifyRS256Signature CryptoKey crypto_available importKey verify
      data signature publicKeyPem = Ok answer
    /\ (answer = true <->
        data <> "" /\ signature <> "" /\ publicKeyPem <> ""
        /\ crypto_available = true
        /\ exists signatureBuffer publicKey,
             base64urlToArrayBuffer signature = Ok signatureBuffer
             /\ importRSAPublicKey CryptoKey importKey publicKeyPem
                = Ok publicKey
             /\ verify publicKey signatureBuffer (encode data) = Ok true).
Proof.
  unfold verifyRS256Signature.
  destruct data as [|d data]; cbn [truthy negb orb try_catch].
  { exists false. split; [done|]. split; [done|]. by intros (? & _). }
  destruct signature as [|c signature]; cbn [truthy negb orb try_catch].
  { exists false. split; [done|]. split; [done|]. by intros (_ & ? & _). }
  destruct publicKeyPem as [|p publicKeyPem]; cbn [truthy negb orb try_catch].
  { exists false. split; [done|]. split; [done|]. by intros (_ & _ & ? & _). }
  destruct crypto_available; cbn [negb try_catch].
  2:{ exists false. split; [done|]. split; [done|]. by intros (_ & _ & _ & ? & _). }
  destruct (base64urlToArrayBuffer _) as [sig|] eqn:Hsig; cbn [bind try_catch].
  2:{ exists false. split; [done|]. split; [done|].
      by intros (_ & _ & _ & _ & ? & ? & ? & _). }
  destruct (importRSAPublicKey _ _ _) as [key|] eqn:Hkey; cbn [bind try_catch].
  2:{ exists false. split; [done|]. split; [done|].
      by intros (_ & _ & _ & _ & ? & ? & _ & ? & _). }
  destruct (verify key sig _) as [b|] eqn:Hv; cbn [try_catch].
  - exists b. split; [done|]. split.
    + intros ->. repeat (split; [done|]). eauto.
    + intros (_ & _ & _ & _ & sig' & key' & [= <-] & [= <-] & Hv').
      congruence.
  - exists false. split; [done|]. split; [done|].
    intros (_ & _ & _ & _ & sig' & key' & [= <-] & [= <-] & Hv').
    congruence.
Qed.

End PemLaws.

(** ** The validator: construction and the steps of [validate] *)

Module ValidatorLaws.

Import Validator ValidatorInv ValidateInv StringFacts ValidatorFacts.

(** *** Construction *)

Lemma lower_upper_char c :
  code (upper_char c) < 128 -> lower_char (upper_char c) = lower_char c.
Proof.
  destruct c as [[] [] [] [] [] [] [] []]; vm_compute; intros H;
    try discriminate H; reflexivity.
Qed.

Lemma is_space_upper_char c :
  code (upper_char c) < 128 -> is_space (upper_char c) = is_space c.
Proof.
  destruct c as [[] [] [] [] [] [] [] []]; vm_compute; intros H;
    try discriminate H; reflexivity.
Qed.

Lemma toUpperCase_ascii a : forall u,
  toUpperCase a = u -> ascii_only u ->
  toLowerCase a = toLowerCase u /\ all_space a = all_space u.
Proof.
  induction a as [|c a IH]; intros u <-; cbn [toUpperCase ascii_only];
    [done|].
  intros [Hc Hu]. destruct (IH _ eq_refl Hu) as [IH1 IH2].
  cbn [toLowerCase all_space].
  by rewrite lower_upper_char, is_space_upper_char, IH1, IH2.
Qed.

Lemma validateAlgorithm_RS256 a alg :
  toUpperCase a = "RS256" ->
  validateAlgorithm (Some alg) [a] = true <-> toLowerCase alg = "rs256".
Proof.
  intros Ha.
  destruct (toUpperCase_ascii a "RS256" Ha) as [Hl Hs].
  { cbn. repeat split; lia. }
  change (toLowerCase "RS256") with "rs256" in Hl.
  change (all_space "RS256") with false in Hs.
  unfold validateAlgorithm. cbn [List.filter].
  rewrite !truthy_trim, Hs. cbn [negb List.map existsb]. rewrite Hl.
  split.
  - destruct (all_space alg); [done|]. cbn [negb].
    destruct (String.eqb (toLowerCase alg) "none"); [done|].
    rewrite orb_false_r. by intros ?%String.eqb_eq.
  - intros Halg. rewrite <- (all_space_toLowerCase alg), Halg.
    by cbn.
Qed.

(** Property X22. The constructor of the validator throws exactly when no
    JWKS client is given, or the issuer is missing or blank, or the
    algorithms are not a single string whose upper-case form is "RS256";
    when that string is written in ASCII, which [toUpperCase] changes in
    the letters a to z only, a validator the constructor builds accepts an
    algorithm exactly when its lower-case form is "rs256". (Outside ASCII,
    JavaScript upper-cases U+017F to S; the strings of this development are
    code units below 256 and do not reach it.) *)
Theorem validator_constructor_exact (jwksClient : bool)
    (issuer_ : option string) (algorithms_ : list string) :
  ((exists e, constructor jwksClient issuer_ algorithms_ = Throw e) <->
     jwksClient = false
     \/ (forall i, issuer_ = Some i -> truthy (trim i) = false)
     \/ ~ (exists a, algorithms_ = [a] /\ toUpperCase a = "RS256"))
  /\ (forall v, constructor jwksClient issuer_ algorithms_ = Ok v ->
        issuer_ = Some (issuer v) /\ algorithms v = algorithms_
        /\ (Forall ascii_only algorithms_ ->
            forall alg,
              validateAlgorithm (Some alg) (algorithms v) = true
              <-> toLowerCase alg = "rs256")).
Proof.
  unfold constructor. destruct jwksClient; cbn [negb].
  2:{ split; [|done]. split; [by left|unfold throw_error; eauto]. }
  destruct issuer_ as [i|].
  2:{ split; [|done]. split; [|unfold throw_error; eauto].
      intros _. right. left. by intros ? [=]. }
  destruct (truthy (trim i)) eqn:Hi; cbn [negb].
  2:{ split; [|done]. split; [|unfold throw_error; eauto].
      intros _. right. left. by intros ? [= <-]. }
  destruct algorithms_ as [|a [|b l]].
  - split; [|done]. split; [|unfold throw_error; eauto].
    intros _. right. right. by intros (? & ? & _).
  - destruct (String.eqb_spec (toUpperCase a) "RS256") as [Ha|Ha].
    + split.
      * split; [by intros [? ?]|].
        intros [?|[Hb|Hn]]; [done|specialize (Hb i eq_refl); congruence|].
        destruct Hn. eauto.
      * intros v [= <-]. cbn [issuer algorithms]. split; [done|].
        split; [done|]. intros _ alg. by apply validateAlgorithm_RS256.
    + split; [|done]. split; [|unfold throw_error; eauto].
      intros _. right. right. intros (a' & [= <-] & ?). done.
  - split; [|done]. split; [|unfold throw_error; eauto].
    intros _. right. right. by intros (? & ? & _).
Qed.

(** X22 at a validator built for "rs256". *)
Lemma validator_constructor_exact_witness :
  validateAlgorithm (Some "Rs256") ["rs256"] = true.
Proof.
  refine (proj2 (proj2 (proj2 (proj2 (validator_constructor_exact true
            (Some "https://issuer") ["rs256"])
            (mkValidator "https://issuer" ["rs256"]) _)) _ "Rs256") _).
  - reflexivity.
  - repeat constructor; vm_compute; reflexivity.
  - reflexivity.
Defined.

(** *** The steps of [validate] *)

Section ValidateLaws.

Variable JSON_parse_header : string -> Exc (option JWTHeader).
Variable JSON_parse_payload : string -> Exc (option JWTPayload).
Variable now_exp now_nbf : Z.

Abbreviation validate_with g ver :=
  (validate JSON_parse_header JSON_parse_payload g ver now_exp now_nbf).
Abbreviation passes :=
  (passes_checks JSON_parse_header JSON_parse_payload now_exp now_nbf).

Lemma exp_check p :
  match exp p with
  | Some exp_ => negb (exp_ =? 0) && (exp_ * 1000 <=? now_exp)
  | None => false
  end = false <-> not_expired p now_exp.
Proof.
  unfold not_expired. destruct (exp p) as [e|].
  - destruct (Z.eqb_spec e 0) as [->|Hne]; cbn [negb andb].
    + split; [intros _ ? [= <-]; by left|done].
    + destruct (Z.leb_spec (e * 1000) now_exp).
      * split; [done|]. intros Hall. destruct (Hall e eq_refl); lia.
      * split; [intros _ ? [= <-]; right; lia|done].
  - split; [by intros _ ? [=]|done].
Qed.

Lemma nbf_check p :
  match nbf p with
  | Some nbf_ => negb (nbf_ =? 0) && (now_nbf <? nbf_ * 1000)
  | None => false
  end = false <-> already_valid p now_nbf.
Proof.
  unfold already_valid. destruct (nbf p) as [n|].
  - destruct (Z.eqb_spec n 0) as [->|Hne]; cbn [negb andb].
    + split; [intros _ ? [= <-]; by left|done].
    + destruct (Z.ltb_spec now_nbf (n * 1000)).
      * split; [done|]. intros Hall. destruct (Hall n eq_refl); lia.
      * split; [intros _ ? [= <-]; right; lia|done].
  - split; [by intros _ ? [=]|done].
Qed.

Lemma split_three_truthy token a b c :
  split "." token = [a; b; c] -> truthy token = true.
Proof. by destruct token. Qed.

Lemma validate_of_passes v token headerB64 payloadB64 signatureB64 kid_ p :
  passes v token headerB64 payloadB64 signatureB64 kid_ p ->
  forall g ver,
    validate_with g ver v token
    = Ok (verdict g ver kid_ (headerB64 +:+ "." +:+ payloadB64)
            signatureB64 p).
Proof.
  intros (Hsplit & (ht & header & pt & Hh & Hhp & Hp & Hpp & Halg & Hkid)
          & Hiss & Hexp & Hnbf & Hne) g ver.
  unfold validate, validate_body, verdict.
  rewrite (split_three_truthy _ _ _ _ Hsplit), Hsplit. cbn [negb].
  rewrite Hh. cbn [bind]. rewrite Hhp. cbn [bind].
  rewrite Hp. cbn [bind]. rewrite Hpp. cbn [bind].
  rewrite Halg. cbn [negb]. rewrite Hiss.
  rewrite bool_decide_eq_true_2 by done. cbn [negb].
  apply exp_check in Hexp. apply nbf_check in Hnbf. rewrite Hexp, Hnbf.
  unfold present_kid. rewrite Hkid.
  assert (truthy kid_ = true) as -> by (by destruct kid_).
  destruct (g kid_) as [publicKey|e]; [|done].
  destruct (ver _ _ _) as [[|]|e]; done.
Qed.

Lemma validate_stages v token :
  (exists headerB64 payloadB64 signatureB64 kid_ p,
     passes v token headerB64 payloadB64 signatureB64 kid_ p)
  \/ (exists r, isValid r = false
               /\ forall g ver, validate_with g ver v token = Ok r).
Proof.
  unfold validate, validate_body.
  destruct (truthy token) eqn:Htok; cbn [negb];
    [|right; eexists; split; [|reflexivity]; done].
  destruct (split "." token) as [|h [|p [|s [|x l]]]] eqn:Hsplit;
    try (right; eexists; split; [|reflexivity]; done).
  destruct (Base64.base64urlDecode h) as [ht|] eqn:Hh; cbn [bind];
    [|right; eexists; split; [|reflexivity]; done].
  destruct (JSON_parse_header ht) as [header|] eqn:Hhp; cbn [bind];
    [|right; eexists; split; [|reflexivity]; done].
  destruct (Base64.base64urlDecode p) as [pt|] eqn:Hp; cbn [bind];
    [|right; eexists; split; [|reflexivity]; done].
  destruct (JSON_parse_payload pt) as [payload_|] eqn:Hpp; cbn [bind];
    [|right; eexists; split; [|reflexivity]; done].
  destruct header as [header|]; cbn [bind];
    [|right; eexists; split; [|reflexivity]; done].
  destruct (validateAlgorithm (alg header) (algorithms v)) eqn:Halg;
    cbn [negb]; [|right; eexists; split; [|reflexivity]; done].
  destruct payload_ as [payload_|]; cbn [bind];
    [|right; eexists; split; [|reflexivity]; done].
  destruct (bool_decide (iss payload_ = Some (issuer v))) eqn:Hiss;
    cbn [negb]; [|right; eexists; split; [|reflexivity]; done].
  apply bool_decide_eq_true_1 in Hiss.
  destruct (match exp payload_ with Some _ => _ | None => _ end) eqn:Hexp;
    [right; eexists; split; [|reflexivity]; done|].
  destruct (match nbf payload_ with Some _ => _ | None => _ end) eqn:Hnbf;
    [right; eexists; split; [|reflexivity]; done|].
  apply exp_check in Hexp. apply nbf_check in Hnbf.
  unfold present_kid.
  destruct (kid header) as [kid_|] eqn:Hkid;
    [|right; eexists; split; [|reflexivity]; done].
  destruct (truthy kid_) eqn:Hk;
    [|right; eexists; split; [|reflexivity]; done].
  left. exists h, p, s, kid_, payload_.
  split; [done|]. split; [by exists ht, header, pt|].
  repeat (split; [done|]). by destruct kid_.
Qed.

End ValidateLaws.

(** Property X23. For every token, either [validate] returns one and the
    same invalid result whatever the key lookup and the signature
    verification would do, or the token has three parts and a non-empty
    [kid] and the result is decided by the lookup of that [kid] alone and by
    one verification of header-dot-payload against the third part with the
    key found. *)
Theorem validate_consults_key_last
    (JSON_parse_header : string -> Exc (option JWTHeader))
    (JSON_parse_payload : string -> Exc (option JWTPayload))
    (now_exp now_nbf : Z) (v : t) (token : string) :
  (exists r,
     isValid r = false
     /\ forall getSigningKey verifyRS256Signature,
          validate JSON_parse_header JSON_parse_payload getSigningKey
            verifyRS256Signature now_exp now_nbf v token = Ok r)
  \/ (exists headerB64 payloadB64 signatureB64 kid_ p,
        split "." token = [headerB64; payloadB64; signatureB64]
        /\ kid_ <> ""
        /\ forall getSigningKey verifyRS256Signature,
             validate JSON_parse_header JSON_parse_payload getSigningKey
               verifyRS256Signature now_exp now_nbf v token
             = Ok (verdict getSigningKey verifyRS256Signature kid_
                     (headerB64 +:+ "." +:+ payloadB64) signatureB64 p)).
Proof.
  destruct (validate_stages JSON_parse_header JSON_parse_payload now_exp
              now_nbf v token) as [(h & p & s & kid_ & pl & Hpass)|Hfail].
  - right. exists h, p, s, kid_, pl.
    split; [by destruct Hpass|]. split; [by destruct Hpass as (_&_&_&_&_&?)|].
    by apply validate_of_passes.
  - by left.
Qed.

End ValidatorLaws.

(** ** [validate] on whatever [JSON.parse] returns *)

Module ValidateJsonLaws.

Import ValidateJson.

Section ValidateJsonLaws.

Variable JSON_parse : string -> Exc json.
Variable getSigningKey : json -> Exc string.
Variable verifyRS256Signature : string -> string -> string -> Exc bool.
Variable ToString : json -> Exc string.
Variable product_1000 : json -> Exc number.
Variable now_exp now_nbf : Z.

Abbreviation validate_json :=
  (validate JSON_parse getSigningKey verifyRS256Signature ToString
     product_1000 now_exp now_nbf).

Lemma expired_false exp :
  expired product_1000 now_exp exp = Ok false <-> unexpired product_1000 now_exp exp.
Proof.
  unfold expired, unexpired, truthy_value. destruct exp as [value|].
  2:{ split; [by left|done]. }
  destruct (truthy_json value) eqn:Ht.
  2:{ split; [by left|done]. }
  destruct (times_1000 product_1000 value) as [ms|e] eqn:Hms0; cbn [bind].
  - split.
    + intros [= H]. right. exists value, ms. by repeat split.
    + intros [?|(value' & ms' & Hv & Hms & Hcmp)]; [done|].
      injection Hv as <-. rewrite Hms0 in Hms. injection Hms as <-. by rewrite Hcmp.
  - split; [done|]. intros [?|(value' & ms' & Hv & Hms & _)]; [done|].
    injection Hv as <-. congruence.
Qed.

Lemma not_yet_valid_false nbf :
  not_yet_valid product_1000 now_nbf nbf = Ok false
  <-> started product_1000 now_nbf nbf.
Proof.
  unfold not_yet_valid, started, truthy_value. destruct nbf as [value|].
  2:{ split; [by left|done]. }
  destruct (truthy_json value) eqn:Ht.
  2:{ split; [by left|done]. }
  destruct (times_1000 product_1000 value) as [ms|e] eqn:Hms0; cbn [bind].
  - split.
    + intros [= H]. right. exists value, ms. by repeat split.
    + intros [?|(value' & ms' & Hv & Hms & Hcmp)]; [done|].
      injection Hv as <-. rewrite Hms0 in Hms. injection Hms as <-. by rewrite Hcmp.
  - split; [done|]. intros [?|(value' & ms' & Hv & Hms & _)]; [done|].
    injection Hv as <-. congruence.
Qed.

Lemma field_read value name x :
  field value name = Some x -> read value name = Ok (Some x).
Proof. destruct value; intros H; try discriminate H; cbn [read]; by rewrite H. Qed.

Abbreviation passes :=
  (passes_checks JSON_parse product_1000 now_exp now_nbf).

Lemma read_Ok value name x :
  read value name = Ok x -> x = field value name.
Proof. destruct value; cbn [read]; by intros [= <-]. Qed.

Lemma as_string_Some value s : as_string value = Some s -> value = Some (JString s).
Proof. destruct value as [[]|]; cbn [as_string]; by intros [= <-]. Qed.

Lemma outcome_of_passes v token h p s header payload_ kid_ :
  passes v token h p s header payload_ kid_ ->
  validate_json v token
  = match getSigningKey kid_ with
    | Throw error =>
        Ok (invalid ("Failed to get signing key: "
                     +:+ message_or error "Unknown error"))
    | Ok publicKey =>
        match verifyRS256Signature (h +:+ "." +:+ p) s publicKey with
        | Throw error => Ok (invalid (message_or error "Token validation failed"))
        | Ok false => Ok (invalid "Invalid signature")
        | Ok true => Ok (mkResult true (Some payload_) None)
        end
    end.
Proof.
  intros (Hsplit & (ht & pt & Hh & Hhp & Hp & Hpp) & (alg_ & Halg & Hallowed)
          & Hiss & Hexp & Hnbf & Hkid & Htruthy).
  unfold validate, validate_body.
  rewrite (ValidatorLaws.split_three_truthy _ _ _ _ Hsplit), Hsplit. cbn [negb].
  rewrite Hh. cbn [bind]. rewrite Hhp. cbn [bind].
  rewrite Hp. cbn [bind]. rewrite Hpp. cbn [bind].
  rewrite (field_read _ _ _ Halg). cbn [bind as_string].
  rewrite Hallowed. cbn [negb].
  rewrite (field_read _ _ _ Hiss). cbn [bind as_string].
  rewrite bool_decide_eq_true_2 by done. cbn [negb].
  apply expired_false in Hexp. apply not_yet_valid_false in Hnbf.
  rewrite Hexp. cbn [bind]. rewrite Hnbf. cbn [bind].
  rewrite Hkid, Htruthy. cbn [negb].
  destruct (getSigningKey kid_) as [publicKey|e]; [|done].
  destruct (verifyRS256Signature _ _ _) as [[|]|e]; done.
Qed.

Lemma valid_passes v token r :
  validate_json v token = Ok r -> isValid r = true ->
  exists h p s header payload_ kid_, passes v token h p s header payload_ kid_.
Proof.
  unfold validate, validate_body. intros Hv Hvalid.
  assert (forall m, Ok (invalid m) = Ok r -> False) as Hbad.
  { intros m [= <-]. discriminate Hvalid. }
  assert (forall e : thrown,
            try_catch (Throw e)
              (fun error => Ok (invalid (message_or error "Token validation failed")))
            = Ok r -> False) as Hthrown.
  { intros e H. cbn [try_catch] in H. by eapply Hbad. }
  destruct (truthy token) eqn:Htok; cbn [negb] in Hv;
    [|exfalso; by eapply Hbad].
  destruct (split "." token) as [|h [|p [|s [|x l]]]] eqn:Hsplit;
    try (exfalso; by eapply Hbad).
  destruct (Base64.base64urlDecode h) as [ht|] eqn:Hh; cbn [bind] in Hv;
    [|exfalso; by eapply Hbad].
  destruct (JSON_parse ht) as [header|] eqn:Hhp; cbn [bind] in Hv;
    [|exfalso; by eapply Hbad].
  destruct (Base64.base64urlDecode p) as [pt|] eqn:Hp; cbn [bind] in Hv;
    [|exfalso; by eapply Hbad].
  destruct (JSON_parse pt) as [payload_|] eqn:Hpp; cbn [bind] in Hv;
    [|exfalso; by eapply Hbad].
  destruct (read header "alg") as [header_alg|] eqn:Hra; cbn [bind] in Hv;
    [|exfalso; by eapply Hthrown].
  apply read_Ok in Hra. subst header_alg.
  destruct (validateAlgorithm (as_string (field header "alg")) _) eqn:Halg;
    cbn [negb] in Hv.
  2:{ exfalso. destruct (template ToString (field header "alg"));
        cbn [bind] in Hv; [by eapply Hbad|by eapply Hthrown]. }
  destruct (as_string (field header "alg")) as [alg_|] eqn:Has; [|done].
  apply as_string_Some in Has.
  destruct (read payload_ "iss") as [payload_iss|] eqn:Hri; cbn [bind] in Hv;
    [|exfalso; by eapply Hthrown].
  apply read_Ok in Hri. subst payload_iss.
  destruct (bool_decide (as_string (field payload_ "iss")
                         = Some (Validator.issuer v))) eqn:Hiss;
    cbn [negb] in Hv.
  2:{ exfalso. destruct (template ToString (field payload_ "iss"));
        cbn [bind] in Hv; [by eapply Hbad|by eapply Hthrown]. }
  apply bool_decide_eq_true_1, as_string_Some in Hiss.
  destruct (expired product_1000 now_exp (field payload_ "exp"))
    as [[|]|] eqn:Hexp; cbn [bind] in Hv;
    [exfalso; by eapply Hbad| |exfalso; by eapply Hthrown].
  destruct (not_yet_valid product_1000 now_nbf (field payload_ "nbf"))
    as [[|]|] eqn:Hnbf; cbn [bind] in Hv;
    [exfalso; by eapply Hbad| |exfalso; by eapply Hthrown].
  apply expired_false in Hexp. apply not_yet_valid_false in Hnbf.
  destruct (field header "kid") as [kid_|] eqn:Hkid;
    [|exfalso; by eapply Hbad].
  destruct (truthy_json kid_) eqn:Hk; cbn [negb] in Hv;
    [|exfalso; by eapply Hbad].
  exists h, p, s, header, payload_, kid_.
  split; [done|]. split; [by exists ht, pt|]. split; [by exists alg_|].
  by repeat (split; [done|]).
Qed.

End ValidateJsonLaws.

(** Property X24. [validate] returns a valid result exactly when the token
    has three dot-separated parts, header and payload decode and parse to
    values other than [null], [header.alg] is a string that the allowlist
    admits, [payload.iss] is the string of the issuer, [payload.exp] is
    falsy (absent, [null], [false], 0 or the empty string) or, multiplied by
    1000, not at or before the clock, [payload.nbf] is falsy or, multiplied
    by 1000, not after the clock, [header.kid] is truthy, whatever its type,
    the key lookup for it succeeds and the verification of
    header-dot-payload against the signature with that key answers [true];
    the result then carries the parsed payload and no message. For an
    integer [exp] the expiry check passes exactly when it is 0 or the clock
    is before [exp * 1000]; for a string, an array, an object or another
    number the product is the platform's, and the check passes when it is
    [NaN]. *)
Theorem validate_accepts_exactly
    (JSON_parse : string -> Exc json) (getSigningKey : json -> Exc string)
    (verifyRS256Signature : string -> string -> string -> Exc bool)
    (ToString : json -> Exc string) (product_1000 : json -> Exc number)
    (now_exp now_nbf : Z) (v : Validator.t) (token : string)
    (r : JwtValidationResult) :
  (validate JSON_parse getSigningKey verifyRS256Signature ToString
     product_1000 now_exp now_nbf v token = Ok r
   /\ isValid r = true
   <-> exists headerB64 payloadB64 signatureB64 header payload_ kid_ publicKey,
         passes_checks JSON_parse product_1000 now_exp now_nbf v token
           headerB64 payloadB64 signatureB64 header payload_ kid_
         /\ getSigningKey kid_ = Ok publicKey
         /\ verifyRS256Signature (headerB64 +:+ "." +:+ payloadB64)
              signatureB64 publicKey = Ok true
         /\ r = mkResult true (Some payload_) None)
  /\ (forall z,
        unexpired product_1000 now_exp (Some (JNumber z 1))
        <-> z = 0 \/ now_exp < z * 1000)
  /\ (forall z,
        started product_1000 now_nbf (Some (JNumber z 1))
        <-> z = 0 \/ z * 1000 <= now_nbf)
  /\ (forall value,
        truthy_json value = true ->
        times_1000 product_1000 value = Ok NaN ->
        unexpired product_1000 now_exp (Some value)
        /\ started product_1000 now_nbf (Some value)).
Proof.
  split; [|split; [|split]].
  - split.
    + intros [Hv Hvalid].
      destruct (valid_passes _ _ _ _ _ _ _ _ _ _ Hv Hvalid)
        as (h & p & s & header & payload_ & kid_ & Hpass).
      rewrite (outcome_of_passes _ _ _ _ _ _ _ _ _ _ _ _ _ _ _ Hpass) in Hv.
      destruct (getSigningKey kid_) as [publicKey|] eqn:Hg.
      2:{ injection Hv as <-. discriminate Hvalid. }
      destruct (verifyRS256Signature _ _ _) as [[|]|] eqn:Hver;
        injection Hv as <-; try discriminate Hvalid.
      exists h, p, s, header, payload_, kid_, publicKey.
      by repeat (split; [done|]).
    + intros (h & p & s & header & payload_ & kid_ & publicKey & Hpass & Hg
              & Hver & ->).
      split; [|done].
      rewrite (outcome_of_passes _ _ _ _ _ _ _ _ _ _ _ _ _ _ _ Hpass).
      by rewrite Hg, Hver.
  - intros z. unfold unexpired, truthy_value, truthy_json. split.
    + intros [Hz|(value & ms & [= <-] & Hms & Hcmp)].
      * left. by destruct (Z.eqb_spec z 0).
      * right. cbn in Hms. rewrite Z.mod_1_r, Z.div_1_r in Hms.
        injection Hms as <-. cbn in Hcmp. lia.
    + destruct (Z.eqb_spec z 0) as [->|Hz]; [by left|].
      intros [?|Hlt]; [done|]. right. exists (JNumber z 1), (Int (z * 1000)).
      split; [done|]. split; [cbn; by rewrite Z.mod_1_r, Z.div_1_r|].
      cbn. lia.
  - intros z. unfold started, truthy_value, truthy_json. split.
    + intros [Hz|(value & ms & [= <-] & Hms & Hcmp)].
      * left. by destruct (Z.eqb_spec z 0).
      * right. cbn in Hms. rewrite Z.mod_1_r, Z.div_1_r in Hms.
        injection Hms as <-. cbn in Hcmp. lia.
    + destruct (Z.eqb_spec z 0) as [->|Hz]; [by left|].
      intros [?|Hlt]; [done|]. right. exists (JNumber z 1), (Int (z * 1000)).
      split; [done|]. split; [cbn; by rewrite Z.mod_1_r, Z.div_1_r|].
      cbn. lia.
  - intros value Ht Hms. split; right; by exists value, NaN.
Qed.

(** X24 at a token whose header has the number 5 as [kid] and whose payload
    has a string that is no number as [exp]. *)
Lemma validate_accepts_exactly_witness :
  validate odd_parse (fun _ => Ok "pem") (fun _ _ _ => Ok true) no_string
    no_number 0 0 ValidatorInv.sample_validator "aA.cA.c2ln"
  = Ok (mkResult true (Some odd_payload) None).
Proof.
  refine (proj1 (proj2 (proj1 (validate_accepts_exactly odd_parse
                          (fun _ => Ok "pem") (fun _ _ _ => Ok true)
                          no_string no_number 0 0
                          ValidatorInv.sample_validator "aA.cA.c2ln" _)) _)).
  exists "aA", "cA", "c2ln", odd_header, odd_payload, (JNumber 5 1), "pem".
  split; [|done]. split; [reflexivity|].
  split; [exists "h", "p"; repeat split; reflexivity|].
  split; [exists "RS256"; split; reflexivity|].
  split; [reflexivity|].
  split; [right; exists (JString "soon"), NaN; repeat split; reflexivity|].
  split; [left; reflexivity|]. split; reflexivity.
Defined.

End ValidateJsonLaws.

(** ** The factory *)

Module FactoryLaws.

Import LRUCacheInv JWKSClientInv Factory StringFacts JWKSClientLaws.

Lemma https_not_blank s : truthy (trim ("https://" +:+ s)) = true.
Proof.
  rewrite truthy_trim.
  by change ("https://" +:+ s) with (String "h"%char ("ttps://" +:+ s)).
Qed.

(** Property X25. [createWristbandJwtValidator] throws exactly when
    [jwksCacheMaxSize ?? 20] is not a positive integer, or [jwksCacheTtl] is
    given, is neither 0 nor NaN, and is not a positive integer; no domain
    makes it throw. The validator it returns has the issuer "https://"
    followed by the domain and the algorithms ["RS256"]; its client fetches
    from that issuer followed by "/api/v1/oauth2/jwks" and starts with an
    empty cache. *)
Theorem factory_fails_only_on_cache_settings
    (config : WristbandJwtValidatorConfig) :
  let maxSize_ := default (Int 20) (jwksCacheMaxSize config) in
  let issuer_ := "https://" +:+ wristbandApplicationVanityDomain config in
  ((exists e, createWristbandJwtValidator config = Throw e) <->
     ~ positive_integer maxSize_
     \/ exists ttl_, jwksCacheTtl config = Some ttl_
                     /\ number_truthy ttl_ = true /\ ~ positive_integer ttl_)
  /\ (forall v c, createWristbandJwtValidator config = Ok (v, c) ->
        Validator.issuer v = issuer_
        /\ Validator.algorithms v = ["RS256"]
        /\ JWKSClient.jwksUri c = issuer_ +:+ "/api/v1/oauth2/jwks"
        /\ maxSize_ = Int (LRUCache.maxSize (JWKSClient.cache c))
        /\ JWKSClient.getCacheStats c
           = (0, LRUCache.maxSize (JWKSClient.cache c))
        /\ LRUCache.ttl (JWKSClient.cache c) = jwksCacheTtl config
        /\ reachable c).
Proof.
  intros maxSize_ issuer_.
  unfold createWristbandJwtValidator, createJwksClient.
  fold issuer_.
  change (match jwksCacheMaxSize config with Some m => m | None => Int 20 end)
    with maxSize_.
  set (cfg := JWKSClient.mkConfig _ _ _).
  assert (JWKSClient.constructor cfg
          = let! c := LRUCache.constructor
                        (mkCacheOptions maxSize_ (jwksCacheTtl config)) in
            Ok (JWKSClient.mkClient c (issuer_ +:+ "/api/v1/oauth2/jwks")))
    as Hcfg.
  { unfold JWKSClient.constructor. subst cfg.
    cbn [JWKSClient.cfg_jwksUri JWKSClient.cfg_cacheMaxSize
           JWKSClient.cfg_cacheTtl].
    subst issuer_.
    change (("https://" +:+ ?d) +:+ ?x)
      with (String "h"%char (("ttps://" +:+ d) +:+ x)).
    rewrite truthy_trim. done. }
  assert (Validator.constructor true (Some issuer_) ["RS256"]
          = Ok (Validator.mkValidator issuer_ ["RS256"])) as Hv.
  { unfold Validator.constructor. cbn [negb]. subst issuer_.
    by rewrite https_not_blank. }
  rewrite Hv. cbn [bind].
  pose proof (cache_constructor_cases
                (mkCacheOptions maxSize_ (jwksCacheTtl config))) as Hc.
  cbn [opt_maxSize opt_ttl] in Hc.
  rewrite Hcfg.
  destruct (LRUCache.constructor _) as [cc|e] eqn:Hlc; cbn [bind].
  - destruct Hc as (m & Hm & Hm0 & -> & Httl). split.
    + split; [by intros [? ?]|].
      intros [Hn|(ttl_ & Hs & Htr & Hn)].
      * destruct Hn. exists m. by split.
      * destruct (Httl ttl_ Hs); [congruence|done].
    + intros v c [= <- <-].
      cbn [Validator.issuer Validator.algorithms JWKSClient.jwksUri
             JWKSClient.cache].
      repeat (split; [done|]).
      apply (reachable_new cfg). by rewrite Hcfg.
  - split; [|done]. split; [|eauto]. intros _. exact Hc.
Qed.

End FactoryLaws.
